(** * Zenith X landing page: the scroll-driven frame sequence of [src/App.tsx]

    The development embeds the parts of [App.tsx] that carry behaviour:
    the frame-sequence path table, the batched image preloader, the
    scroll-progress transforms (frame index, overlay opacity and offset),
    the canvas rendering effect, the loading screen and the easing given
    to the smooth scroll.

    Numbers are rationals.  Progress values and transform outputs are
    exact.  The arithmetic of [render] is that of binary64: every
    division, product and difference is rounded to 53 significant bits,
    ties to even, and a division by a zero image width yields an infinity
    or NaN; the exponent range is not modelled, the sizes of canvases and
    images being 32-bit integers, for which no operation of [render]
    leaves the normal range.  The easing of the smooth scroll, a power with
    a real exponent, is taken over the real numbers.  The sign of zero is
    not modelled. *)

From Stdlib Require Import QArith Qround Qminmax Qabs Qpower.
From Stdlib Require Import ZArith NArith Lia Lqa.
From Stdlib Require Import Ascii String DecimalString.
From Stdlib Require DecimalNat Reals Lra Floats.
From stdpp Require Import base tactics option list.

Local Open Scope Q_scope.

(** ** Scroll-progress transforms *)

Module Transform.

(** Modelled from the spec: the [motion/react] package, to which
    [useTransform] belongs, is not under src/; the spec asks for a value
    clamped at the boundaries.  This is the package's
    [clamp(min, max, v)]. *)
Definition clamp (min max v : Q) : Q :=
  if Qlt_le_dec max v then max
  else if Qlt_le_dec v min then min
  else v.

(** Modelled from the spec: part of the absent [useTransform], whose
    interpolation the spec calls piecewise linear.  The package's
    [progress(from, to, value)]: the position of [value] between [from] and
    [to]; a degenerate range yields 1. *)
Definition progress (from to value : Q) : Q :=
  if Qeq_dec (to - from) 0 then 1 else (value - from) / (to - from).

(** Modelled from the spec: part of the absent [useTransform]; the
    package's linear [mixNumber(from, to, p)]. *)
Definition mixNumber (from to p : Q) : Q := from + (to - from) * p.

(** Modelled from the spec: part of the absent [useTransform], the
    piecewise-linear interpolation through the ordered (breakpoint, value)
    pairs.  Walk the breakpoints until [v] is below the next one, the last
    segment taking whatever is left, then mix that segment's two
    outputs. *)
Fixpoint interpolator (input output : list Q) (v : Q) : Q :=
  match input, output with
  | x0 :: ((x1 :: xs) as input'), y0 :: ((y1 :: _) as output') =>
      match xs with
      | [] => mixNumber y0 y1 (progress x0 x1 v)
      | _ :: _ =>
          if Qlt_le_dec v x1 then mixNumber y0 y1 (progress x0 x1 v)
          else interpolator input' output' v
      end
  | _, y0 :: _ => y0
  | _, [] => 0
  end.

(** Modelled from the spec: [useTransform] belongs to the [motion/react]
    package, which is not under src/; only its calls in [App.tsx] are.  The
    spec describes it as a piecewise-linear interpolation through an
    ordered list of (progress breakpoint, output value) pairs with an
    output range guarantee; this is the package's default, clamping,
    number-to-number transform: the input is clamped to the breakpoint
    range and then interpolated linearly inside its segment. *)
Definition useTransform (input output : list Q) (v : Q) : Q :=
  interpolator input output (clamp (hd 0 input) (List.last input 0) v).

End Transform.

(** [Math.round]: the nearest integer, halves rounded up. *)
Definition Math_round (x : Q) : Z := Qfloor (x + (1 # 2)).

Section ScrollValues.

(** [smoothProgress.get()], the spring-smoothed scroll progress. *)
Variable smoothProgress : Q.

Definition frameIndex : Q :=
  Transform.useTransform [0; 1] [0; 143] smoothProgress.

Definition text1Opacity : Q :=
  Transform.useTransform
    [0; 15 # 100; 25 # 100; 35 # 100] [0; 1; 1; 0] smoothProgress.
Definition text1Y : Q :=
  Transform.useTransform [0; 15 # 100; 35 # 100] [50; 0; -50] smoothProgress.

Definition text2Opacity : Q :=
  Transform.useTransform
    [35 # 100; 50 # 100; 60 # 100; 70 # 100] [0; 1; 1; 0] smoothProgress.
Definition text2Y : Q :=
  Transform.useTransform
    [35 # 100; 50 # 100; 70 # 100] [50; 0; -50] smoothProgress.

Definition text3Opacity : Q :=
  Transform.useTransform
    [70 # 100; 85 # 100; 95 # 100; 1] [0; 1; 1; 0] smoothProgress.
Definition text3Y : Q :=
  Transform.useTransform [70 # 100; 85 # 100; 1] [50; 0; -50] smoothProgress.

End ScrollValues.

(** The index [render] looks up: [Math.round(index)] of the frame-index
    motion value. *)
Definition selectedFrame (p : Q) : Z := Math_round (frameIndex p).

(** The straight line through [(x0, y0)] and [(x1, y1)], against which the
    transforms are compared. *)
Definition line (x0 y0 x1 y1 p : Q) : Q :=
  y0 + (y1 - y0) * ((p - x0) / (x1 - x0)).


(** ** The frame-sequence path table *)

(** [String(n)] for a non-negative integer: its decimal digits. *)
Definition String_of_nat (n : nat) : string :=
  NilEmpty.string_of_uint (Nat.to_uint n).

(** The first [n] characters of [padString] repeated; [cur] is what is left
    of the copy being consumed. *)
Fixpoint filler (n : nat) (padString cur : string) : string :=
  match n with
  | O => EmptyString
  | S n' =>
      match cur with
      | String c rest => String c (filler n' padString rest)
      | EmptyString =>
          match padString with
          | String c rest => String c (filler n' padString rest)
          | EmptyString => EmptyString
          end
      end
  end.

(** [s.padStart(targetLength, padString)]. *)
Definition padStart (s : string) (targetLength : nat) (padString : string)
  : string :=
  let len := String.length s in
  if (targetLength <=? len)%nat then s
  else String.append (filler (targetLength - len) padString padString) s.

(** The callback of [Array.from]:
    [(_, i) => `/headphone-seqs/${String(i + 1).padStart(5, "0")}.png`]. *)
Definition imagePath (i : nat) : string :=
  String.append "/headphone-seqs/"
    (String.append (padStart (String_of_nat (i + 1)) 5 "0") ".png").

Definition imagePaths : list string := map imagePath (seq 0 144).

(** The last decimal digit of [d], as a character. *)
Definition digit (d : nat) : ascii := ascii_of_nat (48 + d mod 10).

(** The file number as the specification words it: a number written with
    exactly five decimal digits, leading zeros included. *)
Definition five_digits (n : nat) : string :=
  String (digit (n / 10000))
    (String (digit (n / 1000))
       (String (digit (n / 100))
          (String (digit (n / 10)) (String (digit n) EmptyString)))).

(** The path of the specification for index [i]: base, five-digit number
    counted from 1, extension. *)
Definition numbered_path (i : nat) : string :=
  String.append "/headphone-seqs/"
    (String.append (five_digits (i + 1)) ".png").

(** ** Rounding to binary64 *)

Module Binary64.

(** [2 ^ e] for an integer [e] of either sign. *)
Definition pow2 (e : Z) : Q := 2 ^ e.

(** For positive [x], the integer [k] with [2 ^ k <= x < 2 ^ (k + 1)]. *)
Definition ilog2 (x : Q) : Z :=
  let k := (Z.log2 (Qnum x) - Z.log2 (Zpos (Qden x)))%Z in
  if Qle_bool (pow2 k) x then k else (k - 1)%Z.

(** The nearest integer, a tie going to the even one. *)
Definition nearest_even (x : Q) : Z :=
  let f := Qfloor x in
  match Qcompare (x - inject_Z f) (1 # 2) with
  | Lt => f
  | Gt => (f + 1)%Z
  | Eq => if Z.even f then f else (f + 1)%Z
  end.

(** A positive number rounded to 53 significant bits: scaled so that it
    lies between [2 ^ 52] and [2 ^ 53], rounded to an integer, scaled
    back. *)
Definition round_pos (x : Q) : Q :=
  let e := (ilog2 x - 52)%Z in
  inject_Z (nearest_even (x / pow2 e)) * pow2 e.

(** The binary64 number nearest to [x], ties to even. *)
Definition round64 (x : Q) : Q :=
  match Qcompare x 0 with
  | Eq => 0
  | Gt => round_pos x
  | Lt => - round_pos (- x)
  end.

(** The unit roundoff, [2 ^ -53]: the largest relative error of one
    rounding. *)
Definition u64 : Q := 1 # 9007199254740992.

End Binary64.

Import Binary64.

(** ** JavaScript numbers in [render] *)

Module Number.

Inductive number : Type :=
| Fin (q : Q)
| PosInf
| NegInf
| NaN.

(** An unsigned integer attribute read as a rational; a 32-bit integer
    is a binary64 number as it stands. *)
Definition N2Q (n : N) : Q := inject_Z (Z.of_N n).

(** The number read from an unsigned integer attribute. *)
Definition of_N (n : N) : number := Fin (N2Q n).

Definition isFinite (a : number) : bool :=
  match a with Fin _ => true | _ => false end.

(** [a / b], rounded; a zero divisor is taken as +0. *)
Definition div (a b : number) : number :=
  match a, b with
  | NaN, _ | _, NaN => NaN
  | Fin x, Fin y =>
      if Qeq_dec y 0 then
        if Qeq_dec x 0 then NaN
        else if Qlt_le_dec 0 x then PosInf else NegInf
      else Fin (round64 (x / y))
  | Fin _, _ => Fin 0
  | PosInf, Fin y => if Qlt_le_dec y 0 then NegInf else PosInf
  | NegInf, Fin y => if Qlt_le_dec y 0 then PosInf else NegInf
  | _, _ => NaN
  end.

(** [a * b], rounded. *)
Definition mul (a b : number) : number :=
  match a, b with
  | NaN, _ | _, NaN => NaN
  | Fin x, Fin y => Fin (round64 (x * y))
  | Fin x, PosInf | PosInf, Fin x =>
      if Qeq_dec x 0 then NaN
      else if Qlt_le_dec 0 x then PosInf else NegInf
  | Fin x, NegInf | NegInf, Fin x =>
      if Qeq_dec x 0 then NaN
      else if Qlt_le_dec 0 x then NegInf else PosInf
  | PosInf, PosInf | NegInf, NegInf => PosInf
  | PosInf, NegInf | NegInf, PosInf => NegInf
  end.

(** [a - b], rounded. *)
Definition sub (a b : number) : number :=
  match a, b with
  | NaN, _ | _, NaN => NaN
  | Fin x, Fin y => Fin (round64 (x - y))
  | Fin _, PosInf => NegInf
  | Fin _, NegInf => PosInf
  | PosInf, PosInf | NegInf, NegInf => NaN
  | PosInf, _ => PosInf
  | NegInf, _ => NegInf
  end.

(** [Math.max(a, b)]. *)
Definition max (a b : number) : number :=
  match a, b with
  | NaN, _ | _, NaN => NaN
  | PosInf, _ | _, PosInf => PosInf
  | NegInf, c | c, NegInf => c
  | Fin x, Fin y => if Qlt_le_dec x y then Fin y else Fin x
  end.

End Number.

Import Number.

(** ** Image elements *)

(** What the browser knows of an image element's current request. *)
Inductive loadState : Type :=
| Unavailable
| Available (naturalWidth naturalHeight : N)
| Broken.

Record HTMLImageElement : Type := {
  src : string;
  request : loadState
}.

(** [new Image()]. *)
Definition new_Image : HTMLImageElement :=
  {| src := EmptyString; request := Unavailable |}.

(** [img.width] and [img.height] of an element that is not rendered: the
    natural size once the image is available, 0 otherwise. *)
Definition img_width (img : HTMLImageElement) : N :=
  match request img with Available w _ => w | _ => 0%N end.
Definition img_height (img : HTMLImageElement) : N :=
  match request img with Available _ h => h | _ => 0%N end.

(** Objects live in a store and are named by their address, so that two
    arrays can hold the same element. *)
Abbreviation ref := nat (only parsing).
Abbreviation store := (list HTMLImageElement) (only parsing).

(** The element at an address. *)
Definition deref (h : store) (r : ref) : HTMLImageElement :=
  default new_Image (h !! r).

(** A new element is put at the end of the store. *)
Definition alloc (h : store) (o : HTMLImageElement) : ref * store :=
  (length h, h ++ [o]).

(** A JavaScript array of image elements; [None] is a hole or [undefined]. *)
Abbreviation array := (list (option nat)) (only parsing).

(** [arr[i]] for an integer [i]. *)
Definition array_get (arr : array) (i : Z) : option ref :=
  if (i <? 0)%Z then None else mjoin (arr !! Z.to_nat i).

(** [arr[i] = v]: overwrite inside the array, extend it with holes
    otherwise. *)
Definition array_set (arr : array) (i : nat) (v : ref) : array :=
  if decide (i < length arr)%nat then <[i := Some v]> arr
  else arr ++ replicate (i - length arr) None ++ [Some v].

(** [[...arr]]: a fresh array with the same elements. *)
Definition spread (arr : array) : array := map (fun x => x) arr.

(** ** The 2D canvas *)

Module Canvas.

(** What lies on the bitmap, newest first. *)
Inductive paint : Type :=
| Drawn (img : ref) (sx sy sw sh dx dy dw dh : Q)
| Erased (x y w h : Q).

(** The operations performed on the canvas element and its context. *)
Inductive op : Type :=
| SetWidth (w : N)
| SetHeight (h : N)
| ClearRect (x y w h : number)
| SetImageSmoothingEnabled (b : bool)
| SetImageSmoothingQuality (q : string)
| DrawImage (img : ref) (sx sy sw sh dx dy dw dh : number).

Record canvas : Type := {
  width : N;
  height : N;
  bitmap : list paint;
  imageSmoothingEnabled : bool;
  imageSmoothingQuality : string;
  ops : list op
}.

(** A canvas element as created: 300 by 150, transparent, default
    context state, nothing done to it yet. *)
Definition fresh : canvas :=
  {| width := 300; height := 150; bitmap := [];
     imageSmoothingEnabled := true; imageSmoothingQuality := "low";
     ops := [] |}.

(** A call either returns or throws; either way the canvas is left in
    some state. *)
Inductive outcome (A : Type) : Type :=
| Returned (a : A)
| Thrown (name : string) (a : A).
Arguments Returned {A} a.
Arguments Thrown {A} name a.

(** Record an operation. *)
Definition log (o : op) (cv : canvas) : canvas :=
  {| width := width cv; height := height cv; bitmap := bitmap cv;
     imageSmoothingEnabled := imageSmoothingEnabled cv;
     imageSmoothingQuality := imageSmoothingQuality cv;
     ops := ops cv ++ [o] |}.

(** Replace what lies on the bitmap. *)
Definition with_bitmap (b : list paint) (cv : canvas) : canvas :=
  {| width := width cv; height := height cv; bitmap := b;
     imageSmoothingEnabled := imageSmoothingEnabled cv;
     imageSmoothingQuality := imageSmoothingQuality cv;
     ops := ops cv |}.

(** [canvas.width = w]: assigning a dimension resets the bitmap to
    transparent and the context to its default state. *)
Definition set_width (w : N) (cv : canvas) : canvas :=
  {| width := w; height := height cv; bitmap := [];
     imageSmoothingEnabled := true; imageSmoothingQuality := "low";
     ops := ops cv ++ [SetWidth w] |}.

(** [canvas.height = h], likewise. *)
Definition set_height (h : N) (cv : canvas) : canvas :=
  {| width := width cv; height := h; bitmap := [];
     imageSmoothingEnabled := true; imageSmoothingQuality := "low";
     ops := ops cv ++ [SetHeight h] |}.

(** [ctx.imageSmoothingEnabled = b]. *)
Definition set_imageSmoothingEnabled (b : bool) (cv : canvas) : canvas :=
  {| width := width cv; height := height cv; bitmap := bitmap cv;
     imageSmoothingEnabled := b;
     imageSmoothingQuality := imageSmoothingQuality cv;
     ops := ops cv ++ [SetImageSmoothingEnabled b] |}.

(** [ctx.imageSmoothingQuality = q]. *)
Definition set_imageSmoothingQuality (q : string) (cv : canvas) : canvas :=
  {| width := width cv; height := height cv; bitmap := bitmap cv;
     imageSmoothingEnabled := imageSmoothingEnabled cv;
     imageSmoothingQuality := q;
     ops := ops cv ++ [SetImageSmoothingQuality q] |}.

(** Does the rectangle cover the whole bitmap? *)
Definition covers (x y w h : Q) (cv : canvas) : bool :=
  Qle_bool x 0 && Qle_bool y 0
  && Qle_bool (N2Q (width cv)) (x + w)
  && Qle_bool (N2Q (height cv)) (y + h).

(** [ctx.clearRect(x, y, w, h)]: nothing with a non-finite argument or an
    empty rectangle; otherwise the pixels of the rectangle become
    transparent. *)
Definition clearRect (x y w h : number) (cv : canvas) : canvas :=
  let cv := log (ClearRect x y w h) cv in
  match x, y, w, h with
  | Fin x, Fin y, Fin w, Fin h =>
      if covers x y w h cv then with_bitmap [] cv
      else if Qeq_bool w 0 || Qeq_bool h 0 then cv
      else with_bitmap (Erased x y w h :: bitmap cv) cv
  | _, _, _, _ => cv
  end.

(** [ctx.drawImage(img, sx, sy, sw, sh, dx, dy, dw, dh)]: returns at once
    with a non-finite argument; throws on a broken image; paints nothing
    for an image that is not available, has a zero natural dimension, or
    with an empty source rectangle; paints otherwise. *)
Definition drawImage (h : store) (img : ref)
    (sx sy sw sh dx dy dw dh : number) (cv : canvas) : outcome canvas :=
  let cv := log (DrawImage img sx sy sw sh dx dy dw dh) cv in
  match sx, sy, sw, sh, dx, dy, dw, dh with
  | Fin sx, Fin sy, Fin sw, Fin sh, Fin dx, Fin dy, Fin dw, Fin dh =>
      match request (deref h img) with
      | Broken => Thrown "InvalidStateError" cv
      | Unavailable => Returned cv
      | Available nw nh =>
          if (nw =? 0)%N || (nh =? 0)%N then Returned cv
          else if Qeq_bool sw 0 || Qeq_bool sh 0 then Returned cv
          else Returned
                 (with_bitmap (Drawn img sx sy sw sh dx dy dw dh :: bitmap cv)
                    cv)
      end
  | _, _, _, _, _, _, _, _ => Returned cv
  end.

End Canvas.

Import Canvas.

(** ** The canvas rendering effect *)

Section Rendering.

(** What the effect closes over: the store of image elements, the
    published [images] of this React render and the [frameIndex] motion
    value. *)
Variable heap : store.
Variable images : array.

(** [render(index)]. *)
Definition render (index : Q) (cv : canvas) : outcome canvas :=
  match array_get images (Math_round index) with
  | None => Returned cv
  | Some img =>
      let cv := clearRect (Fin 0) (Fin 0)
                  (of_N (width cv)) (of_N (height cv)) cv in
      let img_w := of_N (img_width (deref heap img)) in
      let img_h := of_N (img_height (deref heap img)) in
      let hRatio := div (of_N (width cv)) img_w in
      let vRatio := div (of_N (height cv)) img_h in
      let ratio := max hRatio vRatio in
      let centerShift_x :=
        div (sub (of_N (width cv)) (mul img_w ratio)) (Fin 2) in
      let centerShift_y :=
        div (sub (of_N (height cv)) (mul img_h ratio)) (Fin 2) in
      let cv := set_imageSmoothingEnabled true cv in
      let cv := set_imageSmoothingQuality "high" cv in
      drawImage heap img (Fin 0) (Fin 0) img_w img_h
        centerShift_x centerShift_y (mul img_w ratio) (mul img_h ratio) cv
  end.

(** [handleResize()], with the window's inner size and the current value
    of [frameIndex]. *)
Definition handleResize (innerWidth innerHeight : N) (current : Q)
    (cv : canvas) : outcome canvas :=
  let cv := set_width innerWidth cv in
  let cv := set_height innerHeight cv in
  render current cv.

(** What running the effect leaves behind. *)
Record effect : Type := {
  resize_listener : bool;
  change_subscription : bool;
  surface : option canvas;
  uncaught : option string
}.

(** The body of the effect.  [canvasRef] is [canvasRef.current], [has_ctx]
    tells whether [getContext("2d")] yields a context. *)
Definition canvasEffect (canvasRef : option canvas) (has_ctx : bool)
    (innerWidth innerHeight : N) (current : Q) : effect :=
  let idle := {| resize_listener := false; change_subscription := false;
                 surface := canvasRef; uncaught := None |} in
  if (length images =? 0)%nat then idle
  else
    match canvasRef with
    | None => idle
    | Some cv =>
        if negb has_ctx then idle
        else
          match handleResize innerWidth innerHeight current cv with
          | Returned cv' =>
              {| resize_listener := true; change_subscription := true;
                 surface := Some cv'; uncaught := None |}
          | Thrown e cv' =>
              {| resize_listener := true; change_subscription := false;
                 surface := Some cv'; uncaught := Some e |}
          end
    end.

End Rendering.

(** ** The batched preloader *)

Module Loader.

Definition BATCH_SIZE : nat := 5.

(** The element made for index [i]: [new Image()] with [src] set to
    [imagePaths[i]], its load under way. *)
Definition requested (i : nat) : HTMLImageElement :=
  {| src := default "undefined"%string (imagePaths !! i);
     request := Unavailable |}.

(** One turn of [loadBatch]'s loop: create the element, start its load
    and store it in [loadedImages[i]] at once, whatever becomes of the
    load; the promise pushed is the one that the element's [onload] or
    [onerror] resolves, so it is known by the element. *)
Definition request_image (acc : store * array * list ref) (i : nat)
  : store * array * list ref :=
  let '(h, loadedImages, batchPromises) := acc in
  let '(img, h) := alloc h (requested i) in
  (h, array_set loadedImages i img, batchPromises ++ [img]).

(** The synchronous part of [loadBatch(startIndex)], up to the [await]. *)
Definition loadBatch (startIndex : nat) (h : store) (loadedImages : array)
  : store * array * list ref :=
  let endIndex := Nat.min (startIndex + BATCH_SIZE) (length imagePaths) in
  fold_left request_image (seq startIndex (endIndex - startIndex))
    (h, loadedImages, []).

(** Where [loadAllImages] stands: at the head of its loop with counter
    [i], suspended in [loadBatch(i)] on promises still pending, or done. *)
Inductive control : Type :=
| AtLoop (i : nat)
| Awaiting (i : nat) (pending : list ref)
| Finished.

Record state : Type := {
  heap : store;
  loadedImages : array;
  pc : control
}.

Definition init : state :=
  {| heap := []; loadedImages := []; pc := AtLoop 0 |}.

(** What can be observed of the loader: the call of [loadBatch], the load
    it starts for an index, the [load] and [error] events of the browser,
    and the calls of [setImages] and [setTimeout]. *)
Inductive event : Type :=
| LoadBatch (startIndex : nat)
| Request (i : nat) (img : ref)
| OnLoad (img : ref) (naturalWidth naturalHeight : N)
| OnError (img : ref)
| SetImages (snapshot : array)
| SetTimeout (ms : nat).

(** The browser settles the request of an element. *)
Definition settle (h : store) (img : ref) (r : loadState) : store :=
  alter (fun o => {| src := src o; request := r |}) img h.

(** The promise of [img] is resolved: it no longer holds up
    [Promise.all]. *)
Definition resolve (img : ref) (pending : list ref) : list ref :=
  filter (fun r => r ≠ img) pending.

(** The loads started by one call of [loadBatch], in index order. *)
Definition requests (startIndex : nat) (batchPromises : list ref)
  : list event :=
  zip_with Request (seq startIndex (length batchPromises)) batchPromises.

(** What follows the [await loadBatch(i)]: publish a copy, and after the
    first batch schedule the hiding of the loading screen. *)
Definition publish (i : nat) (loadedImages : array) : list event :=
  SetImages (spread loadedImages)
  :: (if (i =? 0)%nat then [SetTimeout 800] else []).

(** One step of [loadAllImages]: enter the loop body and run
    [loadBatch(i)] up to its [await]; an element of the batch loads or
    fails, in any order, and resolves its promise; all promises resolved,
    publish and increment; or leave the loop. *)
Inductive step : state -> list event -> state -> Prop :=
| step_loadBatch i h arr h' arr' ps :
    (i < length imagePaths)%nat ->
    loadBatch i h arr = (h', arr', ps) ->
    step {| heap := h; loadedImages := arr; pc := AtLoop i |}
         (LoadBatch i :: requests i ps)
         {| heap := h'; loadedImages := arr'; pc := Awaiting i ps |}
| step_onload i h arr ps img nw nh :
    img ∈ ps ->
    step {| heap := h; loadedImages := arr; pc := Awaiting i ps |}
         [OnLoad img nw nh]
         {| heap := settle h img (Available nw nh); loadedImages := arr;
            pc := Awaiting i (resolve img ps) |}
| step_onerror i h arr ps img :
    img ∈ ps ->
    step {| heap := h; loadedImages := arr; pc := Awaiting i ps |}
         [OnError img]
         {| heap := settle h img Broken; loadedImages := arr;
            pc := Awaiting i (resolve img ps) |}
| step_publish i h arr :
    step {| heap := h; loadedImages := arr; pc := Awaiting i [] |}
         (publish i arr)
         {| heap := h; loadedImages := arr; pc := AtLoop (i + BATCH_SIZE) |}
| step_exit i h arr :
    ¬ (i < length imagePaths)%nat ->
    step {| heap := h; loadedImages := arr; pc := AtLoop i |}
         []
         {| heap := h; loadedImages := arr; pc := Finished |}.

(** Runs of the loader, with what they let observe. *)
Inductive run : state -> list event -> state -> Prop :=
| run_nil st : run st [] st
| run_cons st evs st' tr st'' :
    step st evs st' -> run st' tr st'' -> run st (evs ++ tr) st''.

(** *** A scheduler, to execute the loader

    [fate img] is how the load of element [img] ends; the elements of a
    batch settle in the order they were requested. *)
Section Schedule.

Variable fate : ref -> loadState.

(** The event by which the load of [img] ends. *)
Definition settle_event (img : ref) : event :=
  match fate img with
  | Available nw nh => OnLoad img nw nh
  | _ => OnError img
  end.

(** The state in which that event leaves the element. *)
Definition settled (img : ref) : loadState :=
  match fate img with
  | Available nw nh => Available nw nh
  | _ => Broken
  end.

(** The store once every element of [ps] has settled. *)
Definition settle_all (h : store) (ps : list ref) : store :=
  fold_left (fun h img => settle h img (settled img)) ps h.

(** One whole turn of the loop of [loadAllImages]. *)
Definition turn (i : nat) (h : store) (arr : array)
  : list event * state :=
  let '(h', arr', ps) := loadBatch i h arr in
  (LoadBatch i :: requests i ps ++ map settle_event ps ++ publish i arr',
   {| heap := settle_all h' ps; loadedImages := arr';
      pc := AtLoop (i + BATCH_SIZE) |}).

(** [loadAllImages] under the scheduler: at most [n] turns of its loop
    from [st], then the exit once the counter has passed the last path. *)
Fixpoint loadAllImages (n : nat) (st : state) : list event * state :=
  match n, pc st with
  | S n', AtLoop i =>
      if decide (i < length imagePaths)%nat then
        let '(evs, st') := turn i (heap st) (loadedImages st) in
        let '(tr, st'') := loadAllImages n' st' in
        (evs ++ tr, st'')
      else ([], {| heap := heap st; loadedImages := loadedImages st;
                   pc := Finished |})
  | _, _ => ([], st)
  end.

End Schedule.

(** The snapshots published along a trace, oldest first. *)
Definition snapshots (tr : list event) : list array :=
  omap (fun e => match e with SetImages s => Some s | _ => None end) tr.

(** The starting indices of the batches issued along a trace. *)
Definition batch_starts (tr : list event) : list nat :=
  omap (fun e => match e with LoadBatch i => Some i | _ => None end) tr.

(** *** The batches as the specification words them

    Batch [k] of 29: five indices from [5 * k] on, four for the last. *)
Definition batch (k : nat) : list nat :=
  seq (5 * k) (if (k <? 28)%nat then 5 else 4).

(** The array published after batch [k]: every index up to the end of
    that batch, each slot holding the element requested for it. *)
Definition snapshot (k : nat) : array :=
  Some <$> seq 0 (5 * k + length (batch k)).

(** The element an event settles, if it is a settlement. *)
Definition settlement (e : event) : option ref :=
  match e with
  | OnLoad img _ _ | OnError img => Some img
  | _ => None
  end.

(** [s] consists of settlements only, one for each element of [imgs], in
    any order. *)
Definition settles (imgs : list ref) (s : list event) : Prop :=
  Forall (fun e => is_Some (settlement e)) s /\ omap settlement s ≡ₚ imgs.

(** What batch [k] contributes to a trace: the call, its requests in
    index order, the settlements [s], the publication. *)
Definition batch_trace (k : nat) (s : list event) : list event :=
  LoadBatch (5 * k)
  :: zip_with Request (batch k) (batch k)
  ++ s
  ++ SetImages (snapshot k)
  :: (if (k =? 0)%nat then [SetTimeout 800] else []).

(** The elements whose load is in flight. *)
Definition pending (st : state) : list ref :=
  match pc st with Awaiting _ ps => ps | _ => [] end.

(** The invariant of the loader: slot [i] of [loadedImages] holds element
    [i] of the store, and there are no other slots; the store ends where
    the batches issued so far end; only elements of the batch awaited are
    pending, each once. *)
Definition inv (st : state) : Prop :=
  loadedImages st = Some <$> seq 0 (length (heap st))
  /\ match pc st with
     | AtLoop i => length (heap st) = Nat.min i 144
     | Awaiting i ps =>
         (i < 144)%nat
         /\ length (heap st) = Nat.min (i + BATCH_SIZE) 144
         /\ NoDup ps
         /\ (forall r, r ∈ ps -> (i <= r < length (heap st))%nat)
     | Finished => True
     end.

End Loader.

(** ** The page: loader, React state and canvas effect together *)

Module Page.

Section Page.

(** Whether [canvas.getContext("2d")] yields a context. *)
Variable has_ctx : bool.

Record state : Type := {
  loader : Loader.state;
  (** the React state [images] *)
  images : array;
  smoothProgress : Q;
  innerWidth : N;
  innerHeight : N;
  canvasRef : option canvas;
  (** the installed resize listener and change subscriber, each known
      by the [images] its closure captured *)
  resize_handler : option array;
  change_handler : option array;
  errors : list string
}.

Definition with_canvas (o : outcome canvas) (st : state) : state :=
  {| loader := loader st; images := images st;
     smoothProgress := smoothProgress st;
     innerWidth := innerWidth st; innerHeight := innerHeight st;
     canvasRef :=
       Some (match o with Returned cv => cv | Thrown _ cv => cv end);
     resize_handler := resize_handler st;
     change_handler := change_handler st;
     errors :=
       errors st ++ match o with Returned _ => [] | Thrown e _ => [e] end
  |}.

(** A commit in which [images] changed: the cleanup of the previous
    effect removes its listener and its subscription, then the effect
    body runs with the new [images]. *)
Definition run_effect (st : state) : state :=
  let e := canvasEffect (Loader.heap (loader st)) (images st)
             (canvasRef st) has_ctx (innerWidth st) (innerHeight st)
             (frameIndex (smoothProgress st)) in
  {| loader := loader st; images := images st;
     smoothProgress := smoothProgress st;
     innerWidth := innerWidth st; innerHeight := innerHeight st;
     canvasRef := surface e;
     resize_handler :=
       if resize_listener e then Some (images st) else None;
     change_handler :=
       if change_subscription e then Some (images st) else None;
     errors := errors st ++ option_list (uncaught e) |}.

(** [setImages(snapshot)]. *)
Definition setImages (snapshot : array) (st : state) : state :=
  run_effect
    {| loader := loader st; images := snapshot;
       smoothProgress := smoothProgress st;
       innerWidth := innerWidth st; innerHeight := innerHeight st;
       canvasRef := canvasRef st;
       resize_handler := resize_handler st;
       change_handler := change_handler st;
       errors := errors st |}.

(** The page takes over what a loader step did. *)
Definition commit (l : Loader.state) (evs : list Loader.event)
    (st : state) : state :=
  fold_left
    (fun st e =>
       match e with Loader.SetImages s => setImages s st | _ => st end)
    evs
    {| loader := l; images := images st;
       smoothProgress := smoothProgress st;
       innerWidth := innerWidth st; innerHeight := innerHeight st;
       canvasRef := canvasRef st;
       resize_handler := resize_handler st;
       change_handler := change_handler st;
       errors := errors st |}.

(** The smoothed progress moves to [p]; subscribers of [frameIndex] are
    told when its value changed. *)
Definition scroll (p : Q) (st : state) : state :=
  let st' :=
    {| loader := loader st; images := images st;
       smoothProgress := p;
       innerWidth := innerWidth st; innerHeight := innerHeight st;
       canvasRef := canvasRef st;
       resize_handler := resize_handler st;
       change_handler := change_handler st;
       errors := errors st |} in
  if Qeq_bool (frameIndex p) (frameIndex (smoothProgress st)) then st'
  else
    match change_handler st, canvasRef st with
    | Some imgs, Some cv =>
        with_canvas
          (render (Loader.heap (loader st)) imgs (frameIndex p) cv) st'
    | _, _ => st'
    end.

(** The window is resized to [w] by [h]. *)
Definition resize (w h : N) (st : state) : state :=
  let st' :=
    {| loader := loader st; images := images st;
       smoothProgress := smoothProgress st;
       innerWidth := w; innerHeight := h;
       canvasRef := canvasRef st;
       resize_handler := resize_handler st;
       change_handler := change_handler st;
       errors := errors st |} in
  match resize_handler st, canvasRef st with
  | Some imgs, Some cv =>
      with_canvas
        (handleResize (Loader.heap (loader st)) imgs w h
           (frameIndex (smoothProgress st)) cv) st'
  | _, _ => st'
  end.

(** The page after its first commit: nothing loaded, the effect has run
    once on the empty [images]. *)
Definition mount (canvas0 : option canvas) (w h : N) (p : Q) : state :=
  run_effect
    {| loader := Loader.init; images := [];
       smoothProgress := p; innerWidth := w; innerHeight := h;
       canvasRef := canvas0;
       resize_handler := None; change_handler := None; errors := [] |}.

Inductive event : Type :=
| Load (evs : list Loader.event)
| Scroll (p : Q)
| Resize (w h : N).

Inductive step : state -> event -> state -> Prop :=
| step_load st evs l' :
    Loader.step (loader st) evs l' ->
    step st (Load evs) (commit l' evs st)
| step_scroll st p : step st (Scroll p) (scroll p st)
| step_resize st w h : step st (Resize w h) (resize w h st).

Inductive run : state -> list event -> state -> Prop :=
| run_nil st : run st [] st
| run_cons st e st' tr st'' :
    step st e st' -> run st' tr st'' -> run st (e :: tr) st''.

(** The loader events of a page trace. *)
Definition loader_trace (tr : list event) : list Loader.event :=
  concat (omap (fun e => match e with Load evs => Some evs | _ => None end)
            tr).

(** The invariant of the page mounted on [canvas0]: the loader's own;
    [images] is the beginning of [loadedImages]; and as long as [images]
    is empty nothing is installed and the canvas is as it was mounted. *)
Definition inv (canvas0 : option canvas) (st : state) : Prop :=
Loader.inv (loader st)
/\ (exists m : nat,
      (m <= length (Loader.heap (loader st)))%nat
      /\ images st = Some <$> seq 0 m)
/\ (images st = [] ->
    resize_handler st = None /\ change_handler st = None
    /\ canvasRef st = canvas0 /\ errors st = []).

End Page.

End Page.

(** ** A session in which one image fails

    The image of index 36, [00037.png], fails to load and every other one
    loads as a 1920 by 1080 picture; the loader has gone through its first
    eight batches, indices 0 to 39. *)
Definition fate_37_fails (img : ref) : loadState :=
  if (img =? 36)%nat then Broken else Available 1920 1080.

Definition session_trace : list Loader.event :=
  fst (Loader.loadAllImages fate_37_fails 8 Loader.init).

Definition session_state : Loader.state :=
  snd (Loader.loadAllImages fate_37_fails 8 Loader.init).

(** The canvas after a resize of the window to 800 by 600. *)
Definition surface_800x600 : canvas := set_height 600 (set_width 800 fresh).

(** ** Further observations on a trace of the loader *)

(** The indices for which a load was started, in the order of the trace. *)
Definition requested_indices (tr : list Loader.event) : list nat :=
  omap (fun e => match e with Loader.Request i _ => Some i | _ => None end)
    tr.

(** The elements that settled, in the order of the trace. *)
Definition settled_elements (tr : list Loader.event) : list ref :=
  omap Loader.settlement tr.

(** The delays of the timers set. *)
Definition timeouts (tr : list Loader.event) : list nat :=
  omap (fun e => match e with Loader.SetTimeout ms => Some ms | _ => None end)
    tr.

(** Is the loader still at its first batch? *)
Definition at_first_batch (st : Loader.state) : bool :=
  match Loader.pc st with
  | Loader.AtLoop i | Loader.Awaiting i _ => (i =? 0)%nat
  | Loader.Finished => false
  end.

(** What the store holds: the element at address [r] was requested from
    [imagePaths[r]]; it is unavailable exactly while its load is in flight;
    and once the loop is left the store holds an element for every path. *)
Definition store_inv (st : Loader.state) : Prop :=
  (forall r o,
      Loader.heap st !! r = Some o ->
      imagePaths !! r = Some (src o)
      /\ (request o = Unavailable <-> r ∈ Loader.pending st))
  /\ (Loader.pc st = Loader.Finished ->
      length (Loader.heap st) = length imagePaths).

(** The loader suspended in its first batch: five elements requested,
    none settled yet. *)
Definition first_batch_awaited : Loader.state :=
  {| Loader.heap := map Loader.requested (seq 0 5);
     Loader.loadedImages := Some <$> seq 0 5;
     Loader.pc := Loader.Awaiting 0 (seq 0 5) |}.

(** Every image loads, as a 1920 by 1080 picture. *)
Definition all_load (img : ref) : loadState := Available 1920 1080.

(** ** The two halves of [render]

    For an index that has an element, [render] first brings the canvas to
    [cleared], then calls [drawImage] with the whole image as source and
    the rectangle of [cover_rectangle] as destination. *)
Definition cleared (cv : canvas) : canvas :=
  set_imageSmoothingQuality "high"
    (set_imageSmoothingEnabled true
       (with_bitmap []
          (log (ClearRect (Fin 0) (Fin 0) (of_N (width cv))
                  (of_N (height cv))) cv))).

(** [centerShift_x], [centerShift_y], [img.width * ratio] and
    [img.height * ratio] for a surface of [w] by [h] and an image that
    reads [iw] by [ih]. *)
Definition cover_rectangle (w h iw ih : N)
  : number * number * number * number :=
  let ratio := max (div (of_N w) (of_N iw)) (div (of_N h) (of_N ih)) in
  (div (sub (of_N w) (mul (of_N iw) ratio)) (Fin 2),
   div (sub (of_N h) (mul (of_N ih) ratio)) (Fin 2),
   mul (of_N iw) ratio,
   mul (of_N ih) ratio).

(** ** The destination rectangle on the machine's binary64 numbers

    The computation of [cover_rectangle] once more, on primitive floats:
    it serves to check [round64] against the hardware. *)
Module Machine.

Definition of_N (n : N) : PrimFloat.float :=
  PrimFloat.of_uint63 (Uint63.of_Z (Z.of_N n)).

(** The rational that a finite float stands for. *)
Definition to_Q (f : PrimFloat.float) : option Q :=
  match FloatOps.Prim2SF f with
  | SpecFloat.S754_zero _ => Some 0
  | SpecFloat.S754_finite s m e =>
      Some ((if s then - 1 else 1) * inject_Z (Z.pos m) * pow2 e)
  | _ => None
  end.

(** [Math.max] of two floats neither of which is NaN. *)
Definition max (a b : PrimFloat.float) : PrimFloat.float :=
  if PrimFloat.ltb a b then b else a.

Definition cover_rectangle (w h iw ih : N)
  : PrimFloat.float * PrimFloat.float * PrimFloat.float * PrimFloat.float :=
  let ratio :=
    max (PrimFloat.div (of_N w) (of_N iw))
      (PrimFloat.div (of_N h) (of_N ih)) in
  (PrimFloat.div (PrimFloat.sub (of_N w) (PrimFloat.mul (of_N iw) ratio))
     (of_N 2),
   PrimFloat.div (PrimFloat.sub (of_N h) (PrimFloat.mul (of_N ih) ratio))
     (of_N 2),
   PrimFloat.mul (of_N iw) ratio,
   PrimFloat.mul (of_N ih) ratio).

End Machine.

(** Does the float stand for the number? *)
Definition same_number (f : PrimFloat.float) (a : number) : bool :=
  match Machine.to_Q f, a with
  | Some q, Fin q' => Qeq_bool q q'
  | _, _ => false
  end.

(** Do the two computations of the rectangle agree? *)
Definition machine_agrees (w h iw ih : N) : bool :=
  let '(fx, fy, fw, fh) := Machine.cover_rectangle w h iw ih in
  let '(dx, dy, dw, dh) := cover_rectangle w h iw ih in
  same_number fx dx && same_number fy dy
  && same_number fw dw && same_number fh dh.

(** Surface and image sizes to compare on: 2016 combinations. *)
Definition machine_sizes : list (N * N * N * N) :=
  w ← [1; 300; 320; 360; 1024; 1366; 1919; 3840]%N;
  h ← [1; 150; 301; 624; 740; 1080; 2160]%N;
  iw ← [1920; 1280; 1001; 640; 17; 3]%N;
  ih ← [1920; 1080; 720; 333; 7; 1]%N;
  [(w, h, iw, ih)].

(** ** The page, once it renders *)

(** How far the publications of the loader have come: the first index of
    the batch it is about to load or is loading, up to the number of
    paths. *)
Definition published_upto (st : Loader.state) : nat :=
  match Loader.pc st with
  | Loader.AtLoop i => Nat.min i (length imagePaths)
  | Loader.Awaiting i _ => i
  | Loader.Finished => length imagePaths
  end.

(** A canvas shows published frames only when it holds at most one layer
    and that layer is of an element that [images] has in its own slot and
    that is available. *)
Definition shows_published (h : store) (images : array) (cv : canvas)
  : Prop :=
  (length (bitmap cv) <= 1)%nat
  /\ (forall img sx sy sw sh dx dy dw dh,
        Drawn img sx sy sw sh dx dy dw dh ∈ bitmap cv ->
        images !! img = Some (Some img)
        /\ exists nw nh, request (deref h img) = Available nw nh).

(** A canvas is up to date when rendering the frame of the current
    progress once more would not change the picture. *)
Definition up_to_date (h : store) (images : array) (progress : Q)
    (cv : canvas) : Prop :=
  forall cv1,
    render h images (frameIndex progress) cv = Returned cv1 ->
    bitmap cv1 = bitmap cv.

(** The page with a context and a mounted canvas is in sync when no
    exception has escaped and, once [images] is not empty: both handlers
    are installed and close over the current [images]; the canvas has the
    size of the window, shows published frames only and is up to date. *)
Definition in_sync (st : Page.state) : Prop :=
  Page.errors st = []
  /\ (Page.images st ≠ [] ->
      Page.resize_handler st = Some (Page.images st)
      /\ Page.change_handler st = Some (Page.images st)
      /\ exists cv,
           Page.canvasRef st = Some cv
           /\ width cv = Page.innerWidth st
           /\ height cv = Page.innerHeight st
           /\ shows_published (Loader.heap (Page.loader st))
                (Page.images st) cv
           /\ up_to_date (Loader.heap (Page.loader st)) (Page.images st)
                (Page.smoothProgress st) cv).

(** ** The loading screen

    [isLoading] starts true; the timer set by the loader after its first
    batch runs [setIsLoading(false)] when it fires. *)
Module Loading.

Record state : Type := {
  loader : Loader.state;
  isLoading : bool;
  (** the timers set and not yet fired, by their delay *)
  timers : list nat
}.

Definition init : state :=
  {| loader := Loader.init; isLoading := true; timers := [] |}.

Inductive event : Type :=
| Load (evs : list Loader.event)
| Timeout (ms : nat).

(** A step of the loader, whose [setTimeout] calls add timers; or a timer
    fires and its callback sets [isLoading] to false. *)
Inductive step : state -> event -> state -> Prop :=
| step_load st evs l' :
    Loader.step (loader st) evs l' ->
    step st (Load evs)
         {| loader := l'; isLoading := isLoading st;
            timers := timers st ++ timeouts evs |}
| step_timeout st ms before after :
    timers st = before ++ ms :: after ->
    step st (Timeout ms)
         {| loader := loader st; isLoading := false;
            timers := before ++ after |}.

Inductive run : state -> list event -> state -> Prop :=
| run_nil st : run st [] st
| run_cons st e st' tr st'' :
    step st e st' -> run st' tr st'' -> run st (e :: tr) st''.

(** The loader events of a trace. *)
Definition loader_trace (tr : list event) : list Loader.event :=
  concat (omap (fun e => match e with Load evs => Some evs | _ => None end)
            tr).

(** The timers that fired along a trace. *)
Definition fired (tr : list event) : list nat :=
  omap (fun e => match e with Timeout ms => Some ms | _ => None end) tr.

End Loading.

(** ** The easing of the smooth scroll

    The [easing] option given to Lenis,
    [(t) => Math.min(1, 1.001 - Math.pow(2, -10 * t))], over the real
    numbers, since a power with a real exponent has no rational value. *)
Section Easing.

Import Reals.

Local Open Scope R_scope.

Definition easing (t : R) : R := Rmin 1 (1001 / 1000 - Rpower 2 (-10 * t)).

End Easing.

(** * Properties *)

(** ** Transforms *)

Section TransformFacts.

Import Transform.

Lemma clamp_range (lo hi v : Q) : lo <= hi -> lo <= clamp lo hi v <= hi.
Proof.
  intros Hle. unfold clamp.
  destruct (Qlt_le_dec hi v); [split; lra |].
  destruct (Qlt_le_dec v lo); split; lra.
Qed.

Lemma clamp_inside (lo hi v : Q) : lo <= v <= hi -> clamp lo hi v = v.
Proof.
  intros [H1 H2]. unfold clamp.
  destruct (Qlt_le_dec hi v) as [H | _]; [lra |].
  destruct (Qlt_le_dec v lo) as [H | _]; [lra | reflexivity].
Qed.

(** On a proper range, [progress] then [mixNumber] is the straight line
    through the two end points. *)
Lemma mix_progress (x0 x1 y0 y1 v : Q) :
  x0 < x1 ->
  mixNumber y0 y1 (progress x0 x1 v)
  == y0 + (y1 - y0) * ((v - x0) / (x1 - x0)).
Proof.
  intros Hlt. unfold mixNumber, progress.
  destruct (Qeq_dec (x1 - x0) 0) as [E | _]; [lra | reflexivity].
Qed.

End TransformFacts.

Lemma frameIndex_linear (p : Q) : 0 <= p <= 1 -> frameIndex p == p * 143.
Proof.
  intros Hp. unfold frameIndex, Transform.useTransform. simpl.
  rewrite mix_progress by lra.
  rewrite clamp_inside by exact Hp. field.
Qed.

Lemma frameIndex_clamped (p : Q) :
  frameIndex p == Transform.clamp 0 1 p * 143.
Proof.
  unfold frameIndex, Transform.useTransform. simpl.
  rewrite mix_progress by lra. field.
Qed.

Lemma Qfloor_half (z : Z) : Qfloor (inject_Z z + (1 # 2)) = z.
Proof.
  unfold Qfloor, Qplus, inject_Z. simpl.
  rewrite Z.mul_1_r. symmetry. apply (Z.div_unique _ _ _ 1); lia.
Qed.

Lemma Math_round_bounds (x : Q) (lo hi : Z) :
  inject_Z lo <= x <= inject_Z hi -> (lo <= Math_round x <= hi)%Z.
Proof.
  intros [Hlo Hhi]. unfold Math_round. split.
  - rewrite <- (Qfloor_Z lo). apply Qfloor_resp_le. lra.
  - rewrite <- (Qfloor_half hi). apply Qfloor_resp_le. lra.
Qed.

Lemma Math_round_comp (x y : Q) : x == y -> Math_round x = Math_round y.
Proof. intros E. unfold Math_round. now rewrite E. Qed.

(** Replace every division by a constant with a multiplication by its
    inverse, which linear arithmetic understands. *)
Ltac q_consts :=
  repeat match goal with
    | |- context [?a / ?c] =>
        let k := eval vm_compute in (Qred (/ c)) in
        setoid_replace (a / c) with (a * k) using relation Qeq
          by (unfold Qdiv; apply Qmult_comp;
              [reflexivity | vm_compute; reflexivity])
    end.

(** Unfold a transform down to comparisons of rationals and decide them. *)
Ltac transform_cases :=
  unfold text1Opacity, text2Opacity, text3Opacity, text1Y, text2Y, text3Y,
    frameIndex, line, Transform.useTransform, Transform.clamp; simpl;
  unfold Transform.mixNumber, Transform.progress;
  repeat match goal with
    | |- context [Qlt_le_dec ?a ?b] => destruct (Qlt_le_dec a b)
    | |- context [Qeq_dec ?a ?b] => destruct (Qeq_dec a b)
    end;
  q_consts; lra.

(** C1. For progress in [0,1] the frame looked up by [render] is
    [round(p * (N - 1))] with N = 144; for every progress value, overshoot
    below 0 or above 1 included, it lies in [0, 143]; progress 0 selects
    frame 0 and progress 1 selects frame 143. *)
Theorem frame_index_selection (p : Q) :
  (0 <= p <= 1 -> selectedFrame p = Math_round (p * (144 - 1)))
  /\ (0 <= selectedFrame p <= 143)%Z
  /\ selectedFrame 0 = 0%Z
  /\ selectedFrame 1 = 143%Z.
Proof.
  split; [| split; [| split; reflexivity]].
  - intros Hp. unfold selectedFrame. apply Math_round_comp.
    rewrite frameIndex_linear by exact Hp. field.
  - unfold selectedFrame. apply Math_round_bounds.
    rewrite frameIndex_clamped.
    pose proof (clamp_range 0 1 p) as Hc.
    assert (H01 : 0 <= 1) by lra. specialize (Hc H01).
    change (inject_Z 0) with 0. change (inject_Z 143) with 143. lra.
Qed.

Lemma frame_index_selection_witness :
  selectedFrame (1 # 2) = Math_round ((1 # 2) * (144 - 1)).
Proof.
  apply (proj1 (frame_index_selection (1 # 2))).
  split; unfold Qle; simpl; lia.
Defined.

(** C6. Each overlay opacity is 0 at progress 0 and at progress 1 and
    everywhere in [0,1] outside its window ([0,0.35], [0.35,0.7], [0.7,1]),
    and is exactly 1 throughout its hold range; at progress 0.5 block 2 has
    opacity 1 and blocks 1 and 3 have opacity 0. *)
Theorem overlay_opacity_windows (p : Q) :
  (text1Opacity 0 == 0 /\ text1Opacity 1 == 0
   /\ text2Opacity 0 == 0 /\ text2Opacity 1 == 0
   /\ text3Opacity 0 == 0 /\ text3Opacity 1 == 0)
  /\ (0 <= p <= 1 -> ~ (0 <= p <= 35 # 100) -> text1Opacity p == 0)
  /\ (0 <= p <= 1 -> ~ (35 # 100 <= p <= 70 # 100) -> text2Opacity p == 0)
  /\ (0 <= p <= 1 -> ~ (70 # 100 <= p <= 1) -> text3Opacity p == 0)
  /\ (15 # 100 <= p <= 25 # 100 -> text1Opacity p == 1)
  /\ (50 # 100 <= p <= 60 # 100 -> text2Opacity p == 1)
  /\ (85 # 100 <= p <= 95 # 100 -> text3Opacity p == 1)
  /\ (text1Opacity (1 # 2) == 0 /\ text2Opacity (1 # 2) == 1
      /\ text3Opacity (1 # 2) == 0).
Proof.
  repeat split; try reflexivity.
  - intros H Hout. assert (35 # 100 < p).
    { destruct (Qlt_le_dec (35 # 100) p); [assumption |].
      exfalso. apply Hout. lra. }
    transform_cases.
  - intros H Hout.
    assert (p < 35 # 100 \/ 70 # 100 < p) as [Hl | Hr].
    { destruct (Qlt_le_dec p (35 # 100)); [now left |].
      destruct (Qlt_le_dec (70 # 100) p); [now right |].
      exfalso. apply Hout. lra. }
    + transform_cases.
    + transform_cases.
  - intros H Hout. assert (p < 70 # 100).
    { destruct (Qlt_le_dec p (70 # 100)); [assumption |].
      exfalso. apply Hout. lra. }
    transform_cases.
  - intros H. transform_cases.
  - intros H. transform_cases.
  - intros H. transform_cases.
Qed.

Lemma overlay_opacity_windows_witness :
  text1Opacity (20 # 100) == 1 /\ text2Opacity (90 # 100) == 0.
Proof.
  pose proof (overlay_opacity_windows (20 # 100))
    as (_ & _ & _ & _ & Hhold & _).
  pose proof (overlay_opacity_windows (90 # 100))
    as (_ & _ & Hout & _).
  split.
  - apply Hhold. split; unfold Qle; simpl; lia.
  - apply Hout.
    + split; unfold Qle; simpl; lia.
    + intros [_ Hle]. revert Hle. unfold Qle. simpl. lia.
Defined.

(** C8. Each overlay offset is +50 where its window's fade-in starts, 0 at
    its hold point and -50 where its fade-out ends, and runs along straight
    lines in between. *)
Theorem overlay_offset_arc (p : Q) :
  (text1Y 0 == 50 /\ text1Y (15 # 100) == 0 /\ text1Y (35 # 100) == -50)
  /\ (text2Y (35 # 100) == 50 /\ text2Y (50 # 100) == 0
      /\ text2Y (70 # 100) == -50)
  /\ (text3Y (70 # 100) == 50 /\ text3Y (85 # 100) == 0 /\ text3Y 1 == -50)
  /\ (0 <= p <= 15 # 100 -> text1Y p == line 0 50 (15 # 100) 0 p)
  /\ (15 # 100 <= p <= 35 # 100 ->
      text1Y p == line (15 # 100) 0 (35 # 100) (-50) p)
  /\ (35 # 100 <= p <= 50 # 100 ->
      text2Y p == line (35 # 100) 50 (50 # 100) 0 p)
  /\ (50 # 100 <= p <= 70 # 100 ->
      text2Y p == line (50 # 100) 0 (70 # 100) (-50) p)
  /\ (70 # 100 <= p <= 85 # 100 ->
      text3Y p == line (70 # 100) 50 (85 # 100) 0 p)
  /\ (85 # 100 <= p <= 1 -> text3Y p == line (85 # 100) 0 1 (-50) p).
Proof.
  repeat split; try reflexivity; intros H; transform_cases.
Qed.

Lemma overlay_offset_arc_witness :
  text1Y (10 # 100) == line 0 50 (15 # 100) 0 (10 # 100)
  /\ text3Y (90 # 100) == line (85 # 100) 0 1 (-50) (90 # 100).
Proof.
  pose proof (overlay_offset_arc (10 # 100)) as (_ & _ & _ & H1 & _).
  pose proof (overlay_offset_arc (90 # 100))
    as (_ & _ & _ & _ & _ & _ & _ & _ & H3).
  split.
  - apply H1. split; unfold Qle; simpl; lia.
  - apply H3. split; unfold Qle; simpl; lia.
Defined.

(** ** The path table *)

Lemma imagePaths_numbered : imagePaths = map numbered_path (seq 0 144).
Proof. vm_compute. reflexivity. Qed.

(** C9. The path list has exactly 144 entries; entry [i] is the base
    prefix, then [i + 1] as a zero-padded five-digit number, then the
    extension, so the entries run from [00001.png] to [00144.png]. *)
Theorem imagePaths_pattern :
  length imagePaths = 144%nat
  /\ (forall i : nat, (i < 144)%nat ->
        imagePaths !! i = Some (numbered_path i))
  /\ imagePaths !! 0%nat = Some "/headphone-seqs/00001.png"%string
  /\ imagePaths !! 143%nat = Some "/headphone-seqs/00144.png"%string.
Proof.
  split; [reflexivity |]. split; [| split; reflexivity].
  intros i Hi. rewrite imagePaths_numbered.
  rewrite list_lookup_fmap, lookup_seq_lt by exact Hi. reflexivity.
Qed.

Lemma imagePaths_pattern_witness :
  imagePaths !! 36%nat = Some "/headphone-seqs/00037.png"%string.
Proof.
  apply (proj1 (proj2 imagePaths_pattern) 36%nat). lia.
Defined.

(** ** Rendering *)

Lemma N2Q_pos (n : N) : (0 < n)%N -> 0 < N2Q n.
Proof.
  intros H. unfold N2Q. change 0 with (inject_Z 0).
  rewrite <- Zlt_Qlt. lia.
Qed.

Lemma N2Q_zero (n : N) : N2Q n == 0 -> n = 0%N.
Proof.
  unfold N2Q. change 0 with (inject_Z 0). rewrite inject_Z_injective. lia.
Qed.

Lemma covers_whole (cv : canvas) :
  covers 0 0 (N2Q (width cv)) (N2Q (height cv)) cv = true.
Proof.
  unfold covers. rewrite !andb_true_iff, !Qle_bool_iff.
  repeat split; lra.
Qed.

(** The clear at the head of [render] wipes the whole bitmap. *)
Lemma clearRect_whole (cv : canvas) :
  clearRect (Fin 0) (Fin 0) (of_N (width cv)) (of_N (height cv)) cv
  = with_bitmap []
      (log (ClearRect (Fin 0) (Fin 0) (of_N (width cv)) (of_N (height cv)))
         cv).
Proof.
  unfold clearRect, of_N.
  change (covers 0 0 (N2Q (width cv)) (N2Q (height cv))
            (log (ClearRect (Fin 0) (Fin 0) (Fin (N2Q (width cv)))
                    (Fin (N2Q (height cv)))) cv))
    with (covers 0 0 (N2Q (width cv)) (N2Q (height cv)) cv).
  now rewrite covers_whole.
Qed.

(** *** Rounding to binary64 *)

Section RoundingFacts.

Lemma pow2_pos (e : Z) : 0 < pow2 e.
Proof. apply Qpower_0_lt. reflexivity. Qed.

Lemma pow2_plus (a b : Z) : pow2 (a + b) == pow2 a * pow2 b.
Proof. apply Qpower_plus. discriminate. Qed.

Lemma pow2_Z (a : Z) : (0 <= a)%Z -> inject_Z (2 ^ a) == pow2 a.
Proof. intros Ha. unfold pow2. now rewrite Zpower_Qpower. Qed.

Lemma Qdiv_le_cross (A B N D : Q) :
  0 <= A -> A <= N -> 0 < D -> D <= B -> A / B <= N / D.
Proof.
  intros HA HAN HD HDB.
  assert (HB : 0 < B) by lra.
  apply Qle_shift_div_l; [exact HD |].
  assert (E : A / B * D == A * (D / B)) by (field; lra).
  rewrite E.
  assert (H1 : D / B <= 1) by (apply Qle_shift_div_r; lra).
  assert (H0 : 0 <= D / B) by (apply Qle_shift_div_l; lra).
  nra.
Qed.

Lemma Q_as_div (x : Q) : x == inject_Z (Qnum x) / inject_Z (Z.pos (Qden x)).
Proof. destruct x as [n d]. simpl. apply Qmake_Qdiv. Qed.

(** [ilog2] does not overshoot. *)
Lemma ilog2_le (x : Q) : 0 < x -> pow2 (ilog2 x) <= x.
Proof.
  intros Hx. unfold ilog2.
  set (a := Z.log2 (Qnum x)). set (b := Z.log2 (Z.pos (Qden x))).
  destruct (Qle_bool (pow2 (a - b)) x) eqn:E; [now apply Qle_bool_iff |].
  assert (Hn : (0 < Qnum x)%Z).
  { destruct x as [n d]. unfold Qlt in Hx. simpl in *. lia. }
  destruct (Z.log2_spec (Qnum x) Hn) as [Ha _]. fold a in Ha.
  destruct (Z.log2_spec (Z.pos (Qden x)) eq_refl) as [_ Hb]. fold b in Hb.
  assert (Ha0 : (0 <= a)%Z) by apply Z.log2_nonneg.
  assert (Hb0 : (0 <= b)%Z) by apply Z.log2_nonneg.
  assert (Ep : pow2 (a - b - 1)
               == inject_Z (2 ^ a) / inject_Z (2 ^ (b + 1))).
  { rewrite !pow2_Z by lia.
    replace (a - b - 1)%Z with (a - (b + 1))%Z by lia.
    apply Qpower_minus. discriminate. }
  rewrite Ep, (Q_as_div x) at 1.
  apply Qdiv_le_cross.
  - rewrite pow2_Z by lia. apply Qlt_le_weak, pow2_pos.
  - now rewrite <- Zle_Qle.
  - change 0 with (inject_Z 0). now rewrite <- Zlt_Qlt.
  - rewrite <- Zle_Qle. unfold Z.succ in Hb. lia.
Qed.

Lemma nearest_even_error (s : Q) :
  - (1 # 2) <= inject_Z (nearest_even s) - s <= 1 # 2.
Proof.
  unfold nearest_even.
  pose proof (Qfloor_le s) as Hlo. pose proof (Qlt_floor s) as Hhi.
  rewrite inject_Z_plus in Hhi. change (inject_Z 1) with 1 in Hhi.
  destruct (Qcompare_spec (s - inject_Z (Qfloor s)) (1 # 2)) as [E | E | E].
  - destruct (Z.even (Qfloor s)); rewrite ?inject_Z_plus;
      change (inject_Z 1) with 1; split; lra.
  - split; lra.
  - rewrite inject_Z_plus. change (inject_Z 1) with 1. split; lra.
Qed.

(** One rounding moves a positive number by a factor between [1 - u64]
    and [1 + u64]. *)
Lemma round_pos_bounds (x : Q) :
  0 < x -> x * (1 - u64) <= round_pos x <= x * (1 + u64).
Proof.
  intros Hx. unfold round_pos.
  set (e := (ilog2 x - 52)%Z).
  pose proof (pow2_pos e) as He.
  pose proof (nearest_even_error (x / pow2 e)) as Hn.
  set (n := inject_Z (nearest_even (x / pow2 e))) in *.
  assert (Hx52 : pow2 e * pow2 52 <= x).
  { rewrite <- pow2_plus.
    replace (e + 52)%Z with (ilog2 x) by (unfold e; lia).
    now apply ilog2_le. }
  assert (Herr : - (1 # 2) * pow2 e <= n * pow2 e - x <= (1 # 2) * pow2 e).
  { assert (E : n * pow2 e - x == (n - x / pow2 e) * pow2 e)
      by (field; lra).
    rewrite E. split; nra. }
  change (pow2 52) with (2 ^ 52) in Hx52.
  assert (E52 : 2 ^ 52 == 4503599627370496) by reflexivity.
  rewrite E52 in Hx52. unfold u64.
  split; lra.
Qed.

Lemma round64_bounds (x : Q) :
  0 < x -> x * (1 - u64) <= round64 x <= x * (1 + u64).
Proof.
  intros Hx. unfold round64.
  destruct (Qcompare_spec x 0) as [E | E | E]; try lra.
  now apply round_pos_bounds.
Qed.

(** The error of one rounding, whatever the sign. *)
Lemma round64_error (x : Q) : Qabs (round64 x - x) <= Qabs x * u64.
Proof.
  unfold round64. destruct (Qcompare_spec x 0) as [E | E | E].
  - rewrite E. vm_compute. discriminate.
  - pose proof (round_pos_bounds (- x)) as [H1 H2]; [lra |].
    rewrite (Qabs_neg x) by lra. apply Qabs_Qle_condition. unfold u64 in *.
    split; lra.
  - pose proof (round_pos_bounds x E) as [H1 H2].
    rewrite (Qabs_pos x) by lra. apply Qabs_Qle_condition. unfold u64 in *.
    split; lra.
Qed.

(** Half the rounded difference, as [render] computes an offset, against
    the difference itself. *)
Lemma centre_error (d : Q) :
  Qabs (2 * round64 (round64 d / 2) - d) <= 3 * u64 * Qabs d.
Proof.
  pose proof (round64_error d) as H1.
  pose proof (round64_error (round64 d / 2)) as H2.
  set (s := round64 d) in *. set (h := s / 2) in *.
  set (t := round64 h) in *.
  assert (E : h == s * (1 # 2)) by (unfold h; field).
  apply Qabs_Qle_condition in H1.
  pose proof (Qabs_nonneg d) as Hd0.
  pose proof (Qle_Qabs d) as Hd1.
  pose proof (Qle_Qabs (- d)) as Hd2. rewrite Qabs_opp in Hd2.
  assert (Hs : Qabs h <= Qabs d * (1 + u64) * (1 # 2)).
  { apply Qabs_Qle_condition. unfold u64 in *. split; lra. }
  apply Qabs_Qle_condition in H2.
  apply Qabs_Qle_condition. unfold u64 in *. split; lra.
Qed.

End RoundingFacts.

(** [render] on an index that has an element, in its two halves. *)
Lemma render_unfold (heap : list HTMLImageElement)
    (images : list (option nat)) (index : Q) (cv : canvas) (img : nat) :
  array_get images (Math_round index) = Some img ->
  render heap images index cv
  = let '(dx, dy, dw, dh) :=
      cover_rectangle (width cv) (height cv)
        (img_width (deref heap img)) (img_height (deref heap img)) in
    drawImage heap img (Fin 0) (Fin 0)
      (of_N (img_width (deref heap img)))
      (of_N (img_height (deref heap img))) dx dy dw dh (cleared cv).
Proof.
  intros Hget. unfold render. rewrite Hget, clearRect_whole. reflexivity.
Qed.

(** The destination rectangle for positive sizes.  The scale is the
    larger of the two rounded quotients; the scaled sizes are the rounded
    products and the offsets the rounded halves of the rounded
    differences.  Two roundings lie between a surface size and the scaled
    size, so the scaled size can fall short of the surface by that much and
    exceeds it by no more on the axis that gave the scale; the offsets are
    half the differences up to rounding. *)
Lemma cover_rectangle_fit (w h iw ih : N) :
  (0 < w)%N -> (0 < h)%N -> (0 < iw)%N -> (0 < ih)%N ->
  exists scale dx dy dw dh : Q,
    cover_rectangle w h iw ih = (Fin dx, Fin dy, Fin dw, Fin dh)
    /\ scale
       == Qmax (round64 (N2Q w / N2Q iw)) (round64 (N2Q h / N2Q ih))
    /\ dw = round64 (N2Q iw * scale) /\ dh = round64 (N2Q ih * scale)
    /\ dx = round64 (round64 (N2Q w - dw) / 2)
    /\ dy = round64 (round64 (N2Q h - dh) / 2)
    /\ N2Q w * ((1 - u64) * (1 - u64)) <= dw
    /\ N2Q h * ((1 - u64) * (1 - u64)) <= dh
    /\ (dw <= N2Q w * ((1 + u64) * (1 + u64))
        \/ dh <= N2Q h * ((1 + u64) * (1 + u64)))
    /\ Qabs (2 * dx - (N2Q w - dw)) <= 3 * u64 * Qabs (N2Q w - dw)
    /\ Qabs (2 * dy - (N2Q h - dh)) <= 3 * u64 * Qabs (N2Q h - dh).
Proof.
  intros Hw%N2Q_pos Hh%N2Q_pos Hiw%N2Q_pos Hih%N2Q_pos.
  set (W := N2Q w) in *. set (H := N2Q h) in *.
  set (IW := N2Q iw) in *. set (IH := N2Q ih) in *.
  assert (Hqw : 0 < W / IW) by (apply Qlt_shift_div_l; lra).
  assert (Hqh : 0 < H / IH) by (apply Qlt_shift_div_l; lra).
  pose proof (round64_bounds _ Hqw) as [Hw1 Hw2].
  pose proof (round64_bounds _ Hqh) as [Hh1 Hh2].
  set (hr := round64 (W / IW)) in *. set (vr := round64 (H / IH)) in *.
  assert (Ew : IW * (W / IW) == W) by (field; lra).
  assert (Eh : IH * (H / IH) == H) by (field; lra).
  assert (Hscaled : forall a q r : Q,
    0 < a -> q * (1 - u64) <= r -> r <= q * (1 + u64) ->
    a * q * (1 - u64) <= a * r <= a * q * (1 + u64)).
  { intros a q r Ha Hr1 Hr2.
    apply (Qmult_le_l _ _ a Ha) in Hr1, Hr2. split; lra. }
  pose proof (Hscaled IW _ hr Hiw Hw1 Hw2) as Hhr. rewrite Ew in Hhr.
  pose proof (Hscaled IH _ vr Hih Hh1 Hh2) as Hvr. rewrite Eh in Hvr.
  assert (Hfit : forall scale : Q,
    hr <= scale -> vr <= scale -> scale == hr \/ scale == vr ->
    scale == Qmax hr vr
    /\ W * ((1 - u64) * (1 - u64)) <= round64 (IW * scale)
    /\ H * ((1 - u64) * (1 - u64)) <= round64 (IH * scale)
    /\ (round64 (IW * scale) <= W * ((1 + u64) * (1 + u64))
        \/ round64 (IH * scale) <= H * ((1 + u64) * (1 + u64)))).
  { intros scale Hs1 Hs2 Hs.
    assert (Hpos : 0 < scale) by (unfold u64 in *; nra).
    assert (Hpw : 0 < IW * scale) by nra.
    assert (Hph : 0 < IH * scale) by nra.
    pose proof (round64_bounds _ Hpw) as [Hdw1 Hdw2].
    pose proof (round64_bounds _ Hph) as [Hdh1 Hdh2].
    assert (Hcw : W * (1 - u64) <= IW * scale) by nra.
    assert (Hch : H * (1 - u64) <= IH * scale) by nra.
    split; [| split; [| split]].
    - destruct Hs as [E | E]; rewrite E.
      + symmetry. apply Q.max_l. lra.
      + symmetry. apply Q.max_r. lra.
    - unfold u64 in *. lra.
    - unfold u64 in *. lra.
    - destruct Hs as [E | E]; [left | right].
      + assert (Hup : IW * scale <= W * (1 + u64)) by (rewrite E; lra).
        unfold u64 in *. lra.
      + assert (Hup : IH * scale <= H * (1 + u64)) by (rewrite E; lra).
        unfold u64 in *. lra. }
  assert (Hmax : exists scale,
    max (div (Fin W) (Fin IW)) (div (Fin H) (Fin IH)) = Fin scale
    /\ hr <= scale /\ vr <= scale /\ (scale == hr \/ scale == vr)).
  { unfold div.
    destruct (Qeq_dec IW 0) as [E | _]; [lra |].
    destruct (Qeq_dec IH 0) as [E | _]; [lra |].
    fold hr vr. unfold max.
    destruct (Qlt_le_dec hr vr) as [Hlt | Hle].
    - exists vr. split; [reflexivity |].
      split; [lra |]. split; [lra | now right].
    - exists hr. split; [reflexivity |].
      split; [lra |]. split; [lra | now left]. }
  destruct Hmax as (scale & Hmax & Hs1 & Hs2 & Hs).
  destruct (Hfit scale Hs1 Hs2 Hs) as (Hsc & Hc1 & Hc2 & Hc3).
  unfold cover_rectangle, of_N. fold W H IW IH. rewrite Hmax.
  cbn [mul sub div].
  destruct (Qeq_dec 2 0) as [E | _]; [discriminate E |].
  exists scale. do 4 eexists. split; [reflexivity |].
  split; [exact Hsc |]. do 4 (split; [reflexivity |]).
  split; [exact Hc1 |]. split; [exact Hc2 |]. split; [exact Hc3 |].
  split; apply centre_error.
Qed.

(** [render] on a loaded frame of positive size, on a surface of positive
    size: one clear of the whole surface, then the frame painted alone into
    the cover rectangle. *)
Lemma render_paints (heap : list HTMLImageElement)
    (images : list (option nat)) (index : Q) (cv : canvas)
    (img : nat) (iw ih : N) :
  array_get images (Math_round index) = Some img ->
  request (deref heap img) = Available iw ih ->
  (0 < width cv)%N -> (0 < height cv)%N -> (0 < iw)%N -> (0 < ih)%N ->
  exists (dx dy dw dh : Q) (cv' : canvas),
    render heap images index cv = Returned cv'
    /\ cover_rectangle (width cv) (height cv) iw ih
       = (Fin dx, Fin dy, Fin dw, Fin dh)
    /\ bitmap cv' = [Drawn img 0 0 (N2Q iw) (N2Q ih) dx dy dw dh]
    /\ ops cv'
       = ops cv
         ++ [ClearRect (Fin 0) (Fin 0) (of_N (width cv)) (of_N (height cv));
             SetImageSmoothingEnabled true;
             SetImageSmoothingQuality "high";
             DrawImage img (Fin 0) (Fin 0) (of_N iw) (of_N ih)
               (Fin dx) (Fin dy) (Fin dw) (Fin dh)].
Proof.
  intros Hget Hreq Hw Hh Hiw Hih.
  destruct (cover_rectangle_fit (width cv) (height cv) iw ih
              Hw Hh Hiw Hih) as (scale & dx & dy & dw & dh & Hcover & _).
  exists dx, dy, dw, dh.
  rewrite (render_unfold heap images index cv img Hget).
  unfold img_width, img_height. rewrite Hreq.
  change (width (cleared cv)) with (width cv) in *.
  rewrite Hcover.
  unfold drawImage, of_N. rewrite Hreq.
  assert (Eiw : (iw =? 0)%N = false) by (apply N.eqb_neq; lia).
  assert (Eih : (ih =? 0)%N = false) by (apply N.eqb_neq; lia).
  assert (Ew : Qeq_bool (N2Q iw) 0 = false).
  { apply not_true_is_false. intros E%Qeq_bool_iff%N2Q_zero. lia. }
  assert (Eh : Qeq_bool (N2Q ih) 0 = false).
  { apply not_true_is_false. intros E%Qeq_bool_iff%N2Q_zero. lia. }
  rewrite Eiw, Eih, Ew, Eh. cbn [orb].
  eexists. split; [reflexivity |]. split; [reflexivity |].
  split; [reflexivity |].
  unfold cleared.
  cbn [ops bitmap with_bitmap log set_imageSmoothingEnabled
         set_imageSmoothingQuality].
  rewrite <- !app_assoc. reflexivity.
Qed.

(** C4, as the code has it. With positive surface and image sizes,
    rendering a loaded frame first clears the previous frame and then
    paints the image scaled uniformly by [max(w/iw, h/ih)], everything
    computed in binary64.  The scaled size covers the surface on both axes
    up to two roundings, a relative [2 ^ -52], and on one axis exceeds the
    surface by no more than that; each offset is half the difference
    between surface and scaled size up to rounding, so the image is centred
    to that precision.  Neither the covering nor the equality on one axis
    is exact. *)
Theorem render_cover_fit (heap : store) (images : array) (index : Q)
    (cv : canvas) (img : ref) (iw ih : N) :
  array_get images (Math_round index) = Some img ->
  request (deref heap img) = Available iw ih ->
  (0 < width cv)%N -> (0 < height cv)%N -> (0 < iw)%N -> (0 < ih)%N ->
  exists (scale dx dy dw dh : Q) (cv' : canvas),
    render heap images index cv = Returned cv'
    /\ ops cv'
       = ops cv
         ++ [ClearRect (Fin 0) (Fin 0) (of_N (width cv)) (of_N (height cv));
             SetImageSmoothingEnabled true;
             SetImageSmoothingQuality "high";
             DrawImage img (Fin 0) (Fin 0) (of_N iw) (of_N ih)
               (Fin dx) (Fin dy) (Fin dw) (Fin dh)]
    /\ bitmap cv' = [Drawn img 0 0 (N2Q iw) (N2Q ih) dx dy dw dh]
    /\ scale
       == Qmax (round64 (N2Q (width cv) / N2Q iw))
            (round64 (N2Q (height cv) / N2Q ih))
    /\ dw = round64 (N2Q iw * scale) /\ dh = round64 (N2Q ih * scale)
    /\ dx = round64 (round64 (N2Q (width cv) - dw) / 2)
    /\ dy = round64 (round64 (N2Q (height cv) - dh) / 2)
    /\ N2Q (width cv) * ((1 - u64) * (1 - u64)) <= dw
    /\ N2Q (height cv) * ((1 - u64) * (1 - u64)) <= dh
    /\ (dw <= N2Q (width cv) * ((1 + u64) * (1 + u64))
        \/ dh <= N2Q (height cv) * ((1 + u64) * (1 + u64)))
    /\ Qabs (2 * dx - (N2Q (width cv) - dw))
       <= 3 * u64 * Qabs (N2Q (width cv) - dw)
    /\ Qabs (2 * dy - (N2Q (height cv) - dh))
       <= 3 * u64 * Qabs (N2Q (height cv) - dh).
Proof.
  intros Hget Hreq Hw Hh Hiw Hih.
  destruct (cover_rectangle_fit (width cv) (height cv) iw ih
              Hw Hh Hiw Hih)
    as (scale & dx & dy & dw & dh & Hcover & Hfit).
  destruct (render_paints heap images index cv img iw ih
              Hget Hreq Hw Hh Hiw Hih)
    as (dx' & dy' & dw' & dh' & cv' & Hr & Hcover' & Hbm & Hops).
  rewrite Hcover in Hcover'.
  injection Hcover' as <- <- <- <-.
  exists scale, dx, dy, dw, dh, cv'.
  split; [exact Hr |]. split; [exact Hops |]. split; [exact Hbm |].
  exact Hfit.
Qed.

Lemma render_cover_fit_witness :
  exists (scale dx dy dw dh : Q) (cv' : canvas),
    render [{| src := "/headphone-seqs/00001.png";
               request := Available 1920 1080 |}]
      [Some 0%nat] 0 (set_height 600 (set_width 800 fresh))
    = Returned cv'
    /\ bitmap cv' = [Drawn 0%nat 0 0 (N2Q 1920) (N2Q 1080) dx dy dw dh]
    /\ N2Q 800 * ((1 - u64) * (1 - u64)) <= dw
    /\ N2Q 600 * ((1 - u64) * (1 - u64)) <= dh
    /\ (dw <= N2Q 800 * ((1 + u64) * (1 + u64))
        \/ dh <= N2Q 600 * ((1 + u64) * (1 + u64))).
Proof.
  destruct (render_cover_fit
              [{| src := "/headphone-seqs/00001.png";
                  request := Available 1920 1080 |}]
              [Some 0%nat] 0 (set_height 600 (set_width 800 fresh))
              0%nat 1920 1080)
    as (scale & dx & dy & dw & dh & cv' & Hr & _ & Hb & _ & _ & _ & _ & _
        & H1 & H2 & H3 & _);
    [reflexivity | reflexivity | simpl; lia | simpl; lia | lia | lia |].
  exists scale, dx, dy, dw, dh, cv'. repeat split; assumption.
Defined.

(** C4 as stated does not hold.  On a surface of 320 by 624, a frame of
    1920 by 1080 is scaled by the rounded quotient 624/1080, and 1080
    times that quotient rounds to the binary64 number just below 624: the
    scaled height falls short of the surface, no axis is fitted exactly,
    and the vertical offset is positive instead of zero. *)
Lemma cover_fit_counterexample :
  exists (dx dy dw dh : Q) (cv' : canvas),
    render [{| src := "/headphone-seqs/00001.png";
               request := Available 1920 1080 |}]
      [Some 0%nat] 0 (set_height 624 (set_width 320 fresh))
    = Returned cv'
    /\ bitmap cv' = [Drawn 0%nat 0 0 (N2Q 1920) (N2Q 1080) dx dy dw dh]
    /\ dh == 5488762045857791 # 8796093022208
    /\ dh < N2Q 624
    /\ ~ (dw == N2Q 320 \/ dh == N2Q 624)
    /\ 0 < dy
    /\ machine_agrees 320 624 1920 1080 = true.
Proof.
  destruct (render_paints
              [{| src := "/headphone-seqs/00001.png";
                  request := Available 1920 1080 |}]
              [Some 0%nat] 0 (set_height 624 (set_width 320 fresh))
              0%nat 1920 1080)
    as (dx & dy & dw & dh & cv' & Hr & Hcover & Hbm & _);
    [reflexivity | reflexivity | simpl; lia | simpl; lia | lia | lia |].
  exists dx, dy, dw, dh, cv'. split; [exact Hr |]. split; [exact Hbm |].
  revert Hcover. vm_compute. intros [= <- <- <- <-].
  split; [reflexivity |]. split; [reflexivity |].
  split; [intros [E | E]; discriminate E |].
  split; [reflexivity | vm_compute; reflexivity].
Qed.

(** On each of the sizes compared, 320 by 624 with 1920 by 1080 among
    them, the machine's binary64 arithmetic gives the rectangle that the
    rounded rational arithmetic gives. *)
Lemma round64_agrees_with_machine :
  forallb (fun '(w, h, iw, ih) => machine_agrees w h iw ih) machine_sizes
  = true.
Proof. vm_compute. reflexivity. Qed.

(** C5. Rendering an index that has no image, with whatever else the set
    holds, returns at once: no clear, no paint, the canvas is as before. *)
Theorem render_hole_skips (heap : store) (images : array) (index : Q)
    (cv : canvas) :
  array_get images (Math_round index) = None ->
  render heap images index cv = Returned cv.
Proof. intros Hnone. unfold render. now rewrite Hnone. Qed.

Lemma render_hole_skips_witness :
  render [new_Image; new_Image] [Some 0%nat; None; Some 1%nat] 1
    (set_height 600 (set_width 800 fresh))
  = Returned (set_height 600 (set_width 800 fresh)).
Proof. apply render_hole_skips. reflexivity. Defined.

(** ** The loader *)

Section LoaderFacts.

Import Loader.

Lemma imagePaths_length : length imagePaths = 144%nat.
Proof. reflexivity. Qed.

Lemma array_set_end (arr : list (option nat)) (v : nat) :
  array_set arr (length arr) v = arr ++ [Some v].
Proof.
  unfold array_set. destruct (decide (length arr < length arr)%nat); [lia |].
  now rewrite Nat.sub_diag.
Qed.

(** The loop of [loadBatch], run over [k] consecutive indices from the
    end of the store and of the array, appends [k] elements to both. *)
Lemma request_images (k : nat) :
  forall (a : nat) (h : list HTMLImageElement) (arr : list (option nat))
         (ps : list nat),
    length h = a -> length arr = a ->
    fold_left request_image (seq a k) (h, arr, ps)
    = (h ++ map requested (seq a k), arr ++ (Some <$> seq a k),
       ps ++ seq a k).
Proof.
  induction k as [| k IH]; intros a h arr ps Hh Harr; simpl.
  - now rewrite !app_nil_r.
  - subst a. rewrite <- Harr. rewrite array_set_end.
    rewrite IH by (rewrite length_app; simpl; lia).
    rewrite <- !app_assoc. simpl. reflexivity.
Qed.

Lemma loadBatch_spec (i : nat) (h : list HTMLImageElement)
    (arr : list (option nat)) :
  length h = i -> length arr = i ->
  let k := (Nat.min (i + BATCH_SIZE) 144 - i)%nat in
  loadBatch i h arr
  = (h ++ map requested (seq i k), arr ++ (Some <$> seq i k), seq i k).
Proof.
  intros Hh Harr k. unfold loadBatch. rewrite imagePaths_length.
  now rewrite request_images.
Qed.

Lemma inv_init : inv init.
Proof. split; reflexivity. Qed.

Lemma length_settle (h : list HTMLImageElement) img r :
  length (settle h img r) = length h.
Proof. unfold settle. apply length_alter. Qed.

Lemma resolve_subseteq img (ps : list nat) r :
  r ∈ resolve img ps -> r ∈ ps /\ r ≠ img.
Proof. unfold resolve. rewrite list_elem_of_filter. tauto. Qed.

Lemma NoDup_resolve img (ps : list nat) : NoDup ps -> NoDup (resolve img ps).
Proof. apply NoDup_filter. Qed.

Lemma seq_app_end (n a b : nat) :
  seq n (a + b) = seq n a ++ seq (n + a) b.
Proof. apply seq_app. Qed.

Lemma inv_step st evs st' : inv st -> step st evs st' -> inv st'.
Proof.
  intros [Harr Hpc] Hstep. destruct Hstep; simpl in *.
  - assert (Hh : length h = i) by lia.
    assert (Ha : length arr = i)
      by (rewrite Harr, length_fmap, length_seq; lia).
    rewrite loadBatch_spec in H0 by assumption. simpl in H0.
    injection H0 as <- <- <-.
    unfold inv; simpl. rewrite length_app, length_map, length_seq.
    split; [| repeat split].
    + rewrite Harr, Hh, seq_app_end, fmap_app. reflexivity.
    + exact H.
    + unfold BATCH_SIZE in *. lia.
    + apply NoDup_seq.
    + apply elem_of_seq in H0. lia.
    + apply elem_of_seq in H0. unfold BATCH_SIZE in *. lia.
  - destruct Hpc as (Hi & Hlen & Hnd & Hps).
    unfold inv; simpl. rewrite length_settle.
    split; [exact Harr | repeat split; try assumption].
    + now apply NoDup_resolve.
    + apply resolve_subseteq in H0 as [H0 _]. apply Hps in H0. lia.
    + apply resolve_subseteq in H0 as [H0 _]. apply Hps in H0. lia.
  - destruct Hpc as (Hi & Hlen & Hnd & Hps).
    unfold inv; simpl. rewrite length_settle.
    split; [exact Harr | repeat split; try assumption].
    + now apply NoDup_resolve.
    + apply resolve_subseteq in H0 as [H0 _]. apply Hps in H0. lia.
    + apply resolve_subseteq in H0 as [H0 _]. apply Hps in H0. lia.
  - destruct Hpc as (Hi & Hlen & Hnd & Hps).
    unfold inv; simpl. split; [exact Harr |]. unfold BATCH_SIZE in *. lia.
  - unfold inv; simpl. split; [exact Harr | exact I].
Qed.

Lemma inv_run st tr st' : run st tr st' -> inv st -> inv st'.
Proof.
  induction 1 as [| st evs st' tr st'' Hstep _ IH]; [trivial |].
  intros Hinv. apply IH. eapply inv_step; eassumption.
Qed.

End LoaderFacts.

Section LoaderRuns.

Import Loader.

Lemma resolve_absent img (ps : list nat) : img ∉ ps -> resolve img ps = ps.
Proof.
  induction ps as [| x ps IH]; [reflexivity |].
  intros Hnot. apply not_elem_of_cons in Hnot as [Hne Hnot].
  unfold resolve in *. rewrite filter_cons.
  destruct (decide (x ≠ img)) as [_ | Hn]; [now rewrite IH |].
  exfalso. apply Hn. intros ->. now apply Hne.
Qed.

Lemma resolve_perm img (ps : list nat) :
  NoDup ps -> img ∈ ps -> ps ≡ₚ img :: resolve img ps.
Proof.
  induction ps as [| x ps IH]; intros Hnd Hin.
  - now apply elem_of_nil in Hin.
  - apply NoDup_cons in Hnd as [Hx Hnd].
    unfold resolve in *. rewrite filter_cons.
    destruct (decide (x ≠ img)) as [Hne | Heq].
    + apply elem_of_cons in Hin as [-> | Hin]; [congruence |].
      rewrite (IH Hnd Hin) at 1. apply Permutation_swap.
    + assert (x = img) as -> by (destruct (decide (x = img)); tauto).
      fold (resolve img ps). now rewrite resolve_absent.
Qed.

Lemma run_finished st tr fin : run st tr fin -> pc st = Finished -> tr = [].
Proof.
  intros Hrun Hpc. destruct Hrun as [| st evs st' tr st'' Hstep _];
    [reflexivity |].
  destruct Hstep; discriminate Hpc.
Qed.

(** From the [await] of a batch to the next turn of the loop: the
    pending elements settle, each once, in some order, and only then is
    the array published. *)
Lemma await_phase (n : nat) :
  forall i h arr ps tr fin,
    length ps = n -> NoDup ps ->
    run {| heap := h; loadedImages := arr; pc := Awaiting i ps |} tr fin ->
    pc fin = Finished ->
    exists s h' tr',
      tr = s ++ publish i arr ++ tr'
      /\ settles ps s
      /\ length h' = length h
      /\ run {| heap := h'; loadedImages := arr;
                pc := AtLoop (i + BATCH_SIZE) |} tr' fin.
Proof.
  induction n as [| n IH]; intros i h arr ps tr fin Hlen Hnd Hrun Hfin.
  - apply nil_length_inv in Hlen as ->.
    inversion Hrun as [| st evs st' tr' st'' Hstep Hrest]; subst;
      [discriminate Hfin |].
    inversion Hstep; subst;
      try match goal with H : _ ∈ [] |- _ => now apply elem_of_nil in H end.
    exists [], h, tr'. repeat split; try assumption; try constructor.
  - inversion Hrun as [| st evs st' tr' st'' Hstep Hrest]; subst;
      [discriminate Hfin |].
    inversion Hstep; subst; try discriminate Hlen.
    + pose proof (resolve_perm img ps Hnd ltac:(assumption)) as Hperm.
      destruct (IH i (settle h img (Available nw nh)) arr (resolve img ps)
                  tr' fin) as (s & h' & tr'' & -> & [Hs1 Hs2] & Hh & Hrun');
        try assumption.
      { apply Permutation_length in Hperm. simpl in Hperm. lia. }
      { now apply NoDup_resolve. }
      exists (OnLoad img nw nh :: s), h', tr''.
      repeat split; try assumption.
      * constructor; [simpl; eauto | assumption].
      * simpl. rewrite Hs2. now symmetry.
      * now rewrite Hh, length_settle.
    + pose proof (resolve_perm img ps Hnd ltac:(assumption)) as Hperm.
      destruct (IH i (settle h img Broken) arr (resolve img ps)
                  tr' fin) as (s & h' & tr'' & -> & [Hs1 Hs2] & Hh & Hrun');
        try assumption.
      { apply Permutation_length in Hperm. simpl in Hperm. lia. }
      { now apply NoDup_resolve. }
      exists (OnError img :: s), h', tr''.
      repeat split; try assumption.
      * constructor; [simpl; eauto | assumption].
      * simpl. rewrite Hs2. now symmetry.
      * now rewrite Hh, length_settle.
Qed.

Local Arguments Nat.mul : simpl never.

Lemma batch_length (k : nat) :
  (k < 29)%nat ->
  length (batch k) = (Nat.min (5 * k + BATCH_SIZE) 144 - 5 * k)%nat.
Proof.
  intros Hk. unfold batch, BATCH_SIZE. rewrite length_seq.
  destruct (k <? 28)%nat eqn:E;
    [apply Nat.ltb_lt in E | apply Nat.ltb_ge in E]; lia.
Qed.

(** A finished run from the head of the loop, [n] batches before the end,
    is the traces of those [n] batches one after the other. *)
Lemma loop_phase (n : nat) :
  forall k i st tr fin,
    (k + n = 29)%nat -> i = (5 * k)%nat ->
    pc st = AtLoop i -> inv st ->
    run st tr fin -> pc fin = Finished ->
    exists ss : list (list event),
      length ss = n
      /\ (forall j s, ss !! j = Some s -> settles (batch (k + j)) s)
      /\ tr = concat (imap (fun j => batch_trace (k + j)) ss).
Proof.
  induction n as [| n IH]; intros k i st tr fin Hk Hi Hpc Hinv Hrun Hfin.
  - exists []. split; [reflexivity |].
    split; [intros j s Hj; discriminate Hj |].
    inversion Hrun as [| st0 evs st' tr' st'' Hstep Hrest]; subst;
      [congruence |].
    inversion Hstep; subst; simpl in Hpc; try discriminate Hpc.
    + injection Hpc as ->. simpl in *. lia.
    + simpl. eapply run_finished; [eassumption | reflexivity].
  - inversion Hrun as [| st0 evs st' tr' st'' Hstep Hrest]; subst;
      [congruence |].
    pose proof (inv_step _ _ _ Hinv Hstep) as Hinv'.
    inversion Hstep; subst; simpl in Hpc; try discriminate Hpc;
      injection Hpc as ->.
    2: { exfalso. simpl in *. lia. }
    destruct Hinv as [Harr Hlen]. simpl in Harr, Hlen.
    assert (Hh : length h = (5 * k)%nat) by lia.
    assert (Ha : length arr = (5 * k)%nat)
      by (rewrite Harr, length_fmap, length_seq; lia).
    match goal with H : loadBatch _ _ _ = _ |- _ =>
      rewrite loadBatch_spec in H by assumption; cbv zeta in H;
      rewrite <- batch_length in H by lia;
      injection H as <- <- <-
    end.
    destruct Hinv' as [Harr' (_ & Hlen' & Hnd & _)]. simpl in Harr', Hlen'.
    destruct (await_phase _ _ _ _ _ _ _ eq_refl Hnd Hrest Hfin)
      as (s & h' & tr'' & -> & Hs & Hh' & Hrun').
    match type of Hrun' with run ?st2 _ _ =>
      assert (Hinv2 : inv st2)
        by (split; simpl; [rewrite Hh'; exact Harr' |
                           unfold BATCH_SIZE in *; lia]);
      destruct (IH (S k) (5 * k + BATCH_SIZE)%nat st2 tr'' fin
                  ltac:(lia) ltac:(unfold BATCH_SIZE; lia)
                  eq_refl Hinv2 Hrun' Hfin)
        as (ss & Hss & Hall & ->)
    end.
    assert (Hbatch : seq (5 * k) (length (batch k)) = batch k).
    { unfold batch. now rewrite length_seq. }
    exists (s :: ss). split; [simpl; now rewrite Hss |]. split.
    + intros [| j] s' Hj; simpl in Hj.
      * injection Hj as <-. rewrite Nat.add_0_r, <- Hbatch. exact Hs.
      * rewrite Nat.add_succ_r. now apply Hall.
    + assert (Htail : imap ((fun j => batch_trace (k + j)) ∘ S) ss
                      = imap (fun j => batch_trace (S k + j)) ss).
      { apply imap_ext. intros j x _. simpl. now rewrite Nat.add_succ_r. }
      rewrite imap_cons, Htail, Nat.add_0_r. cbn [concat].
      rewrite !app_assoc. f_equal. unfold batch_trace.
      rewrite <- !app_assoc. simpl. f_equal.
      unfold requests. rewrite length_seq, Hbatch. f_equal. f_equal.
      unfold publish, spread. rewrite map_id. simpl. f_equal.
      * f_equal. unfold snapshot. rewrite Hbatch in Harr'.
        rewrite Harr', length_app, length_map, Hh. reflexivity.
      * destruct k; reflexivity.
Qed.

(** The scheduler produces runs of the loader. *)
Lemma settle_all_run (fate : nat -> loadState) (ps : list nat) :
  forall i h arr,
    NoDup ps ->
    run {| heap := h; loadedImages := arr; pc := Awaiting i ps |}
        (map (settle_event fate) ps)
        {| heap := settle_all fate h ps; loadedImages := arr;
           pc := Awaiting i [] |}.
Proof.
  induction ps as [| img ps IH]; intros i h arr Hnd; [constructor |].
  apply NoDup_cons in Hnd as [Hnot Hnd].
  assert (Hres : resolve img (img :: ps) = ps).
  { unfold resolve. rewrite filter_cons.
    destruct (decide (img ≠ img)); [congruence |].
    now apply resolve_absent. }
  change (map (settle_event fate) (img :: ps))
    with ([settle_event fate img] ++ map (settle_event fate) ps).
  apply run_cons
    with (st' := {| heap := settle h img (settled fate img);
                    loadedImages := arr; pc := Awaiting i ps |}).
  - unfold settle_event, settled. rewrite <- Hres at 2.
    destruct (fate img); constructor; apply elem_of_cons; now left.
  - simpl. now apply IH.
Qed.

Lemma run_app st tr st' tr' st'' :
  run st tr st' -> run st' tr' st'' -> run st (tr ++ tr') st''.
Proof.
  induction 1 as [| st evs st1 tr st2 Hstep _ IH]; [trivial |].
  intros Hrun. rewrite <- app_assoc. econstructor; eauto.
Qed.

End LoaderRuns.

Section Scheduler.

Import Loader.

Variable fate : nat -> loadState.

(** One turn of the scheduler is a run of the loader. *)
Lemma turn_run (i : nat) (h : list HTMLImageElement)
    (arr : list (option nat)) :
  inv {| heap := h; loadedImages := arr; pc := AtLoop i |} ->
  (i < length imagePaths)%nat ->
  run {| heap := h; loadedImages := arr; pc := AtLoop i |}
      (fst (turn fate i h arr)) (snd (turn fate i h arr)).
Proof.
  intros Hinv Hi. unfold turn.
  destruct (loadBatch i h arr) as [[h' arr'] ps] eqn:Hload. simpl.
  pose proof (step_loadBatch i h arr h' arr' ps Hi Hload) as Hstep.
  pose proof (inv_step _ _ _ Hinv Hstep) as (_ & _ & _ & Hnd & _).
  change (LoadBatch i
          :: requests i ps ++ map (settle_event fate) ps ++ publish i arr')
    with ((LoadBatch i :: requests i ps)
          ++ map (settle_event fate) ps ++ publish i arr').
  eapply run_cons; [exact Hstep |].
  eapply run_app; [now apply settle_all_run |].
  rewrite <- (app_nil_r (publish i arr')).
  eapply run_cons; [apply step_publish | apply run_nil].
Qed.

Lemma loadAllImages_run (n : nat) :
  forall st,
    inv st ->
    run st (fst (loadAllImages fate n st)) (snd (loadAllImages fate n st)).
Proof.
  induction n as [| n IH]; intros st Hinv; [apply run_nil |].
  destruct st as [h arr [i | i ps |]]; simpl; try apply run_nil.
  destruct (decide _) as [Hi | Hi].
  - pose proof (turn_run i h arr Hinv Hi) as Hturn.
    destruct (turn fate i h arr) as [evs st'].
    specialize (IH st' (inv_run _ _ _ Hturn Hinv)).
    destruct (loadAllImages fate n st') as [tr st'']. simpl in *.
    eapply run_app; eassumption.
  - simpl. rewrite <- (app_nil_r []).
    eapply run_cons; [now apply step_exit | apply run_nil].
Qed.

(** Thirty turns are enough: the loader runs to its end whatever becomes
    of the individual loads. *)
Lemma loadAllImages_finishes : pc (snd (loadAllImages fate 30 init)) = Finished.
Proof. reflexivity. Qed.

End Scheduler.

Section BatchTraces.

Import Loader.

Lemma omap_requests {B} (f : event -> option B) (l1 l2 : list nat) :
  (forall i img, f (Request i img) = None) ->
  omap f (zip_with Request l1 l2) = [].
Proof.
  intros Hf. revert l2.
  induction l1 as [| a l1 IH]; intros [| b l2]; simpl; try reflexivity.
  now rewrite Hf, IH.
Qed.

Lemma omap_settlements {B} (f : event -> option B) (s : list event) :
  (forall e, is_Some (settlement e) -> f e = None) ->
  Forall (fun e => is_Some (settlement e)) s ->
  omap f s = [].
Proof.
  intros Hf. induction 1 as [| e s He _ IH]; simpl; [reflexivity |].
  rewrite (Hf e He). exact IH.
Qed.

Lemma batch_starts_batch_trace (k : nat) (imgs : list nat)
    (s : list event) :
  settles imgs s -> batch_starts (batch_trace k s) = [(5 * k)%nat].
Proof.
  intros [Hs _]. unfold batch_starts, batch_trace. simpl.
  rewrite !omap_app, omap_requests by reflexivity.
  rewrite (omap_settlements _ s) by
    (try exact Hs; intros [] [? H]; (reflexivity || discriminate H)).
  simpl. now destruct (k =? 0)%nat.
Qed.

Lemma snapshots_batch_trace (k : nat) (imgs : list nat) (s : list event) :
  settles imgs s -> snapshots (batch_trace k s) = [snapshot k].
Proof.
  intros [Hs _]. unfold snapshots, batch_trace. simpl.
  rewrite !omap_app, omap_requests by reflexivity.
  rewrite (omap_settlements _ s) by
    (try exact Hs; intros [] [? H]; (reflexivity || discriminate H)).
  simpl. now destruct (k =? 0)%nat.
Qed.

Lemma projections_of_batches (ss : list (list event)) :
  forall k0,
    (forall j s, ss !! j = Some s -> settles (batch (k0 + j)) s) ->
    batch_starts (concat (imap (fun j => batch_trace (k0 + j)) ss))
    = (fun j => 5 * j)%nat <$> seq k0 (length ss)
    /\ snapshots (concat (imap (fun j => batch_trace (k0 + j)) ss))
       = snapshot <$> seq k0 (length ss).
Proof.
  induction ss as [| s ss IH]; intros k0 Hall; [split; reflexivity |].
  assert (Htail : imap ((fun j => batch_trace (k0 + j)) ∘ S) ss
                  = imap (fun j => batch_trace (S k0 + j)) ss).
  { apply imap_ext. intros j x _. simpl. now rewrite Nat.add_succ_r. }
  rewrite imap_cons, Htail, Nat.add_0_r. cbn [concat].
  destruct (IH (S k0)) as [IH1 IH2].
  { intros j s' Hj. specialize (Hall (S j) s' Hj).
    now rewrite Nat.add_succ_r in Hall. }
  specialize (Hall 0%nat s eq_refl). rewrite Nat.add_0_r in Hall.
  unfold batch_starts, snapshots in *. rewrite !omap_app.
  fold (batch_starts (batch_trace k0 s)).
  fold (snapshots (batch_trace k0 s)).
  rewrite (batch_starts_batch_trace _ _ _ Hall).
  rewrite (snapshots_batch_trace _ _ _ Hall).
  rewrite IH1, IH2. split; reflexivity.
Qed.

End BatchTraces.

(** C3. A finished run of the loader over the 144 paths, five at a time, is
    29 batches one after the other: 28 of five indices and a last one of
    four.  Batch [k] is called, requests its indices in order, waits until
    every one of them has settled, and publishes its snapshot; only then
    does batch [k + 1] begin. *)
Theorem loader_batches (tr : list Loader.event) (fin : Loader.state) :
  Loader.run Loader.init tr fin ->
  Loader.pc fin = Loader.Finished ->
  exists ss : list (list Loader.event),
    length ss = 29%nat
    /\ (forall k s, ss !! k = Some s -> Loader.settles (Loader.batch k) s)
    /\ tr = concat (imap Loader.batch_trace ss)
    /\ Loader.batch_starts tr = (fun k => 5 * k)%nat <$> seq 0 29
    /\ length <$> (Loader.batch <$> seq 0 29) = replicate 28 5%nat ++ [4%nat]
    /\ Loader.snapshots tr = Loader.snapshot <$> seq 0 29.
Proof.
  intros Hrun Hfin.
  destruct (loop_phase 29 0 0 Loader.init tr fin
              eq_refl eq_refl eq_refl inv_init Hrun Hfin)
    as (ss & Hlen & Hall & Htr).
  destruct (projections_of_batches ss 0 Hall) as [Hstarts Hsnaps].
  rewrite <- Htr, Hlen in Hstarts, Hsnaps.
  exists ss. split; [exact Hlen |]. split; [exact Hall |].
  split; [exact Htr |]. split; [exact Hstarts |].
  split; [reflexivity | exact Hsnaps].
Qed.

Lemma loader_batches_witness :
  exists ss : list (list Loader.event),
    length ss = 29%nat
    /\ fst (Loader.loadAllImages (fun _ => Available 1920 1080) 30 Loader.init)
       = concat (imap Loader.batch_trace ss).
Proof.
  destruct (loader_batches
              (fst (Loader.loadAllImages (fun _ => Available 1920 1080) 30
                      Loader.init))
              (snd (Loader.loadAllImages (fun _ => Available 1920 1080) 30
                      Loader.init)))
    as (ss & Hlen & _ & Htr & _).
  - apply loadAllImages_run, inv_init.
  - reflexivity.
  - exists ss. split; assumption.
Defined.

(** ** Rendering an element that has no image *)

Lemma div_zero_not_finite (x : Q) :
  isFinite (div (Fin x) (of_N 0)) = false.
Proof.
  unfold div, of_N.
  destruct (Qeq_dec (N2Q 0) 0) as [_ | Hn]; [| now exfalso; apply Hn].
  destruct (Qeq_dec x 0); [reflexivity |].
  destruct (Qlt_le_dec 0 x); reflexivity.
Qed.

Lemma max_not_finite (a b : number) :
  isFinite a = false -> isFinite b = false -> isFinite (max a b) = false.
Proof. destruct a, b; simpl; intros; congruence. Qed.

Lemma mul_zero_not_finite (r : number) :
  isFinite r = false -> mul (of_N 0) r = NaN.
Proof.
  unfold mul, of_N. destruct r; simpl; intros H; try discriminate H;
    try reflexivity;
    (destruct (Qeq_dec (N2Q 0) 0) as [_ | Hn]; [reflexivity |];
     now exfalso; apply Hn).
Qed.

(** With an element whose width and height read 0, [render] clears the
    canvas and calls [drawImage] with NaN for the destination rectangle;
    the call paints nothing and returns. *)
Lemma render_without_image (heap : list HTMLImageElement)
    (images : list (option nat)) (index : Q) (cv : canvas) (img : nat) :
  array_get images (Math_round index) = Some img ->
  (forall nw nh, request (deref heap img) <> Available nw nh) ->
  exists cv',
    render heap images index cv = Returned cv'
    /\ ops cv'
       = ops cv
         ++ [ClearRect (Fin 0) (Fin 0) (of_N (width cv)) (of_N (height cv));
             SetImageSmoothingEnabled true;
             SetImageSmoothingQuality "high";
             DrawImage img (Fin 0) (Fin 0) (of_N 0) (of_N 0) NaN NaN NaN NaN]
    /\ bitmap cv' = []
    /\ width cv' = width cv /\ height cv' = height cv.
Proof.
  intros Hget Hreq. unfold render. rewrite Hget, clearRect_whole.
  assert (Hw : img_width (deref heap img) = 0%N).
  { unfold img_width. destruct (request (deref heap img)); try reflexivity.
    now exfalso; eapply Hreq. }
  assert (Hh : img_height (deref heap img) = 0%N).
  { unfold img_height. destruct (request (deref heap img)); try reflexivity.
    now exfalso; eapply Hreq. }
  rewrite Hw, Hh. cbn [width height with_bitmap log].
  rewrite (mul_zero_not_finite
             (max (div (of_N (width cv)) (of_N 0))
                (div (of_N (height cv)) (of_N 0))))
    by (apply max_not_finite; apply div_zero_not_finite).
  cbn [sub of_N div]. unfold drawImage.
  eexists. split; [reflexivity |].
  cbn [ops bitmap width height with_bitmap log set_imageSmoothingEnabled
         set_imageSmoothingQuality].
  rewrite <- !app_assoc. repeat split; reflexivity.
Qed.

(** [drawImage] throws only on a broken image with finite arguments, which
    [render] never passes: [render] always returns. *)
Lemma render_returns (heap : list HTMLImageElement)
    (images : list (option nat)) (index : Q) (cv : canvas) :
  exists cv', render heap images index cv = Returned cv'.
Proof.
  destruct (array_get images (Math_round index)) as [img |] eqn:Hget.
  - destruct (request (deref heap img)) as [| nw nh |] eqn:Hreq.
    + destruct (render_without_image heap images index cv img Hget)
        as (cv' & Hr & _); [congruence | eauto].
    + unfold render. rewrite Hget. unfold drawImage. rewrite Hreq.
      repeat match goal with
        | |- context [match ?x with _ => _ end] => destruct x
        end; eauto.
    + destruct (render_without_image heap images index cv img Hget)
        as (cv' & Hr & _); [congruence | eauto].
  - exists cv. unfold render. now rewrite Hget.
Qed.

(** ** What is published along any run *)

Section Published.

Import Loader.

Lemma step_heap_grows st evs st' :
  step st evs st' -> inv st -> (length (heap st) <= length (heap st'))%nat.
Proof.
  intros Hstep Hinv. pose proof (inv_step _ _ _ Hinv Hstep) as Hinv'.
  destruct Hinv as [_ Hpc], Hinv' as [_ Hpc'].
  destruct Hstep; simpl in *; rewrite ?length_settle; try lia.
Qed.

Lemma run_heap_grows st tr st' :
  run st tr st' -> inv st -> (length (heap st) <= length (heap st'))%nat.
Proof.
  induction 1 as [| st evs st' tr st'' Hstep _ IH]; intros Hinv; [lia |].
  pose proof (step_heap_grows _ _ _ Hstep Hinv).
  pose proof (inv_step _ _ _ Hinv Hstep) as Hinv'.
  specialize (IH Hinv'). lia.
Qed.

(** A step publishes nothing, or the whole of [loadedImages]. *)
Lemma step_snapshots st evs st' :
  step st evs st' -> inv st ->
  snapshots evs = []
  \/ snapshots evs = [Some <$> seq 0 (length (heap st))].
Proof.
  intros Hstep [Harr _]. destruct Hstep; simpl in *.
  - left. unfold snapshots, requests. simpl.
    now apply omap_requests.
  - now left.
  - now left.
  - right. unfold snapshots, publish, spread. simpl.
    rewrite map_id, Harr. now destruct (i =? 0)%nat.
  - now left.
Qed.

(** Every snapshot published along a run holds, for some [m] not below
    the size of the store at the start, the elements 0 to [m - 1], each in
    its own slot. *)
Lemma run_snapshots st tr st' :
  run st tr st' -> inv st ->
  forall s, s ∈ snapshots tr ->
    exists m, (length (heap st) <= m <= length (heap st'))%nat
              /\ s = Some <$> seq 0 m.
Proof.
  induction 1 as [| st evs st' tr st'' Hstep Hrun IH]; intros Hinv s Hs.
  - now apply elem_of_nil in Hs.
  - pose proof (inv_step _ _ _ Hinv Hstep) as Hinv'.
    pose proof (step_heap_grows _ _ _ Hstep Hinv) as Hgrow.
    pose proof (run_heap_grows _ _ _ Hrun Hinv') as Hgrow'.
    unfold snapshots in Hs. rewrite omap_app in Hs.
    apply elem_of_app in Hs as [Hs | Hs].
    + destruct (step_snapshots _ _ _ Hstep Hinv) as [E | E];
        unfold snapshots in E; rewrite E in Hs.
      * now apply elem_of_nil in Hs.
      * apply list_elem_of_singleton in Hs as ->.
        exists (length (heap st)). split; [lia | reflexivity].
    + destruct (IH Hinv' s Hs) as (m & Hm & ->).
      exists m. split; [lia | reflexivity].
Qed.

Lemma lookup_upto (m i : nat) (img : nat) :
  (Some <$> seq 0 m : list (option nat)) !! i = Some (Some img)
  <-> img = i /\ (i < m)%nat.
Proof.
  rewrite list_lookup_fmap. split.
  - intros H. destruct (seq 0 m !! i) as [x |] eqn:E; [| discriminate H].
    apply lookup_seq in E as [-> ?]. simpl in H. injection H as <-. lia.
  - intros [-> Hi]. now rewrite lookup_seq_lt.
Qed.

(** Of two snapshots published one after the other, the later holds
    every element of the earlier, in the same slot. *)
Lemma run_snapshots_grow st tr st' :
  run st tr st' -> inv st ->
  forall k s1 s2 i img,
    snapshots tr !! k = Some s1 -> snapshots tr !! S k = Some s2 ->
    s1 !! i = Some (Some img) -> s2 !! i = Some (Some img).
Proof.
  induction 1 as [| st evs st' tr st'' Hstep Hrun IH];
    intros Hinv k s1 s2 i img H1 H2 Hi; [discriminate H1 |].
  pose proof (inv_step _ _ _ Hinv Hstep) as Hinv'.
  unfold snapshots in H1, H2. rewrite omap_app in H1, H2.
  destruct (step_snapshots _ _ _ Hstep Hinv) as [E | E];
    unfold snapshots in E; rewrite E in H1, H2; simpl in H1, H2.
  - exact (IH Hinv' k s1 s2 i img H1 H2 Hi).
  - destruct k as [| k]; simpl in H1, H2.
    + injection H1 as <-.
      destruct (run_snapshots _ _ _ Hrun Hinv' s2) as (m & Hm & ->).
      { apply list_elem_of_lookup. exists 0%nat. exact H2. }
      pose proof (step_heap_grows _ _ _ Hstep Hinv).
      apply lookup_upto in Hi as [-> Hi]. apply lookup_upto.
      split; [easy | lia].
    + exact (IH Hinv' k s1 s2 i img H1 H2 Hi).
Qed.

(** An element that is not in flight is never touched again. *)
Lemma run_settled_stays st tr st' :
  run st tr st' -> inv st ->
  forall r, (r < length (heap st))%nat -> r ∉ pending st ->
    heap st' !! r = heap st !! r.
Proof.
  induction 1 as [| st evs st' tr st'' Hstep Hrun IH];
    intros Hinv r Hr Hnot; [reflexivity |].
  pose proof (inv_step _ _ _ Hinv Hstep) as Hinv'.
  pose proof (step_heap_grows _ _ _ Hstep Hinv) as Hgrow.
  rewrite IH; try assumption; try lia.
  - destruct Hinv as [Harr Hpc]. destruct Hstep; simpl in *; try reflexivity.
    + rewrite loadBatch_spec in H0
        by (rewrite ?Harr, ?length_fmap, ?length_seq; lia).
      injection H0 as <- _ _. now rewrite lookup_app_l.
    + unfold settle. apply list_lookup_alter_ne. intros ->. contradiction.
    + unfold settle. apply list_lookup_alter_ne. intros ->. contradiction.
  - destruct Hinv' as [_ Hpc']. unfold pending in *.
    destruct Hstep; simpl in *; try apply not_elem_of_nil.
    + intros Hin. destruct Hpc' as (_ & _ & _ & Hps). apply Hps in Hin.
      destruct Hinv as [_ Hlen]. simpl in Hlen. lia.
    + intros Hin%resolve_subseteq. tauto.
    + intros Hin%resolve_subseteq. tauto.
Qed.

End Published.

(** ** A failed load *)

Section Completion.

Import Loader.

Variable fate : nat -> loadState.

Lemma loadAllImages_reaches_end (n : nat) :
  forall i st,
    (144 <= i + 5 * n)%nat -> pc st = AtLoop i ->
    pc (snd (loadAllImages fate (S n) st)) = Finished.
Proof.
  induction n as [| n IH]; intros i [h arr c] Hi Hpc; simpl in Hpc; subst c.
  - simpl. destruct (decide _) as [Hlt | _]; [lia | reflexivity].
  - change (loadAllImages fate (S (S n)) {| heap := h; loadedImages := arr;
                                   pc := AtLoop i |})
      with (if decide (i < length imagePaths)%nat then
              let '(evs, st') := turn fate i h arr in
              let '(tr, st'') := loadAllImages fate (S n) st' in
              (evs ++ tr, st'')
            else ([], {| heap := h; loadedImages := arr; pc := Finished |})).
    destruct (decide _) as [Hlt | _]; [| reflexivity].
    destruct (turn fate i h arr) as [evs st'] eqn:Hturn.
    assert (Hpc' : pc st' = AtLoop (i + BATCH_SIZE)).
    { unfold turn in Hturn. destruct (loadBatch i h arr) as [[h' arr'] ps].
      injection Hturn as _ <-. reflexivity. }
    specialize (IH (i + BATCH_SIZE)%nat st'
                  ltac:(unfold BATCH_SIZE; lia) Hpc').
    destruct (loadAllImages fate (S n) st') as [tr st'']. exact IH.
Qed.

(** Wherever the loader stands, it can run to its end. *)
Lemma run_can_finish (st : state) :
  inv st -> exists tr fin, run st tr fin /\ pc fin = Finished.
Proof.
  intros Hinv. destruct st as [h arr [i | i ps |]].
  - eexists _, _. split; [apply (loadAllImages_run fate 30), Hinv |].
    apply (loadAllImages_reaches_end 29 i); [lia | reflexivity].
  - pose proof Hinv as [_ (_ & _ & Hnd & _)]. simpl in Hnd.
    pose proof (settle_all_run fate ps i h arr Hnd) as Hsettle.
    pose proof (step_publish i (settle_all fate h ps) arr) as Hpub.
    assert (Hmid : run {| heap := h; loadedImages := arr;
                          pc := Awaiting i ps |}
                       (map (settle_event fate) ps ++ publish i arr)
                       {| heap := settle_all fate h ps; loadedImages := arr;
                          pc := AtLoop (i + BATCH_SIZE) |}).
    { eapply run_app; [exact Hsettle |].
      rewrite <- (app_nil_r (publish i arr)).
      eapply run_cons; [exact Hpub | apply run_nil]. }
    pose proof (inv_run _ _ _ Hmid Hinv) as Hinv'.
    eexists _, _. split.
    + eapply run_app; [exact Hmid | apply (loadAllImages_run fate 30), Hinv'].
    + apply (loadAllImages_reaches_end 29 (i + BATCH_SIZE));
        [lia | reflexivity].
  - exists [], {| heap := h; loadedImages := arr; pc := Finished |}.
    split; [apply run_nil | reflexivity].
Qed.

End Completion.

(** C2, where the code departs from it. The element of an index whose
    load fails is not taken out of its slot: every snapshot published from
    then on holds it there, and it stays broken.  A render request for that
    index is therefore not skipped as it is for a hole: it clears the whole
    canvas, so that the frame painted before is gone, sets the smoothing
    options and calls [drawImage] with the zero size of the element as
    source and non-finite destination arguments, which paints nothing.
    The loader itself is not held up: it can run to its end, and when it
    has, the batches started and the snapshots published are those of any
    other finished run. *)
Theorem failed_image_keeps_slot (tr1 tr2 : list Loader.event)
    (st1 st2 fin : Loader.state) (i : nat) (img : nat) :
  Loader.run Loader.init tr1 st1 ->
  Loader.loadedImages st1 !! i = Some (Some img) ->
  Loader.step st1 [Loader.OnError img] st2 ->
  Loader.run st2 tr2 fin ->
  (forall s, s ∈ Loader.snapshots tr2 -> s !! i = Some (Some img))
  /\ request (deref (Loader.heap fin) img) = Broken
  /\ (forall s index cv,
        s ∈ Loader.snapshots tr2 -> Math_round index = Z.of_nat i ->
        exists cv',
          render (Loader.heap fin) s index cv = Returned cv'
          /\ ops cv'
             = ops cv
               ++ [ClearRect (Fin 0) (Fin 0) (of_N (width cv))
                     (of_N (height cv));
                   SetImageSmoothingEnabled true;
                   SetImageSmoothingQuality "high";
                   DrawImage img (Fin 0) (Fin 0) (of_N 0) (of_N 0)
                     NaN NaN NaN NaN]
          /\ bitmap cv' = [])
  /\ (exists tr3 fin',
        Loader.run fin tr3 fin' /\ Loader.pc fin' = Loader.Finished)
  /\ (Loader.pc fin = Loader.Finished ->
      Loader.batch_starts (tr1 ++ [Loader.OnError img] ++ tr2)
      = (fun k => 5 * k)%nat <$> seq 0 29
      /\ Loader.snapshots (tr1 ++ [Loader.OnError img] ++ tr2)
         = Loader.snapshot <$> seq 0 29).
Proof.
  intros Hrun1 Hslot Hstep Hrun2.
  pose proof (inv_run _ _ _ Hrun1 inv_init) as Hinv1.
  pose proof (inv_step _ _ _ Hinv1 Hstep) as Hinv2.
  pose proof (inv_run _ _ _ Hrun2 Hinv2) as Hinvf.
  pose proof (step_heap_grows _ _ _ Hstep Hinv1) as Hgrow.
  assert (Hwhole : Loader.run Loader.init
                     (tr1 ++ [Loader.OnError img] ++ tr2) fin).
  { eapply run_app; [exact Hrun1 |].
    eapply Loader.run_cons; eassumption. }
  destruct Hinv1 as [Harr1 _]. rewrite Harr1 in Hslot.
  apply lookup_upto in Hslot as [-> Hi].
  assert (Hsnap : forall s, s ∈ Loader.snapshots tr2 ->
                            s !! i = Some (Some i)).
  { intros s Hs.
    destruct (run_snapshots _ _ _ Hrun2 Hinv2 s Hs) as (m & Hm & ->).
    apply lookup_upto. split; [reflexivity | lia]. }
  assert (Hbroken : request (deref (Loader.heap fin) i) = Broken).
  { assert (Hst2 : request (deref (Loader.heap st2) i) = Broken
                   /\ i ∉ Loader.pending st2).
    { inversion Hstep; subst. unfold deref, Loader.pending. simpl. split.
      - unfold Loader.settle. rewrite list_lookup_alter_eq.
        simpl in Hi. destruct (h !! i) as [o |] eqn:E; [reflexivity |].
        apply lookup_ge_None in E. lia.
      - intros Hin%resolve_subseteq. tauto. }
    destruct Hst2 as [Hb Hnot].
    unfold deref in *.
    rewrite (run_settled_stays _ _ _ Hrun2 Hinv2 i) by (assumption || lia).
    exact Hb. }
  split; [exact Hsnap |]. split; [exact Hbroken |].
  split; [| split].
  - intros s index cv Hs Hindex.
    destruct (render_without_image (Loader.heap fin) s index cv i)
      as (cv' & Hr & Hops & Hbm & _).
    + unfold array_get. rewrite Hindex.
      destruct (Z.of_nat i <? 0)%Z eqn:E; [apply Z.ltb_lt in E; lia |].
      now rewrite Nat2Z.id, (Hsnap s Hs).
    + intros nw nh. rewrite Hbroken. discriminate.
    + exists cv'. split; [exact Hr |]. split; [exact Hops | exact Hbm].
  - apply (run_can_finish (fun _ => Broken)), Hinvf.
  - intros Hfin.
    destruct (loop_phase 29 0 0 Loader.init _ fin
                eq_refl eq_refl eq_refl inv_init Hwhole Hfin)
      as (ss & Hlen & Hall & Htr).
    destruct (projections_of_batches ss 0 Hall) as [Hstarts Hsnaps].
    rewrite <- Htr, Hlen in Hstarts, Hsnaps. split; assumption.
Qed.

Lemma failed_image_keeps_slot_witness :
  exists (st1 st2 fin : Loader.state) (tr2 : list Loader.event),
    Loader.step st1 [Loader.OnError 0%nat] st2
    /\ Loader.run st2 tr2 fin
    /\ Loader.snapshots tr2 = [Some <$> seq 0 5]
    /\ (forall s, s ∈ Loader.snapshots tr2 -> s !! 0%nat = Some (Some 0%nat))
    /\ request (deref (Loader.heap fin) 0%nat) = Broken
    /\ exists cv',
         render (Loader.heap fin) (Some <$> seq 0 5) 0 surface_800x600
         = Returned cv'
         /\ length (ops cv') = (length (ops surface_800x600) + 4)%nat
         /\ bitmap cv' = [].
Proof.
  set (loaded := fun _ : nat => Available 1920 1080).
  set (st1 := {| Loader.heap := map Loader.requested (seq 0 5);
                 Loader.loadedImages := Some <$> seq 0 5;
                 Loader.pc := Loader.Awaiting 0 (seq 0 5) |}).
  set (st2 := {| Loader.heap := Loader.settle (Loader.heap st1) 0 Broken;
                 Loader.loadedImages := Some <$> seq 0 5;
                 Loader.pc := Loader.Awaiting 0 (seq 1 4) |}).
  set (fin := {| Loader.heap :=
                   Loader.settle_all loaded (Loader.heap st2) (seq 1 4);
                 Loader.loadedImages := Some <$> seq 0 5;
                 Loader.pc := Loader.AtLoop 5 |}).
  set (tr2 := map (Loader.settle_event loaded) (seq 1 4)
              ++ Loader.publish 0 (Some <$> seq 0 5)).
  assert (H1 : Loader.run Loader.init
                 ((Loader.LoadBatch 0 :: Loader.requests 0 (seq 0 5)) ++ [])
                 st1).
  { eapply Loader.run_cons; [| apply Loader.run_nil].
    apply Loader.step_loadBatch; [vm_compute; lia | reflexivity]. }
  assert (H2 : Loader.loadedImages st1 !! 0%nat = Some (Some 0%nat))
    by reflexivity.
  assert (H3 : Loader.step st1 [Loader.OnError 0%nat] st2).
  { apply (Loader.step_onerror 0 (Loader.heap st1) (Some <$> seq 0 5)
             (seq 0 5) 0%nat).
    apply elem_of_cons. now left. }
  assert (H4 : Loader.run st2 tr2 fin).
  { eapply run_app.
    - apply (settle_all_run loaded (seq 1 4)). apply NoDup_seq.
    - rewrite <- (app_nil_r (Loader.publish 0 (Some <$> seq 0 5))).
      eapply Loader.run_cons;
        [apply Loader.step_publish | apply Loader.run_nil].
  }
  destruct (failed_image_keeps_slot _ _ _ _ _ _ _ H1 H2 H3 H4)
    as (Hslot & Hbroken & Hrender & _).
  exists st1, st2, fin, tr2.
  split; [exact H3 |]. split; [exact H4 |].
  split; [reflexivity |]. split; [exact Hslot |].
  split; [exact Hbroken |].
  destruct (Hrender (Some <$> seq 0 5) 0 surface_800x600)
    as (cv' & Hr & Hops & Hbm); [| reflexivity |].
  { assert (E : Loader.snapshots tr2 = [Some <$> seq 0 5]) by reflexivity.
    rewrite E. apply list_elem_of_singleton. reflexivity. }
  exists cv'. split; [exact Hr |]. split; [| exact Hbm].
  rewrite Hops, length_app. reflexivity.
Defined.

(** The session in which [00037.png] fails is a run of the loader. *)
Lemma session_is_a_run :
  Loader.run Loader.init session_trace session_state.
Proof. apply loadAllImages_run, inv_init. Qed.

(** C2 at a failing input. In the session where [00037.png] fails, the
    snapshot published after its batch holds the failed element in slot 36
    instead of leaving it empty; and with frame 35 on the canvas, a render
    request for index 36 is not skipped: it goes through the clear and the
    draw call and leaves the canvas blank.  Had the slot been left empty,
    the guard for a hole would have kept frame 35 on the canvas. *)
Lemma failed_slot_counterexample :
  Loader.run Loader.init session_trace session_state
  /\ session_trace !! 92%nat = Some (Loader.OnError 36)
  /\ last (Loader.snapshots session_trace) = Some (Some <$> seq 0 40)
  /\ (Some <$> seq 0 40 : list (option nat)) !! 36%nat = Some (Some 36%nat)
  /\ request (deref (Loader.heap session_state) 36) = Broken
  /\ exists cv35 cv36 : canvas,
       render (Loader.heap session_state) (Some <$> seq 0 40) 35
         surface_800x600 = Returned cv35
       /\ render (Loader.heap session_state) (Some <$> seq 0 40) 36 cv35
          = Returned cv36
       /\ length (bitmap cv35) = 1%nat
       /\ bitmap cv36 = []
       /\ length (ops cv36) = (length (ops cv35) + 4)%nat
       /\ cv36 <> cv35
       /\ render (Loader.heap session_state)
            (<[36%nat := None]> (Some <$> seq 0 40)) 36 cv35
          = Returned cv35.
Proof.
  split; [exact session_is_a_run |].
  split; [vm_compute; reflexivity |]. split; [vm_compute; reflexivity |].
  split; [vm_compute; reflexivity |]. split; [vm_compute; reflexivity |].
  destruct (render_returns (Loader.heap session_state) (Some <$> seq 0 40)
              35 surface_800x600) as (cv35 & Hr35).
  destruct (render_without_image (Loader.heap session_state)
              (Some <$> seq 0 40) 36 cv35 36%nat)
    as (cv36 & Hr36 & Hops36 & Hbm36 & _);
    [vm_compute; reflexivity | intros nw nh; vm_compute; discriminate |].
  assert (Hbm35 : length (bitmap cv35) = 1%nat).
  { revert Hr35. vm_compute. intros [= <-]. reflexivity. }
  exists cv35, cv36. split; [exact Hr35 |]. split; [exact Hr36 |].
  split; [exact Hbm35 |]. split; [exact Hbm36 |].
  split; [rewrite Hops36, length_app; reflexivity |].
  split; [intros E; rewrite <- E, Hbm36 in Hbm35; discriminate Hbm35 |].
  unfold render.
  replace (array_get (<[36%nat := None]> (Some <$> seq 0 40))
             (Math_round 36)) with (@None nat)
    by (vm_compute; reflexivity).
  reflexivity.
Qed.

(** ** The page *)

Section PageFacts.

Import Page.

Variable has_ctx : bool.

Lemma images_run_effect st : images (run_effect has_ctx st) = images st.
Proof. reflexivity. Qed.

Lemma loader_run_effect st : loader (run_effect has_ctx st) = loader st.
Proof. reflexivity. Qed.

(** Only a [SetImages] among the events of a loader step reaches the page. *)
Lemma commit_quiet l evs st :
  Loader.snapshots evs = [] ->
  commit has_ctx l evs st
  = {| loader := l; images := images st;
       smoothProgress := smoothProgress st;
       innerWidth := innerWidth st; innerHeight := innerHeight st;
       canvasRef := canvasRef st;
       resize_handler := resize_handler st;
       change_handler := change_handler st;
       errors := errors st |}.
Proof.
  unfold commit. generalize
    {| loader := l; images := images st;
       smoothProgress := smoothProgress st;
       innerWidth := innerWidth st; innerHeight := innerHeight st;
       canvasRef := canvasRef st;
       resize_handler := resize_handler st;
       change_handler := change_handler st;
       errors := errors st |}.
  induction evs as [| e evs IH]; intros s Hnone; [reflexivity |].
  destruct e; simpl in *; try discriminate Hnone; now apply IH.
Qed.

(** A loader step either leaves the page's [images] alone or publishes
    the whole of [loadedImages] into it. *)
Lemma commit_cases st evs l' :
  Loader.step (loader st) evs l' ->
  (Loader.snapshots evs = []
   /\ commit has_ctx l' evs st
      = {| loader := l'; images := images st;
           smoothProgress := smoothProgress st;
           innerWidth := innerWidth st; innerHeight := innerHeight st;
           canvasRef := canvasRef st;
           resize_handler := resize_handler st;
           change_handler := change_handler st;
           errors := errors st |})
  \/ (exists i,
        Loader.pc (loader st) = Loader.Awaiting i []
        /\ Loader.snapshots evs = [Loader.loadedImages (loader st)]
        /\ commit has_ctx l' evs st
           = setImages has_ctx (Loader.loadedImages (loader st))
               {| loader := l'; images := images st;
                  smoothProgress := smoothProgress st;
                  innerWidth := innerWidth st; innerHeight := innerHeight st;
                  canvasRef := canvasRef st;
                  resize_handler := resize_handler st;
                  change_handler := change_handler st;
                  errors := errors st |}).
Proof.
  intros Hstep.
  inversion Hstep as [i h arr h' arr' ps Hi Hload Hst | | | i h arr Hst |];
    subst; try (left; split; [reflexivity | now apply commit_quiet]).
  - left.
    assert (Hq : Loader.snapshots
                   (Loader.LoadBatch i :: Loader.requests i ps) = []).
    { unfold Loader.snapshots, Loader.requests. simpl.
      now apply omap_requests. }
    split; [exact Hq | now apply commit_quiet].
  - right. exists i. simpl.
    unfold Loader.publish, spread. rewrite map_id.
    split; [reflexivity |].
    split; [now destruct (i =? 0)%nat |].
    unfold commit. simpl. now destruct (i =? 0)%nat.
Qed.

Lemma loader_commit st evs l' :
  Loader.step (loader st) evs l' -> loader (commit has_ctx l' evs st) = l'.
Proof.
  intros Hstep.
  destruct (commit_cases st evs l' Hstep) as [[_ ->] | (i & _ & _ & ->)];
    reflexivity.
Qed.

Lemma loader_scroll p st : loader (scroll p st) = loader st.
Proof.
  unfold scroll. destruct (Qeq_bool _ _); [reflexivity |].
  destruct (change_handler st), (canvasRef st); reflexivity.
Qed.

Lemma loader_resize w h st : loader (resize w h st) = loader st.
Proof.
  unfold resize. destruct (resize_handler st), (canvasRef st); reflexivity.
Qed.

Lemma images_scroll p st : images (scroll p st) = images st.
Proof.
  unfold scroll. destruct (Qeq_bool _ _); [reflexivity |].
  destruct (change_handler st), (canvasRef st); reflexivity.
Qed.

Lemma images_resize w h st : images (resize w h st) = images st.
Proof.
  unfold resize. destruct (resize_handler st), (canvasRef st); reflexivity.
Qed.

(** The loader inside a running page runs as it does alone. *)
Lemma run_loader st tr st' :
  run has_ctx st tr st' ->
  Loader.run (loader st) (loader_trace tr) (loader st').
Proof.
  induction 1 as [| st e st' tr st'' Hstep _ IH]; [apply Loader.run_nil |].
  destruct Hstep as [st evs l' Hl | st p | st w h].
  - rewrite (loader_commit _ _ _ Hl) in IH.
    change (loader_trace (Load evs :: tr)) with (evs ++ loader_trace tr).
    eapply Loader.run_cons; eassumption.
  - rewrite loader_scroll in IH. exact IH.
  - rewrite loader_resize in IH. exact IH.
Qed.

End PageFacts.

Section PageInvariant.

Import Page.

Variable has_ctx : bool.
Variable canvas0 : option canvas.

Lemma inv_mount (w h : N) (p : Q) : inv canvas0 (mount has_ctx canvas0 w h p).
Proof.
  split; [apply inv_init |]. split.
  - exists 0%nat. split; [simpl; lia | reflexivity].
  - intros _. repeat split; reflexivity.
Qed.

Lemma upto_nonempty (m : nat) :
  (Some <$> seq 0 m : list (option nat)) = [] -> m = 0%nat.
Proof. destruct m; [reflexivity | discriminate]. Qed.

Lemma inv_step_page st e st' :
  step has_ctx st e st' -> inv canvas0 st -> inv canvas0 st'.
Proof.
  intros Hstep (Hl & (m & Hm & Himg) & Hidle).
  destruct Hstep as [st evs l' Hstep | st p | st w h].
  - pose proof (inv_step _ _ _ Hl Hstep) as Hl'.
    pose proof (step_heap_grows _ _ _ Hstep Hl) as Hgrow.
    destruct (commit_cases has_ctx st evs l' Hstep)
      as [[_ ->] | (i & Hpc & _ & ->)].
    + split; [exact Hl' |]. split; [| exact Hidle].
      exists m. split; [simpl; lia | exact Himg].
    + destruct Hl as [Harr Hpcinv]. rewrite Hpc in Hpcinv.
      destruct Hpcinv as (Hi & Hlen & _).
      split; [exact Hl' |]. split.
      * exists (length (Loader.heap (loader st))).
        split; [exact Hgrow | exact Harr].
      * unfold setImages. rewrite images_run_effect. simpl.
        rewrite Harr. intros E%upto_nonempty.
        unfold Loader.BATCH_SIZE in Hlen. lia.
  - split; [now rewrite loader_scroll |]. split.
    + exists m. rewrite loader_scroll, images_scroll. now split.
    + rewrite images_scroll. intros E.
      destruct (Hidle E) as (Hr & Hc & Hcv & Herr).
      unfold scroll. rewrite Hc.
      destruct (Qeq_bool _ _); repeat split; assumption.
  - split; [now rewrite loader_resize |]. split.
    + exists m. rewrite loader_resize, images_resize. now split.
    + rewrite images_resize. intros E.
      destruct (Hidle E) as (Hr & Hc & Hcv & Herr).
      unfold resize. rewrite Hr. repeat split; assumption.
Qed.

Lemma inv_run_page st tr st' :
  run has_ctx st tr st' -> inv canvas0 st -> inv canvas0 st'.
Proof.
  induction 1 as [| st e st' tr st'' Hstep _ IH]; [trivial |].
  intros Hinv. apply IH. eapply inv_step_page; eassumption.
Qed.

Lemma upto_le (m n i img : nat) :
  (m <= n)%nat ->
  (Some <$> seq 0 m : list (option nat)) !! i = Some (Some img) ->
  (Some <$> seq 0 n : list (option nat)) !! i = Some (Some img).
Proof.
  intros Hle [-> Hi]%lookup_upto. apply lookup_upto. split; [reflexivity | lia].
Qed.

(** What a step of the page does to [images] and to [loadedImages]. *)
Lemma step_images st e st' :
  step has_ctx st e st' -> inv canvas0 st ->
  (forall i img, images st !! i = Some (Some img) ->
                 images st' !! i = Some (Some img))
  /\ (forall i img,
        Loader.loadedImages (loader st) !! i = Some (Some img) ->
        Loader.loadedImages (loader st') !! i = Some (Some img))
  /\ match e with
     | Load evs =>
         images st' = images st \/ Loader.snapshots evs = [images st']
     | _ => images st' = images st /\ loader st' = loader st
     end.
Proof.
  intros Hstep ([Harr Hpc] & (m & Hm & Himg) & _).
  destruct Hstep as [st evs l' Hstep | st p | st w h].
  - pose proof (inv_step _ _ _ (conj Harr Hpc) Hstep) as [Harr' _].
    pose proof (step_heap_grows _ _ _ Hstep (conj Harr Hpc)) as Hgrow.
    assert (Hloaded : forall i img,
               Loader.loadedImages (loader st) !! i = Some (Some img) ->
               Loader.loadedImages l' !! i = Some (Some img)).
    { intros i img. rewrite Harr, Harr'. now apply upto_le. }
    destruct (commit_cases has_ctx st evs l' Hstep)
      as [[_ ->] | (i & _ & Hsnap & ->)].
    + split; [trivial |]. split; [exact Hloaded | now left].
    + unfold setImages. rewrite images_run_effect, loader_run_effect.
      cbn [images loader]. split; [| split; [exact Hloaded | now right]].
      intros j img. rewrite Himg, Harr. now apply upto_le.
  - rewrite images_scroll, loader_scroll. repeat split; trivial.
  - rewrite images_resize, loader_resize. repeat split; trivial.
Qed.

End PageInvariant.

(** Until a snapshot is published, [images] is the empty array the page
    was mounted with. *)
Lemma images_before_first_snapshot (has_ctx : bool) st tr st' :
  Page.run has_ctx st tr st' ->
  Loader.snapshots (Page.loader_trace tr) = [] ->
  Page.images st' = Page.images st.
Proof.
  induction 1 as [| st e st' tr st'' Hstep _ IH]; [reflexivity |].
  intros Hnone. destruct Hstep as [st evs l' Hstep | st p | st w h].
  - change (Page.loader_trace (Page.Load evs :: tr))
      with (evs ++ Page.loader_trace tr) in Hnone.
    unfold Loader.snapshots in Hnone. rewrite omap_app in Hnone.
    apply app_eq_nil in Hnone as [Hevs Htr].
    rewrite (IH Htr), (commit_quiet has_ctx l' evs st Hevs). reflexivity.
  - rewrite (IH Hnone). apply images_scroll.
  - rewrite (IH Hnone). apply images_resize.
Qed.

(** A step of the loader leaves the progress and the window alone. *)
Lemma window_commit (has_ctx : bool) (st : Page.state)
    (evs : list Loader.event) (l' : Loader.state) :
  Loader.step (Page.loader st) evs l' ->
  Page.smoothProgress (Page.commit has_ctx l' evs st)
  = Page.smoothProgress st
  /\ Page.innerWidth (Page.commit has_ctx l' evs st) = Page.innerWidth st
  /\ Page.innerHeight (Page.commit has_ctx l' evs st) = Page.innerHeight st.
Proof.
  intros Hstep.
  destruct (commit_cases has_ctx st evs l' Hstep)
    as [[_ ->] | (i & _ & _ & ->)]; repeat split; reflexivity.
Qed.

(** Whatever the loader can do alone it can do inside the page, with the
    progress and the window as they are. *)
Lemma page_run_of_loader (has_ctx : bool) (st : Page.state)
    (tr : list Loader.event) (l' : Loader.state) :
  Loader.run (Page.loader st) tr l' ->
  exists ptr st',
    Page.run has_ctx st ptr st'
    /\ Page.loader st' = l' /\ Page.loader_trace ptr = tr
    /\ Page.smoothProgress st' = Page.smoothProgress st
    /\ Page.innerWidth st' = Page.innerWidth st
    /\ Page.innerHeight st' = Page.innerHeight st.
Proof.
  intros Hrun. remember (Page.loader st) as l eqn:El. revert st El.
  induction Hrun as [l | l evs l1 tr l2 Hstep _ IH]; intros st ->.
  - exists [], st. split; [apply Page.run_nil | repeat split; reflexivity].
  - destruct (IH (Page.commit has_ctx l1 evs st))
      as (ptr & st' & Hrun' & Hl & Htr & Hp & Hw & Hh).
    { symmetry. now apply loader_commit. }
    destruct (window_commit has_ctx st evs l1 Hstep) as (Hp' & Hw' & Hh').
    exists (Page.Load evs :: ptr), st'. split; [| split; [| split]].
    + eapply Page.run_cons; [apply Page.step_load, Hstep | exact Hrun'].
    + exact Hl.
    + change (Page.loader_trace (Page.Load evs :: ptr))
        with (evs ++ Page.loader_trace ptr).
      now rewrite Htr.
    + rewrite Hp, Hw, Hh. now repeat split.
Qed.

(** C7. The published image set only grows: of two snapshots published
    one after the other, the later holds every element of the earlier in
    the same slot; and a step of the page never removes or replaces an
    entry of [images] or of [loadedImages], changes [images] only by
    publishing a snapshot of the loader, and on a scroll or a resize leaves
    both [images] and the loader as they are. *)
Theorem published_images_only_grow (has_ctx : bool)
    (canvas0 : option canvas) (w h : N) (p : Q)
    (tr : list Page.event) (st : Page.state) :
  Page.run has_ctx (Page.mount has_ctx canvas0 w h p) tr st ->
  (forall k s1 s2 i img,
      Loader.snapshots (Page.loader_trace tr) !! k = Some s1 ->
      Loader.snapshots (Page.loader_trace tr) !! S k = Some s2 ->
      s1 !! i = Some (Some img) -> s2 !! i = Some (Some img))
  /\ (forall e st',
        Page.step has_ctx st e st' ->
        (forall i img, Page.images st !! i = Some (Some img) ->
                       Page.images st' !! i = Some (Some img))
        /\ (forall i img,
              Loader.loadedImages (Page.loader st) !! i = Some (Some img) ->
              Loader.loadedImages (Page.loader st') !! i = Some (Some img))
        /\ match e with
           | Page.Load evs =>
               Page.images st' = Page.images st
               \/ Loader.snapshots evs = [Page.images st']
           | _ =>
               Page.images st' = Page.images st
               /\ Page.loader st' = Page.loader st
           end).
Proof.
  intros Hrun. split.
  - apply (run_snapshots_grow _ _ _ (run_loader has_ctx _ _ _ Hrun)).
    apply inv_init.
  - intros e st' Hstep.
    apply (step_images has_ctx canvas0 st e st' Hstep).
    apply (inv_run_page has_ctx canvas0 _ _ _ Hrun), inv_mount.
Qed.

Lemma published_images_only_grow_witness :
  exists (tr : list Page.event) (st : Page.state),
    Page.run true (Page.mount true (Some fresh) 1024 768 0) tr st
    /\ Loader.snapshots (Page.loader_trace tr)
       = [Some <$> seq 0 5; Some <$> seq 0 10]
    /\ (forall i img,
          (Some <$> seq 0 5 : list (option nat)) !! i = Some (Some img) ->
          (Some <$> seq 0 10 : list (option nat)) !! i = Some (Some img))
    /\ Page.images (Page.resize 800 600 st) = Page.images st
    /\ Page.loader (Page.resize 800 600 st) = Page.loader st.
Proof.
  destruct (page_run_of_loader true
              (Page.mount true (Some fresh) 1024 768 0)
              (fst (Loader.loadAllImages all_load 2 Loader.init))
              (snd (Loader.loadAllImages all_load 2 Loader.init)))
    as (tr & st & Hrun & _ & Htr & _).
  { apply loadAllImages_run, inv_init. }
  destruct (published_images_only_grow true (Some fresh) 1024 768 0 tr st
              Hrun) as [Hgrow Hstep].
  assert (Hsn : Loader.snapshots (Page.loader_trace tr)
                = [Some <$> seq 0 5; Some <$> seq 0 10]).
  { rewrite Htr. vm_compute. reflexivity. }
  exists tr, st. split; [exact Hrun |]. split; [exact Hsn |]. split.
  - intros i img. apply (Hgrow 0%nat); rewrite Hsn; reflexivity.
  - destruct (Hstep (Page.Resize 800 600) _
                (Page.step_resize true st 800 600)) as (_ & _ & Hsame).
    exact Hsame.
Defined.

(** C10. As long as the published image list is empty the rendering effect
    does nothing: its body returns at once, no resize listener and no
    change subscription are installed, and whatever the scroll progress
    or the window size become, the canvas is never resized or painted. *)
Theorem nothing_rendered_while_images_empty (has_ctx : bool)
    (canvas0 : option canvas) (w h : N) (p : Q)
    (tr : list Page.event) (st : Page.state) :
  Page.run has_ctx (Page.mount has_ctx canvas0 w h p) tr st ->
  Page.images st = [] ->
  (forall heap iw ih cur,
      canvasEffect heap (Page.images st) (Page.canvasRef st) has_ctx iw ih cur
      = {| resize_listener := false; change_subscription := false;
           surface := Page.canvasRef st; uncaught := None |})
  /\ Page.resize_handler st = None
  /\ Page.change_handler st = None
  /\ Page.canvasRef st = canvas0
  /\ Page.errors st = []
  /\ (forall q, Page.canvasRef (Page.scroll q st) = canvas0)
  /\ (forall w' h', Page.canvasRef (Page.resize w' h' st) = canvas0).
Proof.
  intros Hrun Hempty.
  pose proof (inv_run_page has_ctx canvas0 _ _ _ Hrun
                (inv_mount has_ctx canvas0 w h p)) as Hinv.
  pose proof Hinv as (_ & _ & Hidle).
  destruct (Hidle Hempty) as (Hr & Hc & Hcv & Herr).
  split; [intros heap iw ih cur; now rewrite Hempty |].
  repeat (split; [assumption |]). split.
  - intros q.
    pose proof (inv_step_page has_ctx canvas0 _ _ _
                  (Page.step_scroll has_ctx st q) Hinv) as (_ & _ & Hidle').
    apply Hidle'. now rewrite images_scroll.
  - intros w' h'.
    pose proof (inv_step_page has_ctx canvas0 _ _ _
                  (Page.step_resize has_ctx st w' h') Hinv) as (_ & _ & Hidle').
    apply Hidle'. now rewrite images_resize.
Qed.

Lemma nothing_rendered_while_images_empty_witness :
  Page.canvasRef
    (Page.scroll (1 # 2)
       (Page.resize 800 600 (Page.mount true (Some fresh) 1024 768 0)))
  = Some fresh.
Proof.
  destruct (nothing_rendered_while_images_empty true (Some fresh) 1024 768 0
              [Page.Resize 800 600; Page.Scroll (1 # 2)]
              (Page.scroll (1 # 2)
                 (Page.resize 800 600
                    (Page.mount true (Some fresh) 1024 768 0))))
    as (_ & _ & _ & Hcv & _).
  - eapply Page.run_cons; [apply Page.step_resize |].
    eapply Page.run_cons; [apply Page.step_scroll | apply Page.run_nil].
  - vm_compute. reflexivity.
  - exact Hcv.
Defined.

(** * Further properties *)

(** ** The store of the loader *)

Section StoreFacts.

Import Loader.

Lemma store_inv_init : store_inv init.
Proof.
  split; [intros r o H; discriminate H | intros H; discriminate H].
Qed.

Lemma elem_of_resolve img (ps : list nat) r :
  r ∈ resolve img ps <-> r ∈ ps /\ r ≠ img.
Proof. unfold resolve. rewrite list_elem_of_filter. tauto. Qed.

Lemma store_inv_settle (h : list HTMLImageElement) (ps : list nat)
    (img : nat) (s : loadState) i arr :
  s ≠ Unavailable ->
  store_inv {| heap := h; loadedImages := arr; pc := Awaiting i ps |} ->
  store_inv {| heap := settle h img s; loadedImages := arr;
               pc := Awaiting i (resolve img ps) |}.
Proof.
  intros Hs [Hst _]. split; [| intros H; discriminate H].
  intros r o Hr. unfold pending in *. simpl in *. unfold settle in Hr.
  rewrite elem_of_resolve.
  destruct (decide (r = img)) as [-> | Hne].
  - rewrite list_lookup_alter_eq in Hr.
    destruct (h !! img) as [o0 |] eqn:E; [| discriminate Hr].
    simpl in Hr. injection Hr as <-. simpl.
    destruct (Hst img o0 E) as [Hsrc _]. split; [exact Hsrc |].
    split; [intros H; contradiction | intros [_ H]; contradiction].
  - rewrite list_lookup_alter_ne in Hr by congruence.
    destruct (Hst r o Hr) as [Hsrc Hreq]. split; [exact Hsrc |].
    rewrite Hreq. tauto.
Qed.

Lemma store_inv_step st evs st' :
  inv st -> store_inv st -> step st evs st' -> store_inv st'.
Proof.
  intros Hinv Hst Hstep. pose proof Hinv as [Harr Hpc].
  destruct Hstep; simpl in *.
  - assert (Hh : length h = i) by lia.
    assert (Ha : length arr = i)
      by (rewrite Harr, length_fmap, length_seq; lia).
    rewrite loadBatch_spec in H0 by assumption. simpl in H0.
    injection H0 as <- <- <-.
    destruct Hst as [Hst _]. split; [| intros H'; discriminate H'].
    intros r o Hr. unfold pending in *. simpl in *.
    destruct (decide (r < i)%nat) as [Hlt | Hge].
    + rewrite lookup_app_l in Hr by lia.
      destruct (Hst r o Hr) as [Hsrc Hreq]. split; [exact Hsrc |].
      rewrite Hreq, elem_of_seq.
      split; [intros H'; inversion H' | intros H'; exfalso; lia].
    + rewrite lookup_app_r in Hr by lia.
      rewrite list_lookup_fmap in Hr.
      destruct (seq i _ !! (r - length h)%nat) as [x |] eqn:E;
        [| discriminate Hr].
      apply lookup_seq in E as [-> Hx]. simpl in Hr. injection Hr as <-.
      assert (Hr' : (i + (r - length h))%nat = r) by lia. rewrite Hr'.
      unfold requested, BATCH_SIZE in *. simpl.
      destruct (imagePaths !! r) as [p |] eqn:Ep.
      * split; [reflexivity |]. rewrite elem_of_seq.
        split; [intros _; lia | reflexivity].
      * apply lookup_ge_None in Ep. rewrite imagePaths_length in Ep. lia.
  - apply store_inv_settle; [discriminate | exact Hst].
  - apply store_inv_settle; [discriminate | exact Hst].
  - destruct Hst as [Hst _]. split; [exact Hst | intros H'; discriminate H'].
  - destruct Hst as [Hst _]. split; [exact Hst |].
    intros _. rewrite imagePaths_length. simpl. lia.
Qed.

Lemma store_inv_run st tr st' :
  run st tr st' -> inv st -> store_inv st -> store_inv st'.
Proof.
  induction 1 as [| st evs st' tr st'' Hstep _ IH]; [trivial |].
  intros Hinv Hst. apply IH.
  - eapply inv_step; eassumption.
  - eapply store_inv_step; eassumption.
Qed.

(** No more distinct numbers of a range than the range is long. *)
Lemma NoDup_range_length (l : list nat) (a b : nat) :
  NoDup l -> (forall x, x ∈ l -> (a <= x < b)%nat) ->
  (length l <= b - a)%nat.
Proof.
  intros Hnd Hin.
  replace (b - a)%nat with (length (seq a (b - a))) by apply length_seq.
  apply submseteq_length.
  apply NoDup_submseteq; [exact Hnd |].
  intros x Hx. apply elem_of_seq. specialize (Hin x Hx). lia.
Qed.

End StoreFacts.

Lemma first_batch_run :
  Loader.run Loader.init
    (Loader.LoadBatch 0 :: Loader.requests 0 (seq 0 5)) first_batch_awaited.
Proof.
  rewrite <- (app_nil_r (Loader.LoadBatch 0 :: Loader.requests 0 (seq 0 5))).
  eapply Loader.run_cons; [| apply Loader.run_nil].
  apply Loader.step_loadBatch; [vm_compute; lia | reflexivity].
Qed.

Lemma reachable_inv tr st :
  Loader.run Loader.init tr st -> Loader.inv st /\ store_inv st.
Proof.
  intros Hrun. split.
  - exact (inv_run _ _ _ Hrun inv_init).
  - exact (store_inv_run _ _ _ Hrun inv_init store_inv_init).
Qed.

(** X1. At any moment of any run at most [BATCH_SIZE] loads are in flight,
    no element twice, and the elements in flight are exactly the elements
    of the store that are still unavailable. *)
Theorem loads_in_flight_bounded (tr : list Loader.event)
    (st : Loader.state) :
  Loader.run Loader.init tr st ->
  (length (Loader.pending st) <= Loader.BATCH_SIZE)%nat
  /\ NoDup (Loader.pending st)
  /\ (forall r,
        r ∈ Loader.pending st
        <-> exists o, Loader.heap st !! r = Some o
                      /\ request o = Unavailable).
Proof.
  intros Hrun. destruct (reachable_inv tr st Hrun) as [[_ Hpc] [Hst _]].
  assert (Hin : forall r, r ∈ Loader.pending st ->
                          (r < length (Loader.heap st))%nat).
  { unfold Loader.pending. destruct (Loader.pc st) as [i | i ps |];
      try (intros r Hr; now apply elem_of_nil in Hr).
    destruct Hpc as (_ & _ & _ & Hps). intros r Hr. apply Hps in Hr. lia. }
  split; [| split].
  - unfold Loader.pending. destruct (Loader.pc st) as [i | i ps |];
      try (simpl; unfold Loader.BATCH_SIZE; lia).
    destruct Hpc as (Hi & Hlen & Hnd & Hps).
    pose proof (NoDup_range_length ps i (length (Loader.heap st)) Hnd Hps).
    unfold Loader.BATCH_SIZE in *. lia.
  - unfold Loader.pending. destruct (Loader.pc st) as [i | i ps |];
      try apply NoDup_nil_2.
    now destruct Hpc as (_ & _ & Hnd & _).
  - intros r. split.
    + intros Hr. destruct (lookup_lt_is_Some_2 _ _ (Hin r Hr)) as [o Ho].
      exists o. split; [exact Ho |]. now apply (Hst r o Ho).
    + intros (o & Ho & Hreq). now apply (Hst r o Ho).
Qed.

Lemma loads_in_flight_bounded_witness :
  (length (Loader.pending first_batch_awaited) <= Loader.BATCH_SIZE)%nat
  /\ NoDup (Loader.pending first_batch_awaited).
Proof.
  destruct (loads_in_flight_bounded _ _ first_batch_run) as (H1 & H2 & _).
  split; assumption.
Defined.

(** X2. In any run, the element found in slot [i] of [loadedImages] is the
    one that was requested from [imagePaths[i]], the file numbered
    [i + 1]. *)
Theorem slot_holds_its_path (tr : list Loader.event) (st : Loader.state)
    (i : nat) (img : nat) :
  Loader.run Loader.init tr st ->
  Loader.loadedImages st !! i = Some (Some img) ->
  (i < 144)%nat
  /\ imagePaths !! i = Some (src (deref (Loader.heap st) img))
  /\ src (deref (Loader.heap st) img) = numbered_path i.
Proof.
  intros Hrun Hslot.
  destruct (reachable_inv tr st Hrun) as [[Harr Hpc] [Hst _]].
  rewrite Harr in Hslot. apply lookup_upto in Hslot as [-> Hi].
  destruct (lookup_lt_is_Some_2 _ _ Hi) as [o Ho].
  destruct (Hst i o Ho) as [Hsrc _].
  assert (Hlt : (i < 144)%nat).
  { apply lookup_lt_Some in Hsrc. now rewrite imagePaths_length in Hsrc. }
  unfold deref. rewrite Ho. simpl.
  split; [exact Hlt |]. split; [exact Hsrc |].
  rewrite imagePaths_numbered, list_lookup_fmap, lookup_seq_lt in Hsrc
    by exact Hlt.
  simpl in Hsrc. now injection Hsrc as <-.
Qed.

Lemma slot_holds_its_path_witness :
  src (deref (Loader.heap first_batch_awaited) 3)
  = "/headphone-seqs/00004.png"%string.
Proof.
  destruct (slot_holds_its_path _ _ 3%nat 3%nat first_batch_run eq_refl)
    as (_ & _ & H).
  exact H.
Defined.

(** X3. When the loader has finished, [loadedImages] has all 144 slots
    filled, every element of the store has settled, loaded or failed, and
    the last snapshot published is that complete array. *)
Theorem finished_loader_is_complete (tr : list Loader.event)
    (fin : Loader.state) :
  Loader.run Loader.init tr fin ->
  Loader.pc fin = Loader.Finished ->
  Loader.loadedImages fin = Some <$> seq 0 144
  /\ length (Loader.heap fin) = 144%nat
  /\ (forall r o, Loader.heap fin !! r = Some o -> request o ≠ Unavailable)
  /\ last (Loader.snapshots tr) = Some (Loader.loadedImages fin).
Proof.
  intros Hrun Hfin.
  destruct (reachable_inv tr fin Hrun) as [[Harr _] [Hst Hdone]].
  specialize (Hdone Hfin). rewrite imagePaths_length in Hdone.
  rewrite Hdone in Harr.
  split; [exact Harr |]. split; [exact Hdone |]. split.
  - intros r o Ho Hun. apply (Hst r o Ho) in Hun.
    unfold Loader.pending in Hun. rewrite Hfin in Hun.
    now apply elem_of_nil in Hun.
  - destruct (loop_phase 29 0 0 Loader.init tr fin
                eq_refl eq_refl eq_refl inv_init Hrun Hfin)
      as (ss & Hlen & Hall & Htr).
    destruct (projections_of_batches ss 0 Hall) as [_ Hsnaps].
    rewrite <- Htr, Hlen in Hsnaps. rewrite Hsnaps, Harr. reflexivity.
Qed.

Lemma finished_loader_is_complete_witness :
  length (Loader.heap (snd (Loader.loadAllImages all_load 30 Loader.init)))
  = 144%nat.
Proof.
  destruct (finished_loader_is_complete
              (fst (Loader.loadAllImages all_load 30 Loader.init))
              (snd (Loader.loadAllImages all_load 30 Loader.init)))
    as (_ & H & _).
  - apply loadAllImages_run, inv_init.
  - vm_compute. reflexivity.
  - exact H.
Defined.

(** ** What a run of the loader lets observe *)

Section TraceFacts.

Import Loader.

Lemma requested_indices_requests (l : list nat) :
  requested_indices (zip_with Request l l) = l.
Proof. induction l as [| a l IH]; simpl; [reflexivity | now rewrite IH]. Qed.

Lemma length_settlements (s : list event) :
  Forall (fun e => is_Some (settlement e)) s ->
  length (omap settlement s) = length s.
Proof.
  induction 1 as [| e s [x He] _ IH]; simpl; [reflexivity |].
  rewrite He. simpl. f_equal. exact IH.
Qed.

Lemma settlement_not_request (e : event) :
  is_Some (settlement e) ->
  match e with Request i _ => Some i | _ => None end = None.
Proof. destruct e; intros [x H]; (reflexivity || discriminate H). Qed.

Lemma settlement_not_timeout (e : event) :
  is_Some (settlement e) ->
  match e with SetTimeout ms => Some ms | _ => None end = None.
Proof. destruct e; intros [x H]; (reflexivity || discriminate H). Qed.

Lemma observe_batch_trace (k : nat) (s : list event) :
  settles (batch k) s ->
  requested_indices (batch_trace k s) = batch k
  /\ settled_elements (batch_trace k s) ≡ₚ batch k
  /\ length (batch_trace k s)
     = (2 + 2 * length (batch k) + (if (k =? 0)%nat then 1 else 0))%nat.
Proof.
  intros [Hs Hperm]. split; [| split].
  - unfold requested_indices, batch_trace. simpl. rewrite !omap_app.
    fold (requested_indices (zip_with Request (batch k) (batch k))).
    rewrite requested_indices_requests.
    rewrite (omap_settlements _ s settlement_not_request Hs).
    simpl. destruct (k =? 0)%nat; simpl; now rewrite app_nil_r.
  - unfold settled_elements, batch_trace. simpl. rewrite !omap_app.
    rewrite omap_requests by reflexivity. simpl.
    destruct (k =? 0)%nat; simpl; now rewrite app_nil_r.
  - unfold batch_trace. simpl. rewrite !length_app, length_zip_with. simpl.
    pose proof (length_settlements s Hs) as E1.
    pose proof (Permutation_length Hperm) as E2.
    destruct (k =? 0)%nat; simpl; lia.
Qed.

Lemma requested_indices_app (a b : list event) :
  requested_indices (a ++ b) = requested_indices a ++ requested_indices b.
Proof. apply omap_app. Qed.

Lemma settled_elements_app (a b : list event) :
  settled_elements (a ++ b) = settled_elements a ++ settled_elements b.
Proof. apply omap_app. Qed.

Lemma observe_batches (ss : list (list event)) :
  forall k0,
    (forall j s, ss !! j = Some s -> settles (batch (k0 + j)) s) ->
    requested_indices (concat (imap (fun j => batch_trace (k0 + j)) ss))
    = concat (batch <$> seq k0 (length ss))
    /\ settled_elements (concat (imap (fun j => batch_trace (k0 + j)) ss))
       ≡ₚ concat (batch <$> seq k0 (length ss))
    /\ length (concat (imap (fun j => batch_trace (k0 + j)) ss))
       = sum_list
           ((fun k => 2 + 2 * length (batch k)
                      + (if (k =? 0)%nat then 1 else 0))%nat
              <$> seq k0 (length ss)).
Proof.
  induction ss as [| s ss IH]; intros k0 Hall;
    [split; [| split]; reflexivity |].
  assert (Htail : imap ((fun j => batch_trace (k0 + j)) ∘ S) ss
                  = imap (fun j => batch_trace (S k0 + j)) ss).
  { apply imap_ext. intros j x _. simpl. now rewrite Nat.add_succ_r. }
  rewrite imap_cons, Htail, Nat.add_0_r. cbn [concat].
  destruct (IH (S k0)) as (IH1 & IH2 & IH3).
  { intros j s' Hj. specialize (Hall (S j) s' Hj).
    now rewrite Nat.add_succ_r in Hall. }
  specialize (Hall 0%nat s eq_refl). rewrite Nat.add_0_r in Hall.
  destruct (observe_batch_trace k0 s Hall) as (H1 & H2 & H3).
  rewrite requested_indices_app, settled_elements_app, length_app.
  rewrite H1, H2, H3, IH1, IH2, IH3.
  split; [| split]; reflexivity.
Qed.

(** What a finished run lets observe. *)
Lemma observe_finished tr fin :
  run init tr fin -> pc fin = Finished ->
  requested_indices tr = seq 0 144
  /\ settled_elements tr ≡ₚ seq 0 144
  /\ length tr = 347%nat.
Proof.
  intros Hrun Hfin.
  destruct (loop_phase 29 0 0 init tr fin
              eq_refl eq_refl eq_refl inv_init Hrun Hfin)
    as (ss & Hlen & Hall & Htr).
  destruct (observe_batches ss 0 Hall) as (H1 & H2 & H3).
  rewrite <- Htr, Hlen in H1, H2, H3.
  split; [exact H1 |]. split; [exact H2 | exact H3].
Qed.

(** Every run is the beginning of a finished one. *)
Lemma run_extends tr st :
  run init tr st ->
  exists tr' fin, run st tr' fin /\ pc fin = Finished
                  /\ run init (tr ++ tr') fin.
Proof.
  intros Hrun.
  destruct (run_can_finish (fun _ => Broken) st (inv_run _ _ _ Hrun inv_init))
    as (tr' & fin & Hrun' & Hfin).
  exists tr', fin. split; [exact Hrun' |]. split; [exact Hfin |].
  eapply run_app; eassumption.
Qed.

End TraceFacts.

(** X4. Along any run the loads are started in index order without a gap
    or a repeat, and no element settles twice; when the loader has
    finished, a load has been started for each of the 144 indices exactly
    once and each of the 144 elements has settled exactly once. *)
Theorem each_image_requested_and_settled_once (tr : list Loader.event)
    (st : Loader.state) :
  Loader.run Loader.init tr st ->
  requested_indices tr `prefix_of` seq 0 144
  /\ NoDup (settled_elements tr)
  /\ (Loader.pc st = Loader.Finished ->
      requested_indices tr = seq 0 144
      /\ settled_elements tr ≡ₚ seq 0 144).
Proof.
  intros Hrun.
  destruct (run_extends tr st Hrun) as (tr' & fin & Hrun' & Hfin & Hfull).
  destruct (observe_finished _ _ Hfull Hfin) as (Hreq & Hset & _).
  rewrite requested_indices_app in Hreq.
  rewrite settled_elements_app in Hset.
  split; [| split].
  - exists (requested_indices tr'). now symmetry.
  - assert (Hnd : NoDup (settled_elements tr ++ settled_elements tr'))
      by (rewrite Hset; apply NoDup_seq).
    now apply NoDup_app in Hnd as (Hnd & _).
  - intros Hst. rewrite (run_finished _ _ _ Hrun' Hst) in Hreq, Hset.
    unfold requested_indices, settled_elements in Hreq, Hset.
    simpl in Hreq, Hset. rewrite app_nil_r in Hreq, Hset.
    split; assumption.
Qed.

Lemma each_image_requested_and_settled_once_witness :
  requested_indices (fst (Loader.loadAllImages all_load 30 Loader.init))
  = seq 0 144.
Proof.
  destruct (each_image_requested_and_settled_once
              (fst (Loader.loadAllImages all_load 30 Loader.init))
              (snd (Loader.loadAllImages all_load 30 Loader.init)))
    as (_ & _ & H).
  - apply loadAllImages_run, inv_init.
  - apply H. vm_compute. reflexivity.
Defined.

Section TimerFacts.

Import Loader.

Lemma timeouts_app (a b : list event) :
  timeouts (a ++ b) = timeouts a ++ timeouts b.
Proof. apply omap_app. Qed.

Lemma snapshots_app (a b : list event) :
  snapshots (a ++ b) = snapshots a ++ snapshots b.
Proof. apply omap_app. Qed.

(** Only the publication that ends the first batch sets a timer. *)
Lemma timeouts_run st tr st' :
  run st tr st' ->
  timeouts tr
  = match snapshots tr with
    | [] => []
    | _ :: _ => if at_first_batch st then [800%nat] else []
    end.
Proof.
  induction 1 as [| st evs st' tr st'' Hstep Hrun IH]; [reflexivity |].
  rewrite timeouts_app, snapshots_app, IH.
  destruct Hstep; unfold at_first_batch; simpl.
  - unfold timeouts, snapshots, requests.
    rewrite !omap_requests by reflexivity. reflexivity.
  - reflexivity.
  - reflexivity.
  - unfold publish, at_first_batch. simpl.
    replace (i + BATCH_SIZE =? 0)%nat with false
      by (symmetry; apply Nat.eqb_neq; unfold BATCH_SIZE; lia).
    destruct (i =? 0)%nat, (snapshots tr); reflexivity.
  - rewrite (run_finished _ _ _ Hrun eq_refl). reflexivity.
Qed.

End TimerFacts.

(** X5. The timer that hides the loading screen is set once, for 800
    milliseconds, by the publication of the first batch: no timer before a
    snapshot has been published, and none is added by a later batch. *)
Theorem loading_timer_set_once (tr : list Loader.event)
    (st : Loader.state) :
  Loader.run Loader.init tr st ->
  timeouts tr
  = match Loader.snapshots tr with [] => [] | _ :: _ => [800%nat] end.
Proof. intros Hrun. now rewrite (timeouts_run _ _ _ Hrun). Qed.

Lemma loading_timer_set_once_witness :
  timeouts (fst (Loader.loadAllImages all_load 30 Loader.init)) = [800%nat]
  /\ timeouts (Loader.LoadBatch 0 :: Loader.requests 0 (seq 0 5)) = [].
Proof.
  split.
  - rewrite (loading_timer_set_once _ _
               (loadAllImages_run all_load 30 Loader.init inv_init)).
    vm_compute. reflexivity.
  - rewrite (loading_timer_set_once _ _ first_batch_run). reflexivity.
Defined.

(** X6. The loader terminates: whatever it has done so far, it can run on
    to its end, every finished run consists of exactly 347 events (29
    calls, 144 requests, 144 settlements, 29 publications and one timer),
    and so no run is longer than that. *)
Theorem loader_terminates (tr : list Loader.event) (st : Loader.state) :
  Loader.run Loader.init tr st ->
  (length tr <= 347)%nat
  /\ (exists tr' fin,
        Loader.run st tr' fin /\ Loader.pc fin = Loader.Finished
        /\ length (tr ++ tr') = 347%nat)
  /\ (Loader.pc st = Loader.Finished -> length tr = 347%nat).
Proof.
  intros Hrun.
  destruct (run_extends tr st Hrun) as (tr' & fin & Hrun' & Hfin & Hfull).
  destruct (observe_finished _ _ Hfull Hfin) as (_ & _ & Hlen).
  split; [rewrite length_app in Hlen; lia |]. split.
  - exists tr', fin. repeat split; assumption.
  - intros Hst. rewrite (run_finished _ _ _ Hrun' Hst), app_nil_r in Hlen.
    exact Hlen.
Qed.

Lemma loader_terminates_witness :
  length (fst (Loader.loadAllImages all_load 30 Loader.init)) = 347%nat.
Proof.
  destruct (loader_terminates
              (fst (Loader.loadAllImages all_load 30 Loader.init))
              (snd (Loader.loadAllImages all_load 30 Loader.init)))
    as (_ & _ & H).
  - apply loadAllImages_run, inv_init.
  - apply H. vm_compute. reflexivity.
Defined.

(** ** More on rendering *)

(** What [drawImage] can do to a canvas: it records the call, keeps the
    size and the context state, and either leaves the bitmap alone or adds
    one layer, of an available image with finite arguments. *)
Lemma drawImage_cases (h : list HTMLImageElement) (img : nat)
    (sx sy sw sh dx dy dw dh : number) (cv : canvas) :
  drawImage h img sx sy sw sh dx dy dw dh cv
  = Returned (log (DrawImage img sx sy sw sh dx dy dw dh) cv)
  \/ (request (deref h img) = Broken
      /\ drawImage h img sx sy sw sh dx dy dw dh cv
         = Thrown "InvalidStateError"
             (log (DrawImage img sx sy sw sh dx dy dw dh) cv))
  \/ (exists qsx qsy qsw qsh qdx qdy qdw qdh nw nh,
        sx = Fin qsx /\ sy = Fin qsy /\ sw = Fin qsw /\ sh = Fin qsh
        /\ dx = Fin qdx /\ dy = Fin qdy /\ dw = Fin qdw /\ dh = Fin qdh
        /\ request (deref h img) = Available nw nh
        /\ drawImage h img sx sy sw sh dx dy dw dh cv
           = Returned
               (with_bitmap
                  (Drawn img qsx qsy qsw qsh qdx qdy qdw qdh :: bitmap cv)
                  (log (DrawImage img sx sy sw sh dx dy dw dh) cv))).
Proof.
  unfold drawImage.
  destruct sx; try (left; reflexivity).
  destruct sy; try (left; reflexivity).
  destruct sw; try (left; reflexivity).
  destruct sh; try (left; reflexivity).
  destruct dx; try (left; reflexivity).
  destruct dy; try (left; reflexivity).
  destruct dw; try (left; reflexivity).
  destruct dh; try (left; reflexivity).
  destruct (request (deref h img)) as [| nw nh |] eqn:Hreq.
  - left; reflexivity.
  - destruct ((nw =? 0)%N || (nh =? 0)%N); [left; reflexivity |].
    destruct (Qeq_bool _ 0 || Qeq_bool _ 0); [left; reflexivity |].
    right; right. repeat eexists.
  - right; left. split; reflexivity.
Qed.

(** What [render] leaves on an index that has an element. *)
Lemma render_result (heap : list HTMLImageElement)
    (images : list (option nat)) (index : Q) (cv : canvas) (img : nat) :
  array_get images (Math_round index) = Some img ->
  exists cv',
    render heap images index cv = Returned cv'
    /\ width cv' = width cv /\ height cv' = height cv
    /\ imageSmoothingEnabled cv' = true
    /\ imageSmoothingQuality cv' = "high"%string
    /\ (exists o, ops cv' = ops (cleared cv) ++ [o])
    /\ (bitmap cv' = []
        \/ exists nw nh qdx qdy qdw qdh,
             request (deref heap img) = Available nw nh
             /\ cover_rectangle (width cv) (height cv) nw nh
                = (Fin qdx, Fin qdy, Fin qdw, Fin qdh)
             /\ bitmap cv'
                = [Drawn img 0 0 (N2Q nw) (N2Q nh) qdx qdy qdw qdh]).
Proof.
  intros Hget.
  destruct (render_returns heap images index cv) as [cv' Hr].
  exists cv'. split; [exact Hr |].
  rewrite (render_unfold heap images index cv img Hget) in Hr.
  destruct (cover_rectangle _ _ _ _) as [[[dx dy] dw] dh] eqn:Hcover.
  destruct (drawImage_cases heap img (Fin 0) (Fin 0)
              (of_N (img_width (deref heap img)))
              (of_N (img_height (deref heap img))) dx dy dw dh (cleared cv))
    as [E | [[_ E] | E]].
  - rewrite E in Hr. injection Hr as <-.
    do 4 (split; [reflexivity |]).
    split; [eexists; reflexivity | now left].
  - rewrite E in Hr. discriminate Hr.
  - destruct E as (qsx & qsy & qsw & qsh & qdx & qdy & qdw & qdh & nw & nh
                   & Esx & Esy & Esw & Esh & -> & -> & -> & -> & Hreq & E).
    rewrite E in Hr. injection Hr as <-.
    do 4 (split; [reflexivity |]).
    split; [eexists; reflexivity |].
    right. exists nw, nh, qdx, qdy, qdw, qdh.
    unfold img_width, img_height in *. rewrite Hreq in *.
    injection Esx as <-. injection Esy as <-.
    injection Esw as <-. injection Esh as <-.
    split; [reflexivity |]. split; [exact Hcover | reflexivity].
Qed.

(** The layers [drawImage] leaves depend on the canvas only through the
    layers it finds. *)
Lemma drawImage_bitmap_fun (h : list HTMLImageElement) (img : nat)
    (sx sy sw sh dx dy dw dh : number) (cvA cvB a b : canvas) :
  drawImage h img sx sy sw sh dx dy dw dh cvA = Returned a ->
  drawImage h img sx sy sw sh dx dy dw dh cvB = Returned b ->
  bitmap cvA = bitmap cvB ->
  bitmap a = bitmap b.
Proof.
  unfold drawImage. intros HA HB Hbm.
  destruct sx; try (injection HA as <-; injection HB as <-; exact Hbm).
  destruct sy; try (injection HA as <-; injection HB as <-; exact Hbm).
  destruct sw; try (injection HA as <-; injection HB as <-; exact Hbm).
  destruct sh; try (injection HA as <-; injection HB as <-; exact Hbm).
  destruct dx; try (injection HA as <-; injection HB as <-; exact Hbm).
  destruct dy; try (injection HA as <-; injection HB as <-; exact Hbm).
  destruct dw; try (injection HA as <-; injection HB as <-; exact Hbm).
  destruct dh; try (injection HA as <-; injection HB as <-; exact Hbm).
  destruct (request (deref h img)) as [| nw nh |];
    try (injection HA as <-; injection HB as <-; exact Hbm);
    try discriminate HA.
  destruct ((nw =? 0)%N || (nh =? 0)%N);
    [injection HA as <-; injection HB as <-; exact Hbm |].
  destruct (Qeq_bool _ 0 || Qeq_bool _ 0);
    injection HA as <-; injection HB as <-; simpl in *; congruence.
Qed.

(** What [render] paints for an index that has an element depends on the
    canvas only through its size. *)
Lemma render_bitmap_by_size (heap : list HTMLImageElement)
    (images : list (option nat)) (index : Q) (cvA cvB a b : canvas)
    (img : nat) :
  array_get images (Math_round index) = Some img ->
  width cvA = width cvB -> height cvA = height cvB ->
  render heap images index cvA = Returned a ->
  render heap images index cvB = Returned b ->
  bitmap a = bitmap b.
Proof.
  intros Hget Hw Hh HA HB.
  rewrite (render_unfold heap images index cvA img Hget) in HA.
  rewrite (render_unfold heap images index cvB img Hget) in HB.
  rewrite Hw, Hh in HA.
  destruct (cover_rectangle _ _ _ _) as [[[dx dy] dw] dh].
  eapply drawImage_bitmap_fun; [exact HA | exact HB | reflexivity].
Qed.

(** X7. [render] never raises an exception, whatever the index and
    whatever has become of the image, failed loads included; it never
    changes the size of the canvas and never undoes an operation. *)
Theorem render_never_raises (heap : store) (images : array) (index : Q)
    (cv : canvas) :
  exists cv',
    render heap images index cv = Returned cv'
    /\ width cv' = width cv /\ height cv' = height cv
    /\ ops cv `prefix_of` ops cv'.
Proof.
  destruct (array_get images (Math_round index)) as [img |] eqn:Hget.
  - destruct (render_result heap images index cv img Hget)
      as (cv' & Hr & Hw & Hh & _ & _ & [o Hops] & _).
    exists cv'. repeat split; try assumption.
    rewrite Hops. unfold cleared. simpl. rewrite <- !app_assoc.
    now eexists.
  - exists cv. unfold render. rewrite Hget. repeat split; reflexivity.
Qed.

(** X8. After [render] on an index that has an element, nothing of what
    was on the canvas is left: the bitmap is empty or holds the one frame
    asked for, taken from its whole source rectangle, and the context is
    set to smooth with high quality. *)
Theorem render_leaves_one_frame (heap : store) (images : array) (index : Q)
    (cv cv' : canvas) (img : ref) :
  array_get images (Math_round index) = Some img ->
  render heap images index cv = Returned cv' ->
  (bitmap cv' = []
   \/ exists nw nh dx dy dw dh,
        request (deref heap img) = Available nw nh
        /\ bitmap cv' = [Drawn img 0 0 (N2Q nw) (N2Q nh) dx dy dw dh])
  /\ imageSmoothingEnabled cv' = true
  /\ imageSmoothingQuality cv' = "high"%string.
Proof.
  intros Hget Hr.
  destruct (render_result heap images index cv img Hget)
    as (cv1 & Hr1 & _ & _ & Hen & Hq & _ & Hbm).
  rewrite Hr in Hr1. injection Hr1 as <-.
  split; [| split; assumption].
  destruct Hbm as [E | (nw & nh & dx & dy & dw & dh & Hreq & _ & E)];
    [now left | right].
  exists nw, nh, dx, dy, dw, dh. split; assumption.
Qed.

Lemma render_leaves_one_frame_witness :
  exists cv',
    render (Loader.heap session_state) (Some <$> seq 0 40) 35
      surface_800x600 = Returned cv'
    /\ imageSmoothingQuality cv' = "high"%string.
Proof.
  destruct (render_returns (Loader.heap session_state)
              (Some <$> seq 0 40) 35 surface_800x600) as (cv' & Hr).
  exists cv'. split; [exact Hr |].
  apply (render_leaves_one_frame (Loader.heap session_state)
           (Some <$> seq 0 40) 35 surface_800x600 cv' 35%nat);
    [vm_compute; reflexivity | exact Hr].
Defined.

(** X9. Repainting is idempotent: a second [render] of the same index
    leaves the same picture, size and context state as the first. *)
Theorem render_idempotent (heap : store) (images : array) (index : Q)
    (cv cv1 cv2 : canvas) :
  render heap images index cv = Returned cv1 ->
  render heap images index cv1 = Returned cv2 ->
  bitmap cv2 = bitmap cv1
  /\ width cv2 = width cv1 /\ height cv2 = height cv1
  /\ imageSmoothingEnabled cv2 = imageSmoothingEnabled cv1
  /\ imageSmoothingQuality cv2 = imageSmoothingQuality cv1.
Proof.
  intros H1 H2.
  destruct (array_get images (Math_round index)) as [img |] eqn:Hget.
  - destruct (render_result heap images index cv img Hget)
      as (c1 & Hr1 & Hw1 & Hh1 & Hen1 & Hq1 & _).
    destruct (render_result heap images index cv1 img Hget)
      as (c2 & Hr2 & Hw2 & Hh2 & Hen2 & Hq2 & _).
    rewrite H1 in Hr1. injection Hr1 as <-.
    rewrite H2 in Hr2. injection Hr2 as <-.
    split; [| repeat split; congruence].
    symmetry.
    apply (render_bitmap_by_size heap images index cv cv1 cv1 cv2 img);
      assumption || (symmetry; assumption).
  - unfold render in H1, H2. rewrite Hget in H1, H2.
    injection H1 as <-. injection H2 as <-. repeat split; reflexivity.
Qed.

Lemma render_idempotent_witness :
  exists cv1 cv2,
    render (Loader.heap session_state) (Some <$> seq 0 40) 35
      surface_800x600 = Returned cv1
    /\ render (Loader.heap session_state) (Some <$> seq 0 40) 35 cv1
       = Returned cv2
    /\ bitmap cv2 = bitmap cv1.
Proof.
  destruct (render_returns (Loader.heap session_state)
              (Some <$> seq 0 40) 35 surface_800x600) as (cv1 & Hr1).
  destruct (render_returns (Loader.heap session_state)
              (Some <$> seq 0 40) 35 cv1) as (cv2 & Hr2).
  exists cv1, cv2. split; [exact Hr1 |]. split; [exact Hr2 |].
  apply (render_idempotent _ _ _ _ _ _ Hr1 Hr2).
Defined.

(** X10. [handleResize] gives the canvas the size of the window and
    returns; what was painted before is gone; and when the current frame
    has no element yet, the canvas is left blank, with the context back in
    its default state. *)
Theorem handleResize_takes_window_size (heap : store) (images : array)
    (innerWidth innerHeight : N) (current : Q) (cv : canvas) :
  exists cv',
    handleResize heap images innerWidth innerHeight current cv = Returned cv'
    /\ width cv' = innerWidth /\ height cv' = innerHeight
    /\ (length (bitmap cv') <= 1)%nat
    /\ (array_get images (Math_round current) = None ->
        bitmap cv' = [] /\ imageSmoothingQuality cv' = "low"%string
        /\ ops cv' = ops cv ++ [SetWidth innerWidth; SetHeight innerHeight]).
Proof.
  unfold handleResize.
  set (cv0 := set_height innerHeight (set_width innerWidth cv)).
  destruct (array_get images (Math_round current)) as [img |] eqn:Hget.
  - destruct (render_result heap images current cv0 img Hget)
      as (cv' & Hr & Hw & Hh & _ & _ & _ & Hbm).
    exists cv'. split; [exact Hr |].
    split; [exact Hw |]. split; [exact Hh |].
    split; [| intros H; discriminate H].
    destruct Hbm as [-> | (? & ? & ? & ? & ? & ? & _ & _ & ->)]; simpl; lia.
  - exists cv0. unfold render. rewrite Hget.
    repeat split; try reflexivity; [simpl; lia |].
    unfold cv0. simpl. now rewrite <- app_assoc.
Qed.

(** X11. After a resize to a window of positive size, a current frame that
    has loaded with a positive size is painted alone on a canvas of the
    new size, into the cover rectangle of that size as binary64 computes
    it: the scaled size covers the new surface up to two roundings and on
    one axis exceeds it by no more, and each offset is half the difference
    between surface and scaled size up to rounding. *)
Theorem handleResize_fills_window (heap : store) (images : array)
    (innerWidth innerHeight : N) (current : Q) (cv : canvas)
    (img : ref) (iw ih : N) :
  array_get images (Math_round current) = Some img ->
  request (deref heap img) = Available iw ih ->
  (0 < innerWidth)%N -> (0 < innerHeight)%N -> (0 < iw)%N -> (0 < ih)%N ->
  exists (dx dy dw dh : Q) (cv' : canvas),
    handleResize heap images innerWidth innerHeight current cv = Returned cv'
    /\ width cv' = innerWidth /\ height cv' = innerHeight
    /\ bitmap cv' = [Drawn img 0 0 (N2Q iw) (N2Q ih) dx dy dw dh]
    /\ cover_rectangle innerWidth innerHeight iw ih
       = (Fin dx, Fin dy, Fin dw, Fin dh)
    /\ N2Q innerWidth * ((1 - u64) * (1 - u64)) <= dw
    /\ N2Q innerHeight * ((1 - u64) * (1 - u64)) <= dh
    /\ (dw <= N2Q innerWidth * ((1 + u64) * (1 + u64))
        \/ dh <= N2Q innerHeight * ((1 + u64) * (1 + u64)))
    /\ Qabs (2 * dx - (N2Q innerWidth - dw))
       <= 3 * u64 * Qabs (N2Q innerWidth - dw)
    /\ Qabs (2 * dy - (N2Q innerHeight - dh))
       <= 3 * u64 * Qabs (N2Q innerHeight - dh).
Proof.
  intros Hget Hreq Hw Hh Hiw Hih.
  destruct (cover_rectangle_fit innerWidth innerHeight iw ih
              Hw Hh Hiw Hih)
    as (scale & dx & dy & dw & dh & Hcover & _ & _ & _ & _ & _ & Hfit).
  unfold handleResize.
  set (cv0 := set_height innerHeight (set_width innerWidth cv)).
  destruct (render_paints heap images current cv0 img iw ih
              Hget Hreq Hw Hh Hiw Hih)
    as (dx' & dy' & dw' & dh' & cv' & Hr & Hcover' & Hbm & _).
  change (width cv0) with innerWidth in Hcover'.
  change (height cv0) with innerHeight in Hcover'.
  rewrite Hcover in Hcover'. injection Hcover' as <- <- <- <-.
  destruct (render_result heap images current cv0 img Hget)
    as (c & Hc & Hcw & Hch & _).
  rewrite Hr in Hc. injection Hc as Ec. subst c.
  exists dx, dy, dw, dh, cv'.
  split; [exact Hr |]. split; [exact Hcw |]. split; [exact Hch |].
  split; [exact Hbm |]. split; [exact Hcover | exact Hfit].
Qed.

Lemma handleResize_fills_window_witness :
  exists (dx dy dw dh : Q) (cv' : canvas),
    handleResize (Loader.heap session_state) (Some <$> seq 0 40)
      1024 768 35 surface_800x600 = Returned cv'
    /\ width cv' = 1024%N /\ height cv' = 768%N
    /\ bitmap cv' = [Drawn 35%nat 0 0 (N2Q 1920) (N2Q 1080) dx dy dw dh]
    /\ N2Q 1024 * ((1 - u64) * (1 - u64)) <= dw
    /\ N2Q 768 * ((1 - u64) * (1 - u64)) <= dh.
Proof.
  destruct (handleResize_fills_window (Loader.heap session_state)
              (Some <$> seq 0 40) 1024 768 35 surface_800x600 35%nat
              1920 1080)
    as (dx & dy & dw & dh & cv' & Hr & Hw & Hh & Hbm & _ & H1 & H2 & _);
    [vm_compute; reflexivity | vm_compute; reflexivity
    | lia | lia | lia | lia |].
  exists dx, dy, dw, dh, cv'. repeat split; assumption.
Defined.

(** ** The page after the first publication *)

Section PageImages.

Import Page.

Variable has_ctx : bool.

(** A loader step that publishes is the one after the [await]. *)
Lemma publishing_step l evs l' :
  Loader.step l evs l' -> Loader.snapshots evs ≠ [] ->
  exists i h arr,
    l = {| Loader.heap := h; Loader.loadedImages := arr;
           Loader.pc := Loader.Awaiting i [] |}
    /\ l' = {| Loader.heap := h; Loader.loadedImages := arr;
               Loader.pc := Loader.AtLoop (i + Loader.BATCH_SIZE) |}
    /\ Loader.snapshots evs = [arr].
Proof.
  intros Hstep Hne. destruct Hstep; try (now exfalso; apply Hne).
  - exfalso. apply Hne. unfold Loader.snapshots, Loader.requests. simpl.
    now apply omap_requests.
  - exists i, h, arr. split; [reflexivity |]. split; [reflexivity |].
    unfold Loader.snapshots, Loader.publish, spread. rewrite map_id.
    simpl. now destruct (i =? 0)%nat.
Qed.

Lemma published_upto_quiet l evs l' :
  Loader.step l evs l' -> Loader.snapshots evs = [] ->
  published_upto l' = published_upto l.
Proof.
  intros Hstep Hq. destruct Hstep; unfold published_upto; simpl;
    try reflexivity.
  - rewrite imagePaths_length in *. lia.
  - unfold Loader.snapshots, Loader.publish in Hq. discriminate Hq.
  - rewrite imagePaths_length in *. lia.
Qed.

Lemma images_setImages s st : images (setImages has_ctx s st) = s.
Proof. reflexivity. Qed.

(** [images] is the beginning of [loadedImages] that the completed batches
    make up. *)
Lemma images_step st e st' :
  step has_ctx st e st' ->
  Loader.inv (loader st) ->
  images st = Some <$> seq 0 (published_upto (loader st)) ->
  images st' = Some <$> seq 0 (published_upto (loader st')).
Proof.
  intros Hstep Hinv Himg.
  destruct Hstep as [st evs l' Hstep | st p | st w h].
  - rewrite (loader_commit _ _ _ _ Hstep).
    destruct (Loader.snapshots evs) as [| s0 rest] eqn:Hsnap.
    + rewrite (commit_quiet has_ctx l' evs st Hsnap). simpl.
      now rewrite (published_upto_quiet _ _ _ Hstep Hsnap).
    + destruct (publishing_step _ _ _ Hstep) as (i & h & arr & El & -> & Es);
        [rewrite Hsnap; discriminate |].
      destruct (commit_cases has_ctx st evs _ Hstep)
        as [[Hq _] | (i' & _ & _ & ->)];
        [rewrite Hq in Hsnap; discriminate Hsnap |].
      rewrite images_setImages, El. simpl.
      rewrite El in Hinv. destruct Hinv as [Harr (_ & Hlen & _)].
      simpl in Harr, Hlen. rewrite Harr, Hlen.
      unfold published_upto. cbn [Loader.pc].
      now rewrite imagePaths_length.
  - now rewrite images_scroll, loader_scroll.
  - now rewrite images_resize, loader_resize.
Qed.

Lemma images_run st tr st' :
  run has_ctx st tr st' ->
  Loader.inv (loader st) ->
  images st = Some <$> seq 0 (published_upto (loader st)) ->
  images st' = Some <$> seq 0 (published_upto (loader st')).
Proof.
  induction 1 as [| st e st' tr st'' Hstep _ IH]; [trivial |].
  intros Hinv Himg. apply IH.
  - destruct Hstep as [st evs l' Hstep | st p | st w h].
    + rewrite (loader_commit _ _ _ _ Hstep). eapply inv_step; eassumption.
    + now rewrite loader_scroll.
    + now rewrite loader_resize.
  - eapply images_step; eassumption.
Qed.

(** What is published lies before what is in flight, inside the store. *)
Lemma published_before_pending (l : Loader.state) (i : nat) :
  Loader.inv l -> store_inv l ->
  (i < published_upto l)%nat ->
  (i < length (Loader.heap l))%nat /\ i ∉ Loader.pending l.
Proof.
  intros [_ Hpc] [_ Hdone]. unfold published_upto, Loader.pending.
  destruct (Loader.pc l) as [j | j ps |] eqn:E;
    rewrite ?imagePaths_length in *; intros Hi.
  - split; [lia | apply not_elem_of_nil].
  - destruct Hpc as (Hj & Hlen & _ & Hps). unfold Loader.BATCH_SIZE in *.
    split; [lia |]. intros Hin%Hps. lia.
  - split; [rewrite (Hdone eq_refl); lia | apply not_elem_of_nil].
Qed.

End PageImages.

(** X12. At any moment [images] holds exactly the frames of the batches
    completed so far, each in its own slot: nothing while the first batch
    is loading, and all 144 once the loader has finished. *)
Theorem images_are_the_completed_batches (has_ctx : bool)
    (canvas0 : option canvas) (w h : N) (p : Q)
    (tr : list Page.event) (st : Page.state) :
  Page.run has_ctx (Page.mount has_ctx canvas0 w h p) tr st ->
  Page.images st = Some <$> seq 0 (published_upto (Page.loader st))
  /\ (at_first_batch (Page.loader st) = true -> Page.images st = [])
  /\ (Loader.pc (Page.loader st) = Loader.Finished ->
      Page.images st = Some <$> seq 0 144).
Proof.
  intros Hrun.
  pose proof (images_run has_ctx _ _ _ Hrun inv_init eq_refl) as Himg.
  split; [exact Himg |]. split.
  - rewrite Himg. unfold at_first_batch, published_upto.
    destruct (Loader.pc (Page.loader st)) as [i | i ps |];
      try discriminate; intros ->%Nat.eqb_eq; reflexivity.
  - rewrite Himg. unfold published_upto. now intros ->.
Qed.

Lemma images_are_the_completed_batches_witness :
  Page.images (Page.resize 800 600 (Page.mount true (Some fresh) 1024 768 0))
  = [].
Proof.
  destruct (images_are_the_completed_batches true (Some fresh) 1024 768 0
              [Page.Resize 800 600]
              (Page.resize 800 600 (Page.mount true (Some fresh) 1024 768 0)))
    as (_ & H & _).
  - eapply Page.run_cons; [apply Page.step_resize | apply Page.run_nil].
  - apply H. reflexivity.
Defined.

(** X13. Every element the page has in [images] has settled, loaded or
    failed, before it was published, sits in the slot of its own index and
    was requested from the file numbered one more than that index. *)
Theorem published_images_have_settled (has_ctx : bool)
    (canvas0 : option canvas) (w h : N) (p : Q)
    (tr : list Page.event) (st : Page.state) (i : nat) (img : ref) :
  Page.run has_ctx (Page.mount has_ctx canvas0 w h p) tr st ->
  Page.images st !! i = Some (Some img) ->
  img = i
  /\ request (deref (Loader.heap (Page.loader st)) img) ≠ Unavailable
  /\ src (deref (Loader.heap (Page.loader st)) img) = numbered_path i.
Proof.
  intros Hrun Hslot.
  pose proof (images_run has_ctx _ _ _ Hrun inv_init eq_refl) as Himg.
  destruct (reachable_inv _ _ (run_loader has_ctx _ _ _ Hrun))
    as [Hinv Hst].
  rewrite Himg in Hslot. apply lookup_upto in Hslot as [-> Hi].
  destruct (published_before_pending _ i Hinv Hst Hi) as [Hlt Hnot].
  destruct (lookup_lt_is_Some_2 _ _ Hlt) as [o Ho].
  destruct Hst as [Hst _]. destruct (Hst i o Ho) as [Hsrc Hreq].
  unfold deref. rewrite Ho. simpl.
  split; [reflexivity |]. split; [now rewrite Hreq |].
  assert (Hi144 : (i < 144)%nat).
  { apply lookup_lt_Some in Hsrc. now rewrite imagePaths_length in Hsrc. }
  rewrite imagePaths_numbered, list_lookup_fmap, lookup_seq_lt in Hsrc
    by exact Hi144.
  simpl in Hsrc. now injection Hsrc as <-.
Qed.

Lemma published_images_have_settled_witness :
  exists st : Page.state,
    Page.images st !! 3%nat = Some (Some 3%nat)
    /\ src (deref (Loader.heap (Page.loader st)) 3)
       = "/headphone-seqs/00004.png"%string.
Proof.
  destruct (page_run_of_loader true
              (Page.mount true (Some fresh) 1024 768 0)
              (fst (Loader.loadAllImages all_load 1 Loader.init))
              (snd (Loader.loadAllImages all_load 1 Loader.init)))
    as (ptr & st & Hrun & Hl & _).
  { apply loadAllImages_run, inv_init. }
  assert (Hslot : Page.images st !! 3%nat = Some (Some 3%nat)).
  { rewrite (images_run true _ _ _ Hrun inv_init eq_refl), Hl.
    vm_compute. reflexivity. }
  exists st. split; [exact Hslot |].
  destruct (published_images_have_settled true (Some fresh) 1024 768 0
              ptr st 3%nat 3%nat Hrun Hslot) as (_ & _ & H).
  exact H.
Defined.

(** ** The page in sync *)

(** [render] looks at the store only through the element it finds. *)
Lemma render_heap_ext (h h' : list HTMLImageElement)
    (images : list (option nat)) (index : Q) (cv : canvas) :
  (forall img, array_get images (Math_round index) = Some img ->
               deref h' img = deref h img) ->
  render h' images index cv = render h images index cv.
Proof.
  intros E. unfold render, drawImage.
  destruct (array_get images (Math_round index)) as [img |];
    [| reflexivity].
  now rewrite (E img eq_refl).
Qed.

(** [render] looks at the index only through its rounding. *)
Lemma render_index_ext (h : list HTMLImageElement)
    (images : list (option nat)) (i1 i2 : Q) (cv : canvas) :
  i1 == i2 -> render h images i1 cv = render h images i2 cv.
Proof.
  intros E. unfold render. now rewrite (Math_round_comp i1 i2 E).
Qed.

Lemma array_get_upto (m : nat) (z : Z) (img : nat) :
  array_get (Some <$> seq 0 m) z = Some img ->
  (Some <$> seq 0 m : list (option nat)) !! img = Some (Some img).
Proof.
  unfold array_get. destruct (z <? 0)%Z; [discriminate |].
  destruct ((Some <$> seq 0 m : list (option nat)) !! Z.to_nat z)
    as [[x |] |] eqn:E; simpl; try discriminate.
  intros [= ->]. apply lookup_upto in E as [-> Hlt].
  apply lookup_upto. split; [reflexivity | lia].
Qed.


(** A canvas that shows published frames only still does after [render],
    keeps its size, and is then up to date for the index rendered. *)
Lemma rendered_in_sync (h : list HTMLImageElement) (m : nat) (p : Q)
    (cv cv' : canvas) :
  render h (Some <$> seq 0 m) (frameIndex p) cv = Returned cv' ->
  shows_published h (Some <$> seq 0 m) cv ->
  width cv' = width cv /\ height cv' = height cv
  /\ shows_published h (Some <$> seq 0 m) cv'
  /\ up_to_date h (Some <$> seq 0 m) p cv'.
Proof.
  intros Hr Hshows.
  destruct (array_get (Some <$> seq 0 m) (Math_round (frameIndex p)))
    as [img |] eqn:Hget.
  - destruct (render_result h _ (frameIndex p) cv img Hget)
      as (c & Hc & Hw & Hh & _ & _ & _ & Hbm).
    rewrite Hr in Hc. injection Hc as Ec. subst c.
    split; [exact Hw |]. split; [exact Hh |]. split.
    + unfold shows_published.
      destruct Hbm as [E | (nw & nh & dx & dy & dw & dh & Hreq & _ & E)];
        rewrite E; split; try (simpl; lia).
      * intros ? ? ? ? ? ? ? ? ? Hin. now apply elem_of_nil in Hin.
      * intros ? ? ? ? ? ? ? ? ? Hin.
        apply list_elem_of_singleton in Hin. inversion Hin; subst.
        split; [exact (array_get_upto m _ img Hget) | eauto].
    + intros cv1 Hr1. symmetry.
      exact (render_bitmap_by_size h (Some <$> seq 0 m) (frameIndex p)
               cv cv' cv' cv1 img Hget (eq_sym Hw) (eq_sym Hh) Hr Hr1).
  - unfold render in Hr. rewrite Hget in Hr. injection Hr as <-.
    split; [reflexivity |]. split; [reflexivity |].
    split; [exact Hshows |].
    intros cv1 Hr1. unfold render in Hr1. rewrite Hget in Hr1.
    now injection Hr1 as <-.
Qed.

Lemma shows_published_blank (h : list HTMLImageElement)
    (images : list (option nat)) (cv : canvas) :
  bitmap cv = [] -> shows_published h images cv.
Proof.
  intros E. unfold shows_published. rewrite E. split; [simpl; lia |].
  intros ? ? ? ? ? ? ? ? ? Hin. now apply elem_of_nil in Hin.
Qed.

Section InSync.

Import Page.

Variable cv0 : canvas.

(** A published element is not touched by a step of the loader. *)
Lemma published_stable (l l' : Loader.state) (evs : list Loader.event)
    (i : nat) :
  Loader.step l evs l' -> Loader.inv l -> store_inv l ->
  (i < published_upto l)%nat ->
  deref (Loader.heap l') i = deref (Loader.heap l) i.
Proof.
  intros Hstep Hinv Hst Hi.
  destruct (published_before_pending l i Hinv Hst Hi) as [Hlt Hnot].
  unfold deref. f_equal.
  apply (run_settled_stays l (evs ++ []) l'); try assumption.
  eapply Loader.run_cons; [exact Hstep | apply Loader.run_nil].
Qed.

Lemma in_sync_quiet st l' evs :
  Loader.step (loader st) evs l' ->
  Loader.inv (loader st) -> store_inv (loader st) ->
  images st = Some <$> seq 0 (published_upto (loader st)) ->
  in_sync st ->
  in_sync {| loader := l'; images := images st;
             smoothProgress := smoothProgress st;
             innerWidth := innerWidth st; innerHeight := innerHeight st;
             canvasRef := canvasRef st;
             resize_handler := resize_handler st;
             change_handler := change_handler st;
             errors := errors st |}.
Proof.
  intros Hstep Hinv Hst Himg [Herr Hlive]. split; [exact Herr |].
  cbn [images resize_handler change_handler canvasRef innerWidth
         innerHeight loader smoothProgress].
  intros Hne. destruct (Hlive Hne)
    as (Hr & Hc & cv & Hcv & Hw & Hh & [Hlen Hdrawn] & Hup).
  split; [exact Hr |]. split; [exact Hc |].
  exists cv. split; [exact Hcv |]. split; [exact Hw |]. split; [exact Hh |].
  assert (Hstable : forall img, images st !! img = Some (Some img) ->
            deref (Loader.heap l') img = deref (Loader.heap (loader st)) img).
  { intros img Himg'. rewrite Himg in Himg'.
    apply lookup_upto in Himg' as [_ Hlt].
    now apply (published_stable _ _ evs). }
  split; [split; [exact Hlen |] |].
  - intros img sx sy sw sh dx dy dw dh Hin.
    destruct (Hdrawn _ _ _ _ _ _ _ _ _ Hin) as [Hslot Hav].
    split; [exact Hslot |]. now rewrite (Hstable img Hslot).
  - intros cv1 Hr1. apply Hup. rewrite <- Hr1. symmetry.
    apply render_heap_ext. intros img Hget. apply Hstable.
    rewrite Himg in Hget |- *. now apply array_get_upto in Hget.
Qed.

(** The effect run on a non-empty [images], with a context and a canvas. *)
Lemma run_effect_live st cv m :
  canvasRef st = Some cv ->
  images st = Some <$> seq 0 (S m) ->
  errors st = [] ->
  in_sync (run_effect true st).
Proof.
  intros Hcv Himg Herr.
  unfold run_effect, canvasEffect. rewrite Hcv, Himg.
  rewrite length_fmap, length_seq. cbn [Nat.eqb negb].
  unfold handleResize.
  set (cvr := set_height (innerHeight st) (set_width (innerWidth st) cv)).
  destruct (render_returns (Loader.heap (loader st)) (Some <$> seq 0 (S m))
              (frameIndex (smoothProgress st)) cvr) as [cv' Hr].
  rewrite Hr.
  destruct (rendered_in_sync _ _ _ _ _ Hr
              (shows_published_blank _ _ cvr eq_refl))
    as (Hw & Hh & Hshows & Hup).
  split; [cbn [errors uncaught option_list]; now rewrite Herr |].
  cbn [images resize_handler change_handler canvasRef innerWidth
         innerHeight loader smoothProgress resize_listener
         change_subscription surface].
  intros _.
  split; [reflexivity |]. split; [reflexivity |].
  exists cv'. split; [reflexivity |].
  split; [now rewrite Hw |]. split; [now rewrite Hh |].
  split; assumption.
Qed.

Lemma in_sync_step st e st' :
  step true st e st' ->
  inv (Some cv0) st -> store_inv (loader st) ->
  images st = Some <$> seq 0 (published_upto (loader st)) ->
  in_sync st -> in_sync st'.
Proof.
  intros Hstep (Hinv & _ & Hidle) Hst Himg Hsync.
  assert (Hcanvas : exists cv, canvasRef st = Some cv).
  { destruct (decide (images st = [])) as [E | Hne].
    - destruct (Hidle E) as (_ & _ & -> & _). eauto.
    - destruct Hsync as [_ Hlive].
      destruct (Hlive Hne) as (_ & _ & cv & Hcv & _). eauto. }
  destruct Hcanvas as [cv Hcv].
  destruct Hstep as [st evs l' Hstep | st p | st w h].
  - destruct (Loader.snapshots evs) as [| s0 rest] eqn:Hsnap.
    + rewrite (commit_quiet true l' evs st Hsnap).
      now apply (in_sync_quiet st l' evs).
    + destruct (publishing_step _ _ _ Hstep) as (i & h & arr & El & -> & Es);
        [rewrite Hsnap; discriminate |].
      destruct (commit_cases true st evs _ Hstep)
        as [[Hq _] | (i' & _ & _ & ->)];
        [rewrite Hq in Hsnap; discriminate Hsnap |].
      rewrite El in Hinv. destruct Hinv as [Harr (Hi & Hlen & _)].
      simpl in Harr, Hlen.
      destruct (length h) as [| m] eqn:Elen;
        [unfold Loader.BATCH_SIZE in Hlen; lia |].
      unfold setImages. apply (run_effect_live _ cv m).
      * exact Hcv.
      * cbn [images]. rewrite El. simpl. exact Harr.
      * now destruct Hsync.
  - unfold scroll.
    destruct (Qeq_bool (frameIndex p) (frameIndex (smoothProgress st)))
      eqn:Eq.
    + apply Qeq_bool_iff in Eq. destruct Hsync as [Herr Hlive].
      split; [exact Herr |].
      cbn [images resize_handler change_handler canvasRef innerWidth
             innerHeight loader smoothProgress].
      intros Hne. destruct (Hlive Hne)
        as (Hr & Hc & c & Hc' & Hw & Hh & Hshows & Hup).
      split; [exact Hr |]. split; [exact Hc |].
      exists c. repeat (split; [assumption |]).
      intros cv1 Hr1. apply Hup. rewrite <- Hr1.
      now apply render_index_ext.
    + destruct (decide (images st = [])) as [E | Hne].
      * destruct (Hidle E) as (_ & Hc & _ & _). rewrite Hc.
        destruct Hsync as [Herr _]. split; [exact Herr |].
        cbn [images]. intros Hne. now exfalso.
      * destruct Hsync as [Herr Hlive].
        destruct (Hlive Hne)
          as (Hr & Hc & c & Hc' & Hw & Hh & Hshows & Hup).
        rewrite Hc, Hc'. rewrite Himg in *.
        destruct (render_returns (Loader.heap (loader st))
                    (Some <$> seq 0 (published_upto (loader st)))
                    (frameIndex p) c) as [c' Hrc].
        rewrite Hrc.
        destruct (rendered_in_sync _ _ _ _ _ Hrc Hshows)
          as (Hw' & Hh' & Hshows' & Hup').
        split; [cbn [errors with_canvas]; now rewrite Herr |].
        cbn [images resize_handler change_handler canvasRef innerWidth
               innerHeight loader smoothProgress with_canvas].
        intros _.
        split; [exact Hr || reflexivity |].
        split; [exact Hc || reflexivity |].
        exists c'. split; [reflexivity |].
        split; [now rewrite Hw' |]. split; [now rewrite Hh' |].
        split; assumption.
  - unfold resize.
    destruct (decide (images st = [])) as [E | Hne].
    + destruct (Hidle E) as (Hr & _ & _ & _). rewrite Hr.
      destruct Hsync as [Herr _]. split; [exact Herr |].
      cbn [images]. intros Hne. now exfalso.
    + destruct Hsync as [Herr Hlive].
      destruct (Hlive Hne)
        as (Hr & Hc & c & Hc' & Hw & Hh & Hshows & Hup).
      rewrite Hr, Hc'. rewrite Himg in *.
      unfold handleResize.
      set (cvr := set_height h (set_width w c)).
      destruct (render_returns (Loader.heap (loader st))
                  (Some <$> seq 0 (published_upto (loader st)))
                  (frameIndex (smoothProgress st)) cvr) as [c' Hrc].
      rewrite Hrc.
      destruct (rendered_in_sync _ _ _ _ _ Hrc
                  (shows_published_blank _ _ cvr eq_refl))
        as (Hw' & Hh' & Hshows' & Hup').
      split; [cbn [errors with_canvas]; now rewrite Herr |].
      cbn [images resize_handler change_handler canvasRef innerWidth
             innerHeight loader smoothProgress with_canvas].
      intros _.
        split; [exact Hr || reflexivity |].
        split; [exact Hc || reflexivity |].
      exists c'. split; [reflexivity |].
      split; [now rewrite Hw' |]. split; [now rewrite Hh' |].
      split; assumption.
Qed.

End InSync.

(** ** Runs of the page *)

Section InSyncRun.

Variable cv0 : canvas.

Lemma in_sync_mount (w h : N) (p : Q) :
  in_sync (Page.mount true (Some cv0) w h p).
Proof.
  split; [reflexivity |]. intros Hne. exfalso. apply Hne. reflexivity.
Qed.

Lemma in_sync_run st tr st' :
  Page.run true st tr st' ->
  Page.inv (Some cv0) st -> store_inv (Page.loader st) ->
  Page.images st = Some <$> seq 0 (published_upto (Page.loader st)) ->
  in_sync st -> in_sync st'.
Proof.
  induction 1 as [| st e st' tr st'' Hstep _ IH]; [trivial |].
  intros Hinv Hst Himg Hsync. apply IH.
  - eapply inv_step_page; eassumption.
  - destruct Hinv as [Hl _].
    destruct Hstep as [st evs l' Hstep | st p | st w h].
    + rewrite (loader_commit _ _ _ _ Hstep).
      eapply store_inv_step; eassumption.
    + now rewrite loader_scroll.
    + now rewrite loader_resize.
  - destruct Hinv as [Hl _]. eapply images_step; eassumption.
  - eapply in_sync_step; eassumption.
Qed.

Lemma reachable_in_sync (w h : N) (p : Q) tr st :
  Page.run true (Page.mount true (Some cv0) w h p) tr st -> in_sync st.
Proof.
  intros Hrun. apply (in_sync_run _ _ _ Hrun).
  - apply inv_mount.
  - apply store_inv_init.
  - reflexivity.
  - apply in_sync_mount.
Qed.

End InSyncRun.

(** Without a context or without a canvas the effect leaves everything as
    it was, whatever [images] holds. *)
Lemma idle_step (has_ctx : bool) (canvas0 : option canvas)
    (st : Page.state) (e : Page.event) (st' : Page.state) :
  has_ctx = false \/ canvas0 = None ->
  Page.step has_ctx st e st' ->
  Page.canvasRef st = canvas0 /\ Page.resize_handler st = None
  /\ Page.change_handler st = None /\ Page.errors st = [] ->
  Page.canvasRef st' = canvas0 /\ Page.resize_handler st' = None
  /\ Page.change_handler st' = None /\ Page.errors st' = [].
Proof.
  intros Hno Hstep (Hcv & Hr & Hc & Herr).
  destruct Hstep as [st evs l' Hstep | st p | st w h].
  - destruct (commit_cases has_ctx st evs l' Hstep)
      as [[_ ->] | (i & _ & _ & ->)].
    + now repeat split.
    + unfold Page.setImages, Page.run_effect, canvasEffect.
      cbn [Page.canvasRef Page.images Page.errors Page.resize_handler
             Page.change_handler Page.loader Page.innerWidth
             Page.innerHeight Page.smoothProgress].
      rewrite Hcv, Herr.
      destruct (length _ =? 0)%nat; [now repeat split |].
      destruct Hno as [-> | ->]; [| now repeat split].
      destruct canvas0; now repeat split.
  - unfold Page.scroll. rewrite Hc.
    destruct (Qeq_bool _ _); now repeat split.
  - unfold Page.resize. rewrite Hr. now repeat split.
Qed.

Lemma idle_run (has_ctx : bool) (canvas0 : option canvas)
    (st : Page.state) (tr : list Page.event) (st' : Page.state) :
  has_ctx = false \/ canvas0 = None ->
  Page.run has_ctx st tr st' ->
  Page.canvasRef st = canvas0 /\ Page.resize_handler st = None
  /\ Page.change_handler st = None /\ Page.errors st = [] ->
  Page.canvasRef st' = canvas0 /\ Page.resize_handler st' = None
  /\ Page.change_handler st' = None /\ Page.errors st' = [].
Proof.
  intros Hno. induction 1 as [| st e st' tr st'' Hstep _ IH]; [trivial |].
  intros Hidle. apply IH. eapply idle_step; eassumption.
Qed.

(** A run of the page up to the first publication, every image loading,
    in a window of 1024 by 768 at progress 0. *)
Lemma first_publication (has_ctx : bool) (canvas0 : option canvas) :
  exists ptr st,
    Page.run has_ctx (Page.mount has_ctx canvas0 1024 768 0) ptr st
    /\ Page.images st = Some <$> seq 0 5
    /\ Page.loader st = snd (Loader.loadAllImages all_load 1 Loader.init)
    /\ Page.smoothProgress st = 0
    /\ Page.innerWidth st = 1024%N /\ Page.innerHeight st = 768%N.
Proof.
  destruct (page_run_of_loader has_ctx
              (Page.mount has_ctx canvas0 1024 768 0)
              (fst (Loader.loadAllImages all_load 1 Loader.init))
              (snd (Loader.loadAllImages all_load 1 Loader.init)))
    as (ptr & st & Hrun & Hl & _ & Hp & Hw & Hh).
  { apply loadAllImages_run, inv_init. }
  exists ptr, st. split; [exact Hrun |]. split; [| now repeat split].
  rewrite (images_run has_ctx _ _ _ Hrun inv_init eq_refl), Hl.
  vm_compute. reflexivity.
Qed.

(** X14. On a page with a canvas and a context, no exception ever escapes
    the effect or a handler, and from the first publication on the resize
    listener and the change subscriber are both installed and close over
    the [images] of the latest publication, never over an earlier one. *)
Theorem handlers_follow_images (cv0 : canvas) (w h : N) (p : Q)
    (tr : list Page.event) (st : Page.state) :
  Page.run true (Page.mount true (Some cv0) w h p) tr st ->
  Page.errors st = []
  /\ (Page.images st ≠ [] ->
      Page.resize_handler st = Some (Page.images st)
      /\ Page.change_handler st = Some (Page.images st)).
Proof.
  intros Hrun.
  destruct (reachable_in_sync cv0 w h p tr st Hrun) as [Herr Hlive].
  split; [exact Herr |]. intros Hne.
  destruct (Hlive Hne) as (Hr & Hc & _). now split.
Qed.

Lemma handlers_follow_images_witness :
  exists st : Page.state,
    Page.images st = Some <$> seq 0 5
    /\ Page.resize_handler st = Some (Some <$> seq 0 5)
    /\ Page.change_handler st = Some (Some <$> seq 0 5).
Proof.
  destruct (first_publication true (Some fresh))
    as (ptr & st & Hrun & Himg & _).
  destruct (handlers_follow_images fresh 1024 768 0 ptr st Hrun)
    as [_ Hlive].
  exists st. split; [exact Himg |].
  rewrite <- Himg. apply Hlive. rewrite Himg. discriminate.
Defined.

(** X15. On a page with a canvas and a context, from the first publication
    on the canvas has the size of the window: the effect sizes it when it
    runs and the resize listener follows every resize. *)
Theorem canvas_has_window_size (cv0 : canvas) (w h : N) (p : Q)
    (tr : list Page.event) (st : Page.state) :
  Page.run true (Page.mount true (Some cv0) w h p) tr st ->
  Page.images st ≠ [] ->
  exists cv,
    Page.canvasRef st = Some cv
    /\ width cv = Page.innerWidth st
    /\ height cv = Page.innerHeight st.
Proof.
  intros Hrun Hne.
  destruct (reachable_in_sync cv0 w h p tr st Hrun) as [_ Hlive].
  destruct (Hlive Hne) as (_ & _ & cv & Hcv & Hw & Hh & _).
  exists cv. now repeat split.
Qed.

Lemma canvas_has_window_size_witness :
  exists (st : Page.state) (cv : canvas),
    Page.canvasRef (Page.resize 800 600 st) = Some cv
    /\ width cv = 800%N /\ height cv = 600%N.
Proof.
  destruct (first_publication true (Some fresh))
    as (ptr & st & Hrun & Himg & _).
  assert (Hrun' : Page.run true (Page.mount true (Some fresh) 1024 768 0)
                    (ptr ++ [Page.Resize 800 600]) (Page.resize 800 600 st)).
  { clear Himg. induction Hrun as [st | st e st' tr st'' Hstep _ IH].
    - eapply Page.run_cons; [apply Page.step_resize | apply Page.run_nil].
    - eapply Page.run_cons; [exact Hstep | exact IH]. }
  destruct (canvas_has_window_size fresh 1024 768 0 _ _ Hrun')
    as (cv & Hcv & Hw & Hh).
  { rewrite images_resize, Himg. discriminate. }
  exists st, cv. split; [exact Hcv |].
  split.
  - rewrite Hw. unfold Page.resize.
    destruct (Page.resize_handler st), (Page.canvasRef st); reflexivity.
  - rewrite Hh. unfold Page.resize.
    destruct (Page.resize_handler st), (Page.canvasRef st); reflexivity.
Defined.

(** X16. On a page with a canvas and a context, from the first publication
    on the canvas holds at most one picture, the picture is of an element
    that [images] has in its own slot and that loaded, and rendering the
    frame of the current progress once more would leave the same
    picture. *)
Theorem canvas_shows_current_frame (cv0 : canvas) (w h : N) (p : Q)
    (tr : list Page.event) (st : Page.state) :
  Page.run true (Page.mount true (Some cv0) w h p) tr st ->
  Page.images st ≠ [] ->
  exists cv,
    Page.canvasRef st = Some cv
    /\ shows_published (Loader.heap (Page.loader st)) (Page.images st) cv
    /\ up_to_date (Loader.heap (Page.loader st)) (Page.images st)
         (Page.smoothProgress st) cv.
Proof.
  intros Hrun Hne.
  destruct (reachable_in_sync cv0 w h p tr st Hrun) as [_ Hlive].
  destruct (Hlive Hne) as (_ & _ & cv & Hcv & _ & _ & Hshows & Hup).
  exists cv. split; [exact Hcv | split; assumption].
Qed.

Lemma canvas_shows_current_frame_witness :
  exists (st : Page.state) (cv : canvas),
    Page.canvasRef st = Some cv /\ (length (bitmap cv) <= 1)%nat.
Proof.
  destruct (first_publication true (Some fresh))
    as (ptr & st & Hrun & Himg & _).
  destruct (canvas_shows_current_frame fresh 1024 768 0 ptr st Hrun)
    as (cv & Hcv & [Hlen _] & _).
  { rewrite Himg. discriminate. }
  exists st, cv. split; [exact Hcv | exact Hlen].
Defined.

(** X17. A page whose canvas is not mounted, or whose canvas gives no 2D
    context, never installs a handler and never touches the canvas, also
    after images have been published. *)
Theorem no_canvas_no_rendering (has_ctx : bool) (canvas0 : option canvas)
    (w h : N) (p : Q) (tr : list Page.event) (st : Page.state) :
  has_ctx = false \/ canvas0 = None ->
  Page.run has_ctx (Page.mount has_ctx canvas0 w h p) tr st ->
  Page.canvasRef st = canvas0
  /\ Page.resize_handler st = None
  /\ Page.change_handler st = None
  /\ Page.errors st = [].
Proof.
  intros Hno Hrun.
  apply (idle_run has_ctx canvas0 _ _ _ Hno Hrun).
  repeat split; reflexivity.
Qed.

Lemma no_canvas_no_rendering_witness :
  exists st : Page.state,
    Page.images st = Some <$> seq 0 5
    /\ Page.canvasRef st = Some fresh
    /\ Page.resize_handler st = None.
Proof.
  destruct (first_publication false (Some fresh))
    as (ptr & st & Hrun & Himg & _).
  destruct (no_canvas_no_rendering false (Some fresh) 1024 768 0 ptr st
              (or_introl eq_refl) Hrun) as (Hcv & Hr & _).
  exists st. now repeat split.
Defined.

(** ** The loading screen *)

Section FirstBatch.

Import Loader.

(** Until something is published the loader stays at its first batch. *)
Lemma first_batch_step st evs st' :
  step st evs st' -> at_first_batch st = true -> snapshots evs = [] ->
  at_first_batch st' = true.
Proof.
  intros Hstep H1 Hq.
  destruct Hstep; unfold at_first_batch in *; simpl in *; try assumption.
  - unfold snapshots, publish in Hq. discriminate Hq.
  - apply Nat.eqb_eq in H1. subst i. exfalso. apply H.
    rewrite ?imagePaths_length. lia.
Qed.

Lemma first_batch_run_quiet st tr st' :
  run st tr st' -> at_first_batch st = true -> snapshots tr = [] ->
  at_first_batch st' = true.
Proof.
  induction 1 as [| st evs st1 tr st2 Hstep _ IH]; [trivial |].
  intros H1 Hq. rewrite snapshots_app in Hq.
  apply app_eq_nil in Hq as [Hevs Htr].
  apply IH; [| exact Htr]. eapply first_batch_step; eassumption.
Qed.

(** Once something has been published, the first five elements are in the
    store and have settled. *)
Lemma first_batch_settled st tr st' :
  run st tr st' -> inv st -> store_inv st ->
  at_first_batch st = true -> snapshots tr ≠ [] ->
  forall r, (r < 5)%nat ->
    exists o, heap st' !! r = Some o /\ request o ≠ Unavailable.
Proof.
  induction 1 as [| st evs st1 tr st2 Hstep Hrun IH];
    intros Hinv Hst H1 Hne r Hr; [exfalso; apply Hne; reflexivity |].
  pose proof (inv_step _ _ _ Hinv Hstep) as Hinv1.
  destruct (snapshots evs) as [| s0 rest] eqn:Hq.
  - apply IH; try assumption.
    + exact (store_inv_step _ _ _ Hinv Hst Hstep).
    + exact (first_batch_step _ _ _ Hstep H1 Hq).
    + rewrite snapshots_app, Hq in Hne. exact Hne.
  - destruct (publishing_step _ _ _ Hstep) as (i & h & arr & -> & -> & _);
      [rewrite Hq; discriminate |].
    unfold at_first_batch in H1. simpl in H1. apply Nat.eqb_eq in H1.
    subst i. destruct Hinv as [_ (_ & Hlen & _)]. simpl in Hlen.
    unfold BATCH_SIZE in Hlen.
    destruct (lookup_lt_is_Some_2 h r) as [o Ho]; [lia |].
    destruct Hst as [Hst _]. destruct (Hst r o Ho) as [_ Hreq].
    simpl in Hreq. exists o. split.
    + rewrite (run_settled_stays _ _ _ Hrun Hinv1 r); [exact Ho | |].
      * simpl. lia.
      * apply not_elem_of_nil.
    + intros E. apply Hreq in E. now apply elem_of_nil in E.
Qed.

End FirstBatch.

Section LoadingFacts.

Lemma loading_run_app a t b :
  Loading.run a t b ->
  forall t' c, Loading.run b t' c -> Loading.run a (t ++ t') c.
Proof.
  induction 1 as [| a e a1 t b Hs _ IH]; [trivial |].
  intros t' c Hc. simpl. eapply Loading.run_cons; eauto.
Qed.

(** What a run keeps: the loader makes a run of its own; the timers
    pending and those fired are together the timers set; [isLoading] is
    true as long as none has fired. *)
Lemma loading_run_inv st tr st' :
  Loading.run st tr st' ->
  forall (ltr0 : list Loader.event) (f0 : list nat),
    Loader.run Loader.init ltr0 (Loading.loader st) ->
    Loading.timers st ++ f0 ≡ₚ timeouts ltr0 ->
    Loading.isLoading st = bool_decide (f0 = []) ->
    Loader.run Loader.init (ltr0 ++ Loading.loader_trace tr)
      (Loading.loader st')
    /\ Loading.timers st' ++ (f0 ++ Loading.fired tr)
       ≡ₚ timeouts (ltr0 ++ Loading.loader_trace tr)
    /\ Loading.isLoading st'
       = bool_decide (f0 ++ Loading.fired tr = []).
Proof.
  induction 1 as [| st e st1 tr st2 Hstep _ IH]; intros ltr0 f0 Hl Ht Hb.
  - cbn [Loading.loader_trace Loading.fired omap concat].
    change (Loading.loader_trace []) with (@nil Loader.event).
    change (Loading.fired []) with (@nil nat).
    rewrite !app_nil_r. now repeat split.
  - destruct Hstep as [st evs l' Hstep | st ms before after Htimers].
    + change (Loading.loader_trace (Loading.Load evs :: tr))
        with (evs ++ Loading.loader_trace tr).
      change (Loading.fired (Loading.Load evs :: tr))
        with (Loading.fired tr).
      rewrite app_assoc. apply IH.
      * cbn [Loading.loader]. eapply run_app; [exact Hl |].
        rewrite <- (app_nil_r evs).
        eapply Loader.run_cons; [exact Hstep | apply Loader.run_nil].
      * cbn [Loading.timers]. rewrite timeouts_app, <- Ht.
        rewrite <- !app_assoc. apply Permutation_app_head.
        apply Permutation_app_comm.
      * exact Hb.
    + change (Loading.loader_trace (Loading.Timeout ms :: tr))
        with (Loading.loader_trace tr).
      change (Loading.fired (Loading.Timeout ms :: tr))
        with ([ms] ++ Loading.fired tr).
      rewrite (app_assoc f0). apply IH.
      * exact Hl.
      * cbn [Loading.timers]. rewrite <- Ht, Htimers.
        rewrite <- !app_assoc. apply Permutation_app_head.
        rewrite (Permutation_app_comm f0 [ms]). simpl.
        symmetry. apply Permutation_middle.
      * cbn [Loading.isLoading]. symmetry. apply bool_decide_eq_false.
        intros E. apply app_eq_nil in E as [_ E]. discriminate E.
Qed.

Lemma loading_reachable tr st :
  Loading.run Loading.init tr st ->
  Loader.run Loader.init (Loading.loader_trace tr) (Loading.loader st)
  /\ Loading.timers st ++ Loading.fired tr
     ≡ₚ match Loader.snapshots (Loading.loader_trace tr) with
        | [] => []
        | _ :: _ => [800%nat]
        end
  /\ Loading.isLoading st = bool_decide (Loading.fired tr = []).
Proof.
  intros Hrun.
  destruct (loading_run_inv _ _ _ Hrun [] [])
    as (Hl & Ht & Hb); try reflexivity; [apply Loader.run_nil |].
  simpl in Hl, Ht, Hb. split; [exact Hl |]. split; [| exact Hb].
  rewrite Ht, (timeouts_run _ _ _ Hl). reflexivity.
Qed.

(** Whatever the loader can do alone it can do under the loading screen,
    which stays as it is; the timers it sets are added. *)
Lemma loading_run_of_loader (st : Loading.state)
    (tr : list Loader.event) (l' : Loader.state) :
  Loader.run (Loading.loader st) tr l' ->
  exists ltr,
    Loading.run st ltr
      {| Loading.loader := l'; Loading.isLoading := Loading.isLoading st;
         Loading.timers := Loading.timers st ++ timeouts tr |}
    /\ Loading.loader_trace ltr = tr /\ Loading.fired ltr = [].
Proof.
  intros Hrun. remember (Loading.loader st) as l eqn:El. revert st El.
  induction Hrun as [l | l evs l1 tr l2 Hstep _ IH]; intros st ->.
  - exists []. rewrite app_nil_r. destruct st.
    split; [apply Loading.run_nil | split; reflexivity].
  - destruct (IH {| Loading.loader := l1;
                    Loading.isLoading := Loading.isLoading st;
                    Loading.timers := Loading.timers st ++ timeouts evs |}
                eq_refl) as (ltr & Hrun' & Htr & Hf).
    exists (Loading.Load evs :: ltr). split; [| split].
    + eapply Loading.run_cons; [apply Loading.step_load, Hstep |].
      cbn [Loading.isLoading Loading.timers] in Hrun'.
      rewrite <- app_assoc, <- timeouts_app in Hrun'. exact Hrun'.
    + change (Loading.loader_trace (Loading.Load evs :: ltr))
        with (evs ++ Loading.loader_trace ltr).
      now rewrite Htr.
    + exact Hf.
Qed.

End LoadingFacts.

(** The loading screen from the start to the firing of the timer, every
    image of the first batch loading. *)
Lemma loading_session :
  exists tr st,
    Loading.run Loading.init tr st
    /\ Loading.fired tr = [800%nat]
    /\ Loading.isLoading st = false
    /\ Loading.loader st = snd (Loader.loadAllImages all_load 1 Loader.init).
Proof.
  destruct (loading_run_of_loader Loading.init
              (fst (Loader.loadAllImages all_load 1 Loader.init))
              (snd (Loader.loadAllImages all_load 1 Loader.init)))
    as (ltr & Hrun & Htr & Hf).
  { apply loadAllImages_run, inv_init. }
  exists (ltr ++ [Loading.Timeout 800]).
  eexists. split; [| split; [| split]].
  - apply (loading_run_app _ _ _ Hrun).
    eapply Loading.run_cons; [| apply Loading.run_nil].
    apply (Loading.step_timeout _ 800%nat [] []).
    vm_compute. reflexivity.
  - unfold Loading.fired in *. rewrite omap_app, Hf. reflexivity.
  - reflexivity.
  - reflexivity.
Qed.

(** X18. The loading screen is not taken away before the first batch is
    through: when [isLoading] has become false, a snapshot has been
    published and each of the first five elements is in the store and has
    settled, loaded or failed. *)
Theorem loading_screen_waits_for_first_batch (tr : list Loading.event)
    (st : Loading.state) :
  Loading.run Loading.init tr st ->
  Loading.isLoading st = false ->
  Loader.snapshots (Loading.loader_trace tr) ≠ []
  /\ forall r, (r < 5)%nat ->
       exists o,
         Loader.heap (Loading.loader st) !! r = Some o
         /\ request o ≠ Unavailable.
Proof.
  intros Hrun Hoff.
  destruct (loading_reachable tr st Hrun) as (Hl & Ht & Hb).
  assert (Hne : Loader.snapshots (Loading.loader_trace tr) ≠ []).
  { intros E. rewrite E in Ht. apply Permutation_nil_r in Ht.
    apply app_eq_nil in Ht as [_ Hf].
    rewrite Hf, Hoff in Hb. discriminate Hb. }
  split; [exact Hne |].
  apply (first_batch_settled _ _ _ Hl inv_init store_inv_init eq_refl Hne).
Qed.

Lemma loading_screen_waits_for_first_batch_witness :
  exists st : Loading.state,
    Loading.isLoading st = false
    /\ exists o, Loader.heap (Loading.loader st) !! 4%nat = Some o
                 /\ request o ≠ Unavailable.
Proof.
  destruct loading_session as (tr & st & Hrun & _ & Hoff & _).
  destruct (loading_screen_waits_for_first_batch tr st Hrun Hoff)
    as [_ H].
  exists st. split; [exact Hoff |]. apply H. lia.
Defined.

(** X19. The timer that hides the loading screen fires at most once, and
    it is the one of 800 milliseconds.  Until it fires [isLoading] is
    true; once it has fired [isLoading] is false, no timer is left, and
    whatever happens afterwards no timer fires again and [isLoading] stays
    false. *)
Theorem loading_screen_hides_once (tr : list Loading.event)
    (st : Loading.state) :
  Loading.run Loading.init tr st ->
  (Loading.fired tr = [] /\ Loading.isLoading st = true)
  \/ (Loading.fired tr = [800%nat]
      /\ Loading.timers st = []
      /\ Loading.isLoading st = false
      /\ forall tr' st',
           Loading.run st tr' st' ->
           Loading.fired tr' = [] /\ Loading.isLoading st' = false).
Proof.
  intros Hrun.
  assert (Hone : forall t s f fs,
            Loading.run Loading.init t s -> Loading.fired t = f :: fs ->
            f = 800%nat /\ fs = [] /\ Loading.timers s = []
            /\ Loading.isLoading s = false).
  { intros t s f fs Ht Hf.
    destruct (loading_reachable t s Ht) as (_ & Hperm & Hb).
    rewrite Hf in Hperm, Hb.
    destruct (Loader.snapshots (Loading.loader_trace t)).
    - apply Permutation_nil_r in Hperm.
      apply app_eq_nil in Hperm as [_ Hperm]. discriminate Hperm.
    - apply Permutation_singleton_r in Hperm.
      destruct (Loading.timers s) as [| x xs]; simpl in Hperm.
      + injection Hperm as -> ->. now repeat split.
      + injection Hperm as _ Hperm. destruct xs; discriminate Hperm. }
  destruct (Loading.fired tr) as [| f fs] eqn:Hf.
  - left. split; [reflexivity |].
    destruct (loading_reachable tr st Hrun) as (_ & _ & Hb).
    now rewrite Hf in Hb.
  - right. destruct (Hone tr st f fs Hrun Hf) as (-> & -> & Ht & Hoff).
    split; [reflexivity |]. split; [exact Ht |]. split; [exact Hoff |].
    intros tr' st' Hrun'.
    pose proof (loading_run_app _ _ _ Hrun _ _ Hrun') as Hall.
    assert (Hf' : Loading.fired (tr ++ tr')
                  = 800%nat :: Loading.fired tr').
    { unfold Loading.fired in *. now rewrite omap_app, Hf. }
    destruct (Hone _ _ _ _ Hall Hf') as (_ & Hnil & _ & Hoff').
    split; assumption.
Qed.

Lemma loading_screen_hides_once_witness :
  exists (tr : list Loading.event) (st : Loading.state),
    Loading.run Loading.init tr st
    /\ Loading.fired tr = [800%nat]
    /\ Loading.timers st = []
    /\ Loading.isLoading st = false.
Proof.
  destruct loading_session as (tr & st & Hrun & Hf & _).
  destruct (loading_screen_hides_once tr st Hrun)
    as [(Hf' & _) | (_ & Ht & Hoff & _)].
  - rewrite Hf in Hf'. discriminate Hf'.
  - exists tr, st. now repeat split.
Defined.

Section LoadingLiveness.

Lemma loading_trace_app (a b : list Loading.event) :
  Loading.loader_trace (a ++ b)
  = Loading.loader_trace a ++ Loading.loader_trace b.
Proof. unfold Loading.loader_trace. now rewrite omap_app, concat_app. Qed.

(** No image loads in a trace. *)
Lemma no_load_requests (l1 l2 : list nat) :
  Forall (fun e => forall img nw nh, e ≠ Loader.OnLoad img nw nh)
    (zip_with Loader.Request l1 l2).
Proof.
  revert l2. induction l1 as [| a l1 IH]; intros [| b l2]; simpl;
    constructor; [discriminate | apply IH].
Qed.

Lemma no_load_failing (ps : list nat) :
  Forall (fun e => forall img nw nh, e ≠ Loader.OnLoad img nw nh)
    (map (Loader.settle_event (fun _ => Broken)) ps)
  /\ timeouts (map (Loader.settle_event (fun _ => Broken)) ps) = [].
Proof.
  induction ps as [| p ps [IH1 IH2]]; [split; [constructor | reflexivity] |].
  split; [constructor; [discriminate | exact IH1] | exact IH2].
Qed.

(** From inside the first batch the loader can reach the first
    publication with every load that is still to end failing. *)
Lemma first_publication_failing (l : Loader.state) :
  Loader.inv l -> at_first_batch l = true ->
  exists tr l',
    Loader.run l tr l'
    /\ timeouts tr = [800%nat]
    /\ Forall (fun e => forall img nw nh, e ≠ Loader.OnLoad img nw nh) tr.
Proof.
  assert (Hawait : forall h arr ps,
    NoDup ps ->
    exists tr l',
      Loader.run {| Loader.heap := h; Loader.loadedImages := arr;
                    Loader.pc := Loader.Awaiting 0 ps |} tr l'
      /\ timeouts tr = [800%nat]
      /\ Forall (fun e => forall img nw nh, e ≠ Loader.OnLoad img nw nh)
           tr).
  { intros h arr ps Hnd.
    pose proof (settle_all_run (fun _ => Broken) ps 0 h arr Hnd) as Hsettle.
    pose proof (Loader.step_publish 0
                  (Loader.settle_all (fun _ => Broken) h ps) arr) as Hpub.
    destruct (no_load_failing ps) as [Hno Hto].
    eexists _, _. split; [| split].
    - eapply run_app; [exact Hsettle |].
      eapply Loader.run_cons; [exact Hpub | apply Loader.run_nil].
    - rewrite timeouts_app, Hto. reflexivity.
    - apply Forall_app. split; [exact Hno |].
      repeat constructor; discriminate. }
  intros Hinv H1. destruct l as [h arr [i | i ps |]];
    unfold at_first_batch in H1; simpl in H1; try discriminate H1;
    apply Nat.eqb_eq in H1; subst i.
  - destruct (Loader.loadBatch 0 h arr) as [[h' arr'] ps] eqn:Hload.
    assert (Hstep : Loader.step
                      {| Loader.heap := h; Loader.loadedImages := arr;
                         Loader.pc := Loader.AtLoop 0 |}
                      (Loader.LoadBatch 0 :: Loader.requests 0 ps)
                      {| Loader.heap := h'; Loader.loadedImages := arr';
                         Loader.pc := Loader.Awaiting 0 ps |}).
    { apply Loader.step_loadBatch; [rewrite imagePaths_length; lia |].
      exact Hload. }
    pose proof (inv_step _ _ _ Hinv Hstep) as [_ (_ & _ & Hnd & _)].
    simpl in Hnd.
    destruct (Hawait h' arr' ps Hnd) as (tr & l' & Hrun & Hto & Hno).
    exists ((Loader.LoadBatch 0 :: Loader.requests 0 ps) ++ tr), l'.
    split; [| split].
    + eapply Loader.run_cons; eassumption.
    + rewrite timeouts_app, Hto. unfold timeouts at 1, Loader.requests.
      simpl. now rewrite omap_requests.
    + apply Forall_app. split; [| exact Hno].
      constructor; [discriminate | apply no_load_requests].
  - destruct Hinv as [_ (_ & _ & Hnd & _)]. simpl in Hnd.
    exact (Hawait h arr ps Hnd).
Qed.

End LoadingLiveness.

(** X20. The loading screen can always be taken away: from whatever the
    loader and the timer have done so far there is a continuation at the
    end of which [isLoading] is false, and it needs no image to load, every
    load that is still to end may fail. *)
Theorem loading_screen_can_always_hide (tr : list Loading.event)
    (st : Loading.state) :
  Loading.run Loading.init tr st ->
  exists tr' st',
    Loading.run st tr' st'
    /\ Loading.isLoading st' = false
    /\ Forall (fun e => forall img nw nh, e ≠ Loader.OnLoad img nw nh)
         (Loading.loader_trace tr').
Proof.
  intros Hrun.
  destruct (loading_reachable tr st Hrun) as (Hl & Ht & Hb).
  destruct (Loading.isLoading st) eqn:Hon.
  - symmetry in Hb. apply bool_decide_eq_true in Hb.
    rewrite Hb, app_nil_r in Ht.
    destruct (Loader.snapshots (Loading.loader_trace tr)) as [| s ss] eqn:Hs.
    + apply Permutation_nil_r in Ht.
      pose proof (first_batch_run_quiet _ _ _ Hl eq_refl Hs) as H1.
      destruct (first_publication_failing _ (inv_run _ _ _ Hl inv_init) H1)
        as (tr1 & l' & Hrun1 & Hto & Hno).
      destruct (loading_run_of_loader st tr1 l' Hrun1)
        as (ltr & Hrun' & Htr & _).
      rewrite Ht, Hto, Hon in Hrun'. simpl in Hrun'.
      exists (ltr ++ [Loading.Timeout 800]). eexists.
      split; [| split].
      * apply (loading_run_app _ _ _ Hrun').
        eapply Loading.run_cons; [| apply Loading.run_nil].
        apply (Loading.step_timeout _ 800%nat [] []). reflexivity.
      * reflexivity.
      * rewrite loading_trace_app, Htr.
        change (Loading.loader_trace [Loading.Timeout 800])
          with (@nil Loader.event).
        now rewrite app_nil_r.
    + apply Permutation_singleton_r in Ht.
      exists [Loading.Timeout 800]. eexists. split; [| split].
      * eapply Loading.run_cons; [| apply Loading.run_nil].
        apply (Loading.step_timeout _ 800%nat [] []). exact Ht.
      * reflexivity.
      * constructor.
  - exists [], st. split; [apply Loading.run_nil |].
    split; [exact Hon | constructor].
Qed.

Lemma loading_screen_can_always_hide_witness :
  exists tr st,
    Loading.run Loading.init tr st /\ Loading.isLoading st = false
    /\ Forall (fun e => forall img nw nh, e ≠ Loader.OnLoad img nw nh)
         (Loading.loader_trace tr).
Proof.
  exact (loading_screen_can_always_hide [] Loading.init
           (Loading.run_nil Loading.init)).
Defined.

(** ** The transforms over the whole progress axis *)

Section FrameWindows.

Import Transform.

Lemma clamp_monotone (lo hi v w : Q) :
  lo <= hi -> v <= w -> clamp lo hi v <= clamp lo hi w.
Proof.
  intros Hle Hvw. unfold clamp.
  destruct (Qlt_le_dec hi v), (Qlt_le_dec hi w); try lra;
    destruct (Qlt_le_dec v lo), (Qlt_le_dec w lo); lra.
Qed.

(** [Math.round] picks [k] exactly on the half-open unit interval centred
    at [k]. *)
Lemma Math_round_window (x : Q) (k : Z) :
  Math_round x = k <-> inject_Z k - (1 # 2) <= x < inject_Z k + (1 # 2).
Proof.
  unfold Math_round. split.
  - intros <-.
    pose proof (Qfloor_le (x + (1 # 2))) as Hlo.
    pose proof (Qlt_floor (x + (1 # 2))) as Hhi.
    rewrite inject_Z_plus in Hhi. change (inject_Z 1) with 1 in Hhi.
    split; lra.
  - intros [Hlo Hhi]. apply Z.le_antisymm.
    + apply Z.lt_succ_r. rewrite Zlt_Qlt.
      pose proof (Qfloor_le (x + (1 # 2))) as Hf.
      unfold Z.succ. rewrite inject_Z_plus. change (inject_Z 1) with 1.
      lra.
    + rewrite <- (Qfloor_Z k). apply Qfloor_resp_le. lra.
Qed.

End FrameWindows.

(** X21. With [useTransform] as modelled, the frame looked up never moves
    backwards as the progress grows, overshoot included; within [0,1]
    frame [k] is the one selected exactly while [143 * p] lies in the
    half-open unit interval centred at [k]; and so each of the 144 frames
    is selected at progress [k / 143]. *)
Theorem selected_frame_follows_progress (p q : Q) (k : Z) :
  (p <= q -> (selectedFrame p <= selectedFrame q)%Z)
  /\ (0 <= p <= 1 ->
      (selectedFrame p = k
       <-> inject_Z k - (1 # 2) <= 143 * p < inject_Z k + (1 # 2)))
  /\ ((0 <= k <= 143)%Z -> selectedFrame (inject_Z k / 143) = k).
Proof.
  split; [| split].
  - intros Hpq. unfold selectedFrame, Math_round. apply Qfloor_resp_le.
    rewrite !frameIndex_clamped.
    assert (H01 : 0 <= 1) by lra.
    pose proof (clamp_monotone 0 1 p q H01 Hpq). lra.
  - intros Hp. unfold selectedFrame. rewrite Math_round_window.
    rewrite (frameIndex_linear p Hp). split; intros [H1 H2]; split; lra.
  - intros [Hk0 Hk1]. unfold selectedFrame. apply Math_round_window.
    assert (H0 : 0 <= inject_Z k).
    { change 0 with (inject_Z 0). now rewrite <- Zle_Qle. }
    assert (H1 : inject_Z k <= 143).
    { change 143 with (inject_Z 143). now rewrite <- Zle_Qle. }
    assert (E : inject_Z k / 143 == inject_Z k * (1 # 143)) by field.
    rewrite frameIndex_linear by (rewrite E; split; lra).
    rewrite E. split; lra.
Qed.

Lemma selected_frame_follows_progress_witness :
  (selectedFrame (1 # 4) <= selectedFrame (3 # 4))%Z
  /\ selectedFrame (72 # 143) = 72%Z.
Proof.
  destruct (selected_frame_follows_progress (1 # 4) (3 # 4) 0)
    as (Hmono & _).
  destruct (selected_frame_follows_progress (72 # 143) 0 72)
    as (_ & Hwin & _).
  split.
  - apply Hmono. unfold Qle. simpl. lia.
  - apply Hwin; split; unfold Qle, Qlt; simpl; lia.
Defined.

(** X22. With [useTransform] as modelled, for every progress value,
    overshoot included: each overlay opacity lies in [0,1] and each
    overlay offset in [-50,50]; an overlay is visible only strictly inside
    its own window, so no two overlays are ever visible together. *)
Theorem overlays_take_turns (p : Q) :
  (0 <= text1Opacity p <= 1 /\ 0 <= text2Opacity p <= 1
   /\ 0 <= text3Opacity p <= 1)
  /\ (-50 <= text1Y p <= 50 /\ -50 <= text2Y p <= 50
      /\ -50 <= text3Y p <= 50)
  /\ (0 < text1Opacity p -> 0 < p < 35 # 100)
  /\ (0 < text2Opacity p -> 35 # 100 < p < 70 # 100)
  /\ (0 < text3Opacity p -> 70 # 100 < p < 1)
  /\ (text1Opacity p * text2Opacity p == 0
      /\ text2Opacity p * text3Opacity p == 0
      /\ text1Opacity p * text3Opacity p == 0).
Proof.
  assert (H1 : 0 < text1Opacity p -> 0 < p < 35 # 100).
  { intros H; split; revert H; transform_cases. }
  assert (H2 : 0 < text2Opacity p -> 35 # 100 < p < 70 # 100).
  { intros H; split; revert H; transform_cases. }
  assert (H3 : 0 < text3Opacity p -> 70 # 100 < p < 1).
  { intros H; split; revert H; transform_cases. }
  assert (R1 : 0 <= text1Opacity p <= 1) by (split; transform_cases).
  assert (R2 : 0 <= text2Opacity p <= 1) by (split; transform_cases).
  assert (R3 : 0 <= text3Opacity p <= 1) by (split; transform_cases).
  split; [now repeat split |].
  split; [repeat split; transform_cases |].
  split; [exact H1 |]. split; [exact H2 |]. split; [exact H3 |].
  assert (Hzero : forall a b : Q,
            0 <= a -> 0 <= b -> (0 < a -> 0 < b -> False) -> a * b == 0).
  { intros a b Ha Hb Hab.
    destruct (Qlt_le_dec 0 a) as [Ha' | Ha'].
    - destruct (Qlt_le_dec 0 b) as [Hb' | Hb']; [now exfalso; apply Hab |].
      assert (E : b == 0) by lra. rewrite E. ring.
    - assert (E : a == 0) by lra. rewrite E. ring. }
  repeat split; apply Hzero;
    try (apply R1 || apply R2 || apply R3);
    intros Ha Hb;
    try (specialize (H1 Ha)); try (specialize (H2 Ha));
    try (specialize (H2 Hb)); try (specialize (H3 Hb)); lra.
Qed.

Lemma overlays_take_turns_witness :
  35 # 100 < 4 # 10 < 70 # 100.
Proof.
  apply (overlays_take_turns (4 # 10)). unfold Qlt. vm_compute. reflexivity.
Defined.

(** ** The file names, read back *)

Section PathsReadBack.

Lemma length_append (a b : string) :
  String.length (a ++ b) = (String.length a + String.length b)%nat.
Proof. induction a as [| c a IH]; simpl; [reflexivity | now rewrite IH]. Qed.

Lemma append_cancel_l (s a b : string) :
  (s ++ a)%string = (s ++ b)%string -> a = b.
Proof.
  induction s as [| c s IH]; simpl; [trivial |].
  intros H. injection H as H. exact (IH H).
Qed.

Lemma append_cancel_r (a b s : string) :
  (a ++ s)%string = (b ++ s)%string -> a = b.
Proof.
  revert b. induction a as [| c a IH]; intros [| c' b] H; simpl in H.
  - reflexivity.
  - apply (f_equal String.length) in H. simpl in H.
    rewrite length_append in H. lia.
  - apply (f_equal String.length) in H. simpl in H.
    rewrite length_append in H. lia.
  - injection H as -> H. now rewrite (IH b H).
Qed.

(** The decimal digits of a number read back give the number. *)
Lemma String_of_nat_reads (n : nat) :
  exists d, NilEmpty.uint_of_string (String_of_nat n) = Some d
            /\ Nat.of_uint d = n.
Proof.
  exists (Nat.to_uint n). split.
  - apply NilEmpty.usu.
  - apply DecimalNat.Unsigned.of_to.
Qed.

(** Zeros put in front do not change the number read. *)
Lemma filler_reads (k : nat) (cur s : string) d :
  cur = "0"%string \/ cur = EmptyString ->
  NilEmpty.uint_of_string s = Some d ->
  exists d', NilEmpty.uint_of_string (filler k "0" cur ++ s) = Some d'
             /\ Nat.of_uint d' = Nat.of_uint d.
Proof.
  revert cur. induction k as [| k IH]; intros cur Hcur Hs.
  - exists d. split; [exact Hs | reflexivity].
  - destruct (IH EmptyString (or_intror eq_refl) Hs) as (d' & Hd' & E).
    exists (Decimal.D0 d').
    destruct Hcur as [-> | ->]; simpl; rewrite Hd'; split;
      try reflexivity; exact E.
Qed.

Lemma padStart_reads (n : nat) :
  exists d,
    NilEmpty.uint_of_string (padStart (String_of_nat n) 5 "0") = Some d
    /\ Nat.of_uint d = n.
Proof.
  destruct (String_of_nat_reads n) as (d & Hd & E).
  unfold padStart. destruct (_ <=? _)%nat; [eauto |].
  destruct (filler_reads (5 - String.length (String_of_nat n)) "0"
              (String_of_nat n) d (or_introl eq_refl) Hd)
    as (d' & Hd' & E').
  exists d'. split; [exact Hd' | congruence].
Qed.

End PathsReadBack.

(** X23. The callback that makes the paths never gives the same path for
    two indices, whatever their size: the number in the file name, read
    back as a decimal, is the index plus one.  So the 144 entries of the
    table are pairwise different and no two frames are requested from the
    same file. *)
Theorem no_two_frames_share_a_file (i j : nat) :
  (i ≠ j -> imagePath i ≠ imagePath j) /\ NoDup imagePaths.
Proof.
  assert (Hinj : forall a b, imagePath a = imagePath b -> a = b).
  { intros a b H. unfold imagePath in H.
    apply append_cancel_l, append_cancel_r in H.
    destruct (padStart_reads (a + 1)) as (da & Ha & Ea).
    destruct (padStart_reads (b + 1)) as (db & Hb & Eb).
    rewrite H, Hb in Ha. injection Ha as <-. lia. }
  split.
  - intros Hne E. apply Hne, Hinj, E.
  - unfold imagePaths. apply (NoDup_fmap_2 (A := nat)).
    + intros a b. apply Hinj.
    + apply NoDup_seq.
Qed.

Lemma no_two_frames_share_a_file_witness :
  imagePath 9 ≠ imagePath 99.
Proof.
  apply (no_two_frames_share_a_file 9 99). discriminate.
Defined.

(** ** What the canvas shows *)

Lemma array_get_index (m : nat) (z : Z) (img : nat) :
  array_get (Some <$> seq 0 m) z = Some img -> Z.of_nat img = z.
Proof.
  unfold array_get. destruct (z <? 0)%Z eqn:Hz; [discriminate |].
  apply Z.ltb_ge in Hz.
  destruct ((Some <$> seq 0 m : list (option nat)) !! Z.to_nat z)
    as [[x |] |] eqn:E; simpl; try discriminate.
  intros [= ->]. apply lookup_upto in E as [-> _]. lia.
Qed.

(** X24. On a page with a canvas and a context, in a window of positive
    size: whenever the frame selected by the current progress has been
    published and has loaded with a positive size, the canvas shows that
    frame and nothing else, the element of exactly that index, painted
    into the cover rectangle of the current window size.  This holds after
    any sequence of loader steps, scrolls and resizes. *)
Theorem canvas_shows_selected_frame (cv0 : canvas) (w h : N) (p : Q)
    (tr : list Page.event) (st : Page.state) (img : ref) (iw ih : N) :
  Page.run true (Page.mount true (Some cv0) w h p) tr st ->
  array_get (Page.images st) (selectedFrame (Page.smoothProgress st))
  = Some img ->
  request (deref (Loader.heap (Page.loader st)) img) = Available iw ih ->
  (0 < Page.innerWidth st)%N -> (0 < Page.innerHeight st)%N ->
  (0 < iw)%N -> (0 < ih)%N ->
  exists (cv : canvas) (dx dy dw dh : Q),
    Page.canvasRef st = Some cv
    /\ Z.of_nat img = selectedFrame (Page.smoothProgress st)
    /\ cover_rectangle (Page.innerWidth st) (Page.innerHeight st) iw ih
       = (Fin dx, Fin dy, Fin dw, Fin dh)
    /\ bitmap cv = [Drawn img 0 0 (N2Q iw) (N2Q ih) dx dy dw dh].
Proof.
  intros Hrun Hget Hreq Hw Hh Hiw Hih.
  destruct (reachable_in_sync cv0 w h p tr st Hrun) as [_ Hlive].
  destruct Hlive as (_ & _ & cv & Hcv & Hcw & Hch & _ & Hup).
  { intros E. rewrite E in Hget. unfold array_get in Hget.
    destruct (_ <? _)%Z; discriminate Hget. }
  rewrite <- Hcw in Hw. rewrite <- Hch in Hh.
  destruct (render_paints _ _ (frameIndex (Page.smoothProgress st)) cv img
              iw ih Hget Hreq Hw Hh Hiw Hih)
    as (dx & dy & dw & dh & cv1 & Hr & Hcover & Hbm & _).
  exists cv, dx, dy, dw, dh. split; [exact Hcv |]. split; [| split].
  - rewrite (images_run true _ _ _ Hrun inv_init eq_refl) in Hget.
    exact (array_get_index _ _ _ Hget).
  - rewrite <- Hcw, <- Hch. exact Hcover.
  - rewrite <- (Hup cv1 Hr). exact Hbm.
Qed.

Lemma canvas_shows_selected_frame_witness :
  exists (st : Page.state) (cv : canvas) (dx dy dw dh : Q),
    Page.canvasRef st = Some cv
    /\ cover_rectangle 1024 768 1920 1080 = (Fin dx, Fin dy, Fin dw, Fin dh)
    /\ bitmap cv = [Drawn 0%nat 0 0 (N2Q 1920) (N2Q 1080) dx dy dw dh].
Proof.
  destruct (first_publication true (Some fresh))
    as (ptr & st & Hrun & Himg & Hl & Hp & Hw & Hh).
  destruct (canvas_shows_selected_frame fresh 1024 768 0 ptr st 0%nat
              1920 1080 Hrun)
    as (cv & dx & dy & dw & dh & Hcv & _ & Hcover & Hbm).
  - rewrite Himg, Hp. reflexivity.
  - rewrite Hl. vm_compute. reflexivity.
  - rewrite Hw. lia.
  - rewrite Hh. lia.
  - lia.
  - lia.
  - rewrite Hw, Hh in Hcover. exists st, cv, dx, dy, dw, dh.
    split; [exact Hcv |]. split; [exact Hcover | exact Hbm].
Defined.

(** ** The easing of the smooth scroll *)

Section EasingFacts.

Import Reals Lra.

Local Open Scope R_scope.

Lemma Rpower_2_neg (n : nat) : Rpower 2 (- INR n) = / 2 ^ n.
Proof. rewrite Rpower_Ropp, Rpower_pow by lra. reflexivity. Qed.

(** The power term shrinks as [t] grows. *)
Lemma easing_power_antitone (s t : R) :
  s <= t -> Rpower 2 (-10 * t) <= Rpower 2 (-10 * s).
Proof. intros Hst. apply Rle_Rpower; lra. Qed.

Lemma easing_power_at_1 : Rpower 2 (-10 * 1) = / 1024.
Proof.
  replace (-10 * 1) with (- INR 10) by (simpl; lra).
  rewrite Rpower_2_neg. f_equal. lra.
Qed.

Lemma easing_power_at_9_10 : Rpower 2 (-10 * (9 / 10)) = / 512.
Proof.
  replace (-10 * (9 / 10)) with (- INR 9) by (simpl; lra).
  rewrite Rpower_2_neg. f_equal. lra.
Qed.

(** X25. The easing given to the smooth scroll, over the reals: it never
    exceeds 1 and never decreases; it starts at 0.001, not at 0; it is
    still below 1 at nine tenths of the duration and is exactly 1 at the
    end of it and after, the 1.001 making up for a power that never
    reaches 0. *)
Theorem easing_saturates (s t : R) :
  easing t <= 1
  /\ (s <= t -> easing s <= easing t)
  /\ easing 0 = 1 / 1000
  /\ (t <= 9 / 10 -> easing t < 1)
  /\ (1 <= t -> easing t = 1).
Proof.
  unfold easing. split; [apply Rmin_l |]. split; [| split; [| split]].
  - intros Hst. pose proof (easing_power_antitone s t Hst) as Hp.
    unfold Rmin. repeat destruct (Rle_dec _ _); lra.
  - replace (-10 * 0) with 0 by lra. rewrite Rpower_O by lra.
    unfold Rmin. destruct (Rle_dec _ _); lra.
  - intros Ht. pose proof (easing_power_antitone t (9 / 10) Ht) as Hp.
    rewrite easing_power_at_9_10 in Hp.
    unfold Rmin. destruct (Rle_dec _ _); lra.
  - intros Ht. pose proof (easing_power_antitone 1 t Ht) as Hp.
    rewrite easing_power_at_1 in Hp.
    unfold Rmin. destruct (Rle_dec _ _); lra.
Qed.

Lemma easing_saturates_witness : easing 0 <= easing 2 /\ easing 2 = 1.
Proof.
  destruct (easing_saturates 0 2) as (_ & Hmono & _ & _ & Hend).
  split; [apply Hmono | apply Hend]; lra.
Defined.

End EasingFacts.
